(** * mvc.js expression core: lexer, parser, AST and compiled evaluators

    A shallow embedding of [src/Common.ts], [src/AST.ts], [src/expr/Lexer.ts]
    and [src/expr/Parser.ts], followed by the properties of the
    specification that were checked against it.

    Conventions.
    - A JavaScript string is a Rocq [string]; its characters are the code
      units below 256.
    - An object whose methods mutate it (the lexer) is a record that is
      passed in and returned.
    - A JavaScript [throw] is the outcome [Throw]; recursion that the source
      does not bound is cut by a [fuel] argument and gives [Diverge] when the
      fuel runs out. *)

From Stdlib Require Import String Ascii List Bool Arith ZArith NArith QArith Lia.
Close Scope Q_scope.
From Stdlib Require Import DecimalString DecimalN DecimalPos.
Import ListNotations.

Local Open Scope list_scope.
Local Open Scope string_scope.

(* ===================================================================== *)
(** * Common.ts *)
(* ===================================================================== *)

(** the double and the single quote character, by their codes *)
Definition double_quote : ascii := "034"%char.
Definition single_quote : ascii := "039"%char.

(** [s] between two quote characters [q] *)
Definition in_quotes (q : ascii) (s : string) : string :=
  String q (s ++ String q EmptyString).

Module MVC.

(** The two error classes of [Common.ts], and the native [SyntaxError] that
    [JSON.parse] throws ([JSON_SyntaxError text]: [text] is the rejected
    text). *)
Inductive Error : Type :=
| InternalError (message : string)
| SyntaxError (input : string)
| JSON_SyntaxError (text : string).

(** [super(`unrecognized syntax in expression "${input}"`)] *)
Definition message (e : Error) : string :=
  match e with
  | InternalError m => "internal error: " ++ m
  | SyntaxError input =>
      "unrecognized syntax in expression " ++ in_quotes double_quote input
  | JSON_SyntaxError _ => "Unexpected token in JSON"
  end.

End MVC.

(* ===================================================================== *)
(** * String helpers standing for the JavaScript string primitives *)
(* ===================================================================== *)

Module Str.

(** [s.substr(n)] *)
Fixpoint substr (n : nat) (s : string) : string :=
  match n, s with
  | O, _ => s
  | S n', String _ s' => substr n' s'
  | S _, EmptyString => EmptyString
  end.

(** [s.startsWith(p)] *)
Fixpoint starts_with (p s : string) : bool :=
  match p, s with
  | EmptyString, _ => true
  | String a p', String b s' => Ascii.eqb a b && starts_with p' s'
  | String _ _, EmptyString => false
  end.

Definition code (c : ascii) : nat := nat_of_ascii c.

Definition between (lo hi : nat) (c : ascii) : bool :=
  ((lo <=? code c)%nat && (code c <=? hi)%nat)%bool.

(** [[0-9]] *)
Definition is_digit (c : ascii) : bool := between 48 57 c.

(** [[A-Za-z_]] *)
Definition is_name_start (c : ascii) : bool :=
  (between 65 90 c || between 97 122 c || (code c =? 95)%nat)%bool.

(** [[A-Za-z0-9_]], which is also the class [\w] that [\b] looks at *)
Definition is_word (c : ascii) : bool := (is_name_start c || is_digit c)%bool.

(** [\s] on the code units below 256: tab, line feed, vertical tab, form
    feed, carriage return, space and no-break space *)
Definition is_space (c : ascii) : bool :=
  (between 9 13 c || (code c =? 32)%nat || (code c =? 160)%nat)%bool.

(** the longest prefix whose characters satisfy [p] *)
Fixpoint take_while (p : ascii -> bool) (s : string) : string :=
  match s with
  | EmptyString => EmptyString
  | String c s' => if p c then String c (take_while p s') else EmptyString
  end.

Definition is_empty (s : string) : bool :=
  match s with EmptyString => true | _ => false end.

(** every character of [s] satisfies [p] *)
Fixpoint every (p : ascii -> bool) (s : string) : bool :=
  match s with
  | EmptyString => true
  | String c s' => (p c && every p s')%bool
  end.

End Str.

(* ===================================================================== *)
(** * Lexer.ts *)
(* ===================================================================== *)

Inductive Token : Type :=
| T_begin | T_undefined | T_true | T_false | T_in | T_name | T_dot | T_number
| T_string | T_operator | T_comma | T_left | T_right | T_left_square
| T_right_square | T_pipe | T_end.

Definition Token_eqb (a b : Token) : bool :=
  match a, b with
  | T_begin, T_begin | T_undefined, T_undefined | T_true, T_true
  | T_false, T_false | T_in, T_in | T_name, T_name | T_dot, T_dot
  | T_number, T_number | T_string, T_string | T_operator, T_operator
  | T_comma, T_comma | T_left, T_left | T_right, T_right
  | T_left_square, T_left_square | T_right_square, T_right_square
  | T_pipe, T_pipe | T_end, T_end => true
  | _, _ => false
  end.

(** ** The regular expressions of [Lexer.next]

    A pattern is modelled by what [pattern.exec(input)] returns as
    [result[0]]: the matched text, or [None] for [null]. *)
Module RegExp.

Import Str.

Definition Pattern : Type := string -> option string.

(** a pattern [/^literal/] *)
Definition literal (lit : string) : Pattern :=
  fun input => if starts_with lit input then Some lit else None.

(** [/^\s+/] *)
Definition spaces : Pattern :=
  fun input =>
    match take_while is_space input with
    | EmptyString => None
    | m => Some m
    end.

(** [/^in\b/]: after [in], a word boundary: the end of the input or a
    character outside [\w] *)
Definition keyword_in : Pattern :=
  fun input =>
    match input with
    | String "i" (String "n" rest) =>
        match rest with
        | EmptyString => Some "in"
        | String c _ => if is_word c then None else Some "in"
        end
    | _ => None
    end.

(** [/^[A-Za-z_][A-Za-z0-9_]*/] *)
Definition identifier : Pattern :=
  fun input =>
    match input with
    | String c rest =>
        if is_name_start c then Some (String c (take_while is_word rest)) else None
    | EmptyString => None
    end.

(** [/^[0-9]+/] *)
Definition digits : Pattern :=
  fun input =>
    match take_while is_digit input with
    | EmptyString => None
    | m => Some m
    end.

(** What [([^q](\\q))*q] matches at the start of [s], for the quote
    character [q]: every round of the group takes one character other than
    [q], then a backslash, then [q]; the closing [q] ends the match.  A round
    starts on a character other than [q] and the closing quote is [q], so
    the greedy star never has to give a round back. *)
Fixpoint quoted_tail (q : ascii) (s : string) : option string :=
  match s with
  | EmptyString => None
  | String c s1 =>
      if Ascii.eqb c q then Some (String q EmptyString)
      else
        match s1 with
        | String b (String c2 s2) =>
            if Ascii.eqb b "\"%char && Ascii.eqb c2 q then
              match quoted_tail q s2 with
              | Some m => Some (String c (String b (String c2 m)))
              | None => None
              end
            else None
        | _ => None
        end
  end.

(** [/^"([^"](\\"))*"/] with [q] the double quote, [/^'([^'](\\'))*'/] with
    [q] the single quote *)
Definition quoted (q : ascii) : Pattern :=
  fun input =>
    match input with
    | String c rest =>
        if Ascii.eqb c q then
          match quoted_tail q rest with
          | Some m => Some (String q m)
          | None => None
          end
        else None
    | EmptyString => None
    end.

(** the first alternative of [alts] that matches at the start of [s] *)
Fixpoint first_alternative (alts : list string) (s : string) : option string :=
  match alts with
  | [] => None
  | a :: alts' => if starts_with a s then Some a else first_alternative alts' s
  end.

(** [exec] of an alternation none of whose branches is anchored: the
    leftmost position of [s] where a branch matches, and there the first
    branch that does *)
Fixpoint search (alts : list string) (s : string) : option string :=
  match first_alternative alts s with
  | Some a => Some a
  | None =>
      match s with
      | EmptyString => None
      | String _ s' => search alts s'
      end
  end.

(** A pattern [/^a|b|c|.../].  Alternation binds weaker than [^], so only
    the first branch is anchored: [exec] returns [a] when the input starts
    with it, and otherwise the leftmost match of one of the other branches,
    wherever in the input it is. *)
Definition alternation (anchored : string) (others : list string) : Pattern :=
  fun input =>
    if starts_with anchored input then Some anchored else search others input.

(** [/^\>\>\>|\=\=\=|\!\=\=/] *)
Definition operators3 : Pattern := alternation ">>>" ["==="; "!=="].

(** [/^\*\*|\<\<|\>\>|\<\=|\>\=|\=\=|\!\=|\?\?|\&\&|\|\|/] *)
Definition operators2 : Pattern :=
  alternation "**" ["<<"; ">>"; "<="; ">="; "=="; "!="; "??"; "&&"; "||"].

(** [/^\+|\-|\*|\/|\%|\<|\>|\!/] *)
Definition operators1 : Pattern :=
  alternation "+" ["-"; "*"; "/"; "%"; "<"; ">"; "!"].

End RegExp.

(** ** The class [Lexer] *)

Record Lexer : Type := mkLexer {
  originalInput : string;
  _input : string;
  _token : Token;
  _label : string
}.

(** [new Lexer(originalInput)] *)
Definition new_Lexer (originalInput : string) : Lexer :=
  mkLexer originalInput originalInput T_begin "".

(** What a method returns: its value and the object after the call, or the
    error it throws, or [Diverge] when the fuel of an unbounded recursion is
    used up. *)
Inductive Outcome (A : Type) : Type :=
| Return (a : A) (lx : Lexer)
| Throw (e : MVC.Error)
| Diverge.

Arguments Return {A} a lx.
Arguments Throw {A} e.
Arguments Diverge {A}.

Definition M (A : Type) : Type := Lexer -> Outcome A.

Definition ret {A} (a : A) : M A := fun lx => Return a lx.

Definition bind {A B} (m : M A) (k : A -> M B) : M B :=
  fun lx =>
    match m lx with
    | Return a lx' => k a lx'
    | Throw e => Throw e
    | Diverge => Diverge
    end.

Definition throw {A} (e : MVC.Error) : M A := fun _ => Throw e.

Definition get_token : M Token := fun lx => Return (_token lx) lx.
Definition get_label : M string := fun lx => Return (_label lx) lx.

Declare Scope parser_scope.
Delimit Scope parser_scope with parser.
Notation "x <- m ;; k" := (bind m (fun x => k))
  (at level 61, m at next level, right associativity) : parser_scope.
Notation "m ;;; k" := (bind m (fun _ => k))
  (at level 61, right associativity) : parser_scope.
Local Open Scope parser_scope.

Module LexerMethods.

Import Str.

(** [get end()] *)
Definition end_ (lx : Lexer) : bool := Token_eqb T_end (_token lx).

(** [_read(pattern)]: the matched text and the lexer whose remaining input
    has lost as many characters as the match is long, counted from the
    start of the input *)
Definition _read (pattern : RegExp.Pattern) (lx : Lexer) : option (string * Lexer) :=
  match pattern (_input lx) with
  | Some label =>
      Some (label,
            mkLexer (originalInput lx) (substr (String.length label) (_input lx))
                    (_token lx) (_label lx))
  | None => None
  end.

(** [_match(token, pattern)]: [Some] is [true] with the updated lexer,
    [None] is [false] (the lexer is then unchanged) *)
Definition _match (token : Token) (pattern : RegExp.Pattern) (lx : Lexer) : option Lexer :=
  match _read pattern lx with
  | Some (label, lx') => Some (mkLexer (originalInput lx') (_input lx') token label)
  | None => None
  end.

(** The cases of [switch (true)], in the order of the source. *)
Definition rules : list (Token * RegExp.Pattern) :=
  [ (T_undefined, RegExp.literal "undefined");
    (T_true, RegExp.literal "true");
    (T_false, RegExp.literal "false");
    (T_in, RegExp.keyword_in);
    (T_name, RegExp.identifier);
    (T_dot, RegExp.literal ".");
    (T_number, RegExp.digits);
    (T_string, RegExp.quoted double_quote);
    (T_string, RegExp.quoted single_quote);
    (T_operator, RegExp.operators3);
    (T_operator, RegExp.operators2);
    (T_operator, RegExp.operators1);
    (T_comma, RegExp.literal ",");
    (T_left, RegExp.literal "(");
    (T_right, RegExp.literal ")");
    (T_left_square, RegExp.literal "[");
    (T_right_square, RegExp.literal "]");
    (T_pipe, RegExp.literal "|") ].

(** the first case whose [_match] is [true] *)
Fixpoint first_match (rs : list (Token * RegExp.Pattern)) (lx : Lexer) : option Lexer :=
  match rs with
  | [] => None
  | (token, pattern) :: rs' =>
      match _match token pattern lx with
      | Some lx' => Some lx'
      | None => first_match rs' lx
      end
  end.

(** the [switch (true)] of [next] *)
Definition next_switch : M Token :=
  fun lx =>
    match first_match rules lx with
    | Some lx' => Return (_token lx') lx'
    | None => Throw (MVC.SyntaxError (originalInput lx))
    end.

(** [this._label = ''; return this._token = 'end'] *)
Definition next_end : M Token :=
  fun lx => Return T_end (mkLexer (originalInput lx) (_input lx) T_end "").

(** [next()].  After [_read(/^\s+/)] has taken the leading white space the
    method calls itself; in that second call the remaining input has no
    leading white space (lemma [spaces_taken] below), so the second call is
    the empty-input test followed by the switch. *)
Definition next : M Token :=
  fun lx =>
    if is_empty (_input lx) then next_end lx
    else
      match _read RegExp.spaces lx with
      | Some (_, lx') =>
          if is_empty (_input lx') then next_end lx' else next_switch lx'
      | None => next_switch lx
      end.

(** [step()] *)
Definition step : M string :=
  label <- get_label ;;
  next ;;;
  ret label.

(** [expect(...tokens)] *)
Definition expect (tokens : list Token) : M string :=
  fun lx =>
    if existsb (Token_eqb (_token lx)) tokens then step lx
    else Throw (MVC.SyntaxError (originalInput lx)).

(** All the tokens of an input: [next] called until [end] or an error.  The
    remaining input gets shorter with every token, so its length bounds the
    number of calls. *)
Fixpoint tokens_from (n : nat) (lx : Lexer) : list (Token * string) * option MVC.Error :=
  match n with
  | O => ([], None)
  | S n' =>
      match next lx with
      | Return T_end _ => ([(T_end, "")], None)
      | Return t lx' =>
          let (ts, e) := tokens_from n' lx' in ((t, _label lx') :: ts, e)
      | Throw e => ([], Some e)
      | Diverge => ([], None)
      end
  end.

Definition tokenize (input : string) : list (Token * string) * option MVC.Error :=
  tokens_from (S (String.length input)) (new_Lexer input).

End LexerMethods.

(* ===================================================================== *)
(** * JSON text of literal values *)
(* ===================================================================== *)

(** A JavaScript number.  A finite number is the rational it denotes; the
    values used below are exactly representable in binary64 (see
    [Number.representable]). *)
Inductive JsNumber : Type :=
| NaN
| Infinity (negative : bool)
| Finite (q : Q).

(** [LiteralValue] of the missing [Types.ts]: [undefined], a boolean, a
    number or a string. *)
Inductive LiteralValue : Type :=
| L_undefined
| L_boolean (b : bool)
| L_number (n : JsNumber)
| L_string (s : string).

Module Number.

(** [2 ** 53]: the integers below it are exactly representable *)
Definition two53 : Z := 9007199254740992.

Fixpoint is_power_of_two (p : positive) : bool :=
  match p with
  | xH => true
  | xO p' => is_power_of_two p'
  | xI _ => false
  end.

(** [q] in lowest terms is [m / 2^k] with [|m| < 2^53] and [k <= 1074]: such
    a rational is a binary64 number, and an arithmetic operation whose exact
    result is such a rational returns it. *)
Definition representable (q : Q) : bool :=
  let r := Qred q in
  (is_power_of_two (Qden r) && (Z.abs (Qnum r) <? two53)%Z
   && (Pos.size_nat (Qden r) <=? 1075)%nat)%bool.

Definition of_N (n : N) : JsNumber := Finite (inject_Z (Z.of_N n)).
Definition of_Z (z : Z) : JsNumber := Finite (inject_Z z).

Definition is_integer (q : Q) : bool := Pos.eqb (Qden (Qred q)) 1.

(** the integer part, rounding toward zero *)
Definition truncate (q : Q) : Z := Z.quot (Qnum q) (Z.pos (Qden q)).

Definition decimal (n : N) : string := NilEmpty.string_of_uint (N.to_uint n).

(** [parseFloat(label)] on a text that starts with decimal digits and has no
    fraction or exponent after them: the value of the digits (exact below
    [2 ** 53]; above, JavaScript rounds to the nearest binary64 number);
    [NaN] when the text does not start with a digit. *)
Definition parseFloat (label : string) : JsNumber :=
  match Str.take_while Str.is_digit label with
  | EmptyString => NaN
  | ds =>
      match NilEmpty.uint_of_string ds with
      | Some d => of_N (N.of_uint d)
      | None => NaN
      end
  end.

End Number.

Module JSON.

Import Str.

Definition hex_digit (n : nat) : ascii :=
  ascii_of_nat (if (n <? 10)%nat then 48 + n else 87 + n).

Definition escape_char (c : ascii) : string :=
  let n := code c in
  if (n =? 34)%nat then String "\" (String double_quote "")
  else if (n =? 92)%nat then "\\"
  else if (n =? 8)%nat then "\b"
  else if (n =? 12)%nat then "\f"
  else if (n =? 10)%nat then "\n"
  else if (n =? 13)%nat then "\r"
  else if (n =? 9)%nat then "\t"
  else if (n <? 32)%nat then
    "\u00" ++ String (hex_digit (n / 16)) (String (hex_digit (n mod 16)) "")
  else String c "".

Fixpoint escape (s : string) : string :=
  match s with
  | EmptyString => EmptyString
  | String c s' => escape_char c ++ escape s'
  end.

Definition quote (s : string) : string :=
  in_quotes double_quote (escape s).

(** [JSON.stringify(value)], followed by the template literal of
    [LiteralNode.compile], which turns the result [undefined] of
    [JSON.stringify(undefined)] into the text [undefined].  [None]: the text
    of a number that is not an integer below [2 ** 53] in absolute value is
    not modelled. *)
Definition stringify (value : LiteralValue) : option string :=
  match value with
  | L_undefined => Some "undefined"
  | L_boolean true => Some "true"
  | L_boolean false => Some "false"
  | L_number NaN => Some "null"
  | L_number (Infinity _) => Some "null"
  | L_number (Finite q) =>
      let r := Qred q in
      if (Pos.eqb (Qden r) 1 && (Z.abs (Qnum r) <? Number.two53)%Z)%bool then
        Some ((if (Qnum r <? 0)%Z then "-" else "") ++ Number.decimal (Z.abs_N (Qnum r)))
      else None
  | L_string s => Some (quote s)
  end.

Definition hex_value (c : ascii) : option nat :=
  let n := code c in
  if between 48 57 c then Some (n - 48)
  else if between 97 102 c then Some (n - 87)
  else if between 65 70 c then Some (n - 55)
  else None.

(** The characters of a JSON string literal after its opening quote: [Some]
    of the decoded string when the literal is closed by a quote that is the
    last character of the text.  A [\u] escape is decoded when it names a
    code unit below 256. *)
Fixpoint parse_chars (s : string) : option string :=
  match s with
  | EmptyString => None
  | String c s1 =>
      if (code c =? 34)%nat then
        match s1 with EmptyString => Some EmptyString | _ => None end
      else if (code c <? 32)%nat then None
      else if (code c =? 92)%nat then
        match s1 with
        | String e s2 =>
            let n := code e in
            let plain (d : ascii) := option_map (String d) (parse_chars s2) in
            if (n =? 34)%nat then plain e
            else if (n =? 92)%nat then plain e
            else if (n =? 47)%nat then plain e
            else if (n =? 98)%nat then plain (ascii_of_nat 8)
            else if (n =? 102)%nat then plain (ascii_of_nat 12)
            else if (n =? 110)%nat then plain (ascii_of_nat 10)
            else if (n =? 114)%nat then plain (ascii_of_nat 13)
            else if (n =? 116)%nat then plain (ascii_of_nat 9)
            else if (n =? 117)%nat then
              match s2 with
              | String "0" (String "0" (String h (String l s3))) =>
                  match hex_value h, hex_value l with
                  | Some a, Some b =>
                      option_map (String (ascii_of_nat (16 * a + b))) (parse_chars s3)
                  | _, _ => None
                  end
              | _ => None
              end
            else None
        | EmptyString => None
        end
      else option_map (String c) (parse_chars s1)
  end.

(** [JSON.parse(text)] for a text that starts with a quote character, which
    every label of the two string rules does: the decoded string, or [None]
    when [JSON.parse] throws its [SyntaxError] (as it does on every text that
    starts with a single quote). *)
Definition parse (text : string) : option string :=
  match text with
  | String c rest => if (code c =? 34)%nat then parse_chars rest else None
  | EmptyString => None
  end.

End JSON.

(* ===================================================================== *)
(** * AST.ts *)
(* ===================================================================== *)

(** [FieldComponent] and [SubscriptComponent], of which [src] has only the
    constructor calls in [Parser.ts]. *)
Inductive PathComponent (N : Type) : Type :=
| FieldComponent (name : string)
| SubscriptComponent (index : N).

Arguments FieldComponent {N} name.
Arguments SubscriptComponent {N} index.

#[local] Set Warnings "-register-all".

(** The node classes.  [LiteralNode] to [PipeNode] are the classes of
    [AST.ts]; of the others [src] has only the constructor calls in
    [Parser.ts]. *)
Inductive Node : Type :=
| LiteralNode (value : LiteralValue)
| VariableNode (name : string)
| UnaryNode (operator : string) (inner : Node)
| BinaryNode (operator : string) (left right : Node)
| BindNode (name : string) (parameters : list Node)
| PipeNode (left right : Node)
| ReferenceNode (components : list (PathComponent Node))
| StaticFragmentNode (text : string)
| InterpolatedNode (fragments : list Node)
| CollectionIterationNode (name : string) (source : Node)
| DictionaryIterationNode (keyName valueName : string) (source : Node).

Module AST.

Definition mem (x : string) (l : list string) : bool := existsb (String.eqb x) l.

(** [new Set<string>(array)] followed by the spread [[...set]]: the elements
    are inserted one after the other, an element that is already in the set
    is skipped, and the set lists its elements in insertion order. *)
Fixpoint Set_add_all (set : list string) (array : list string) : list string :=
  match array with
  | [] => set
  | x :: array' => Set_add_all (if mem x set then set else (set ++ [x])%list) array'
  end.

(** [unique(...elements)]: [array.concat(...elements)] appends the arrays
    among the arguments and the strings among them as single elements; a
    string argument [s] is passed here as [[s]]. *)
Definition unique (elements : list (list string)) : list string :=
  Set_add_all [] (concat elements).

(** Modelled from the spec: [free()] of a path component, whose classes
    [FieldComponent] and [SubscriptComponent] are not in [src].  A field
    access reads nothing of the context, a subscript reads what its index
    expression reads. *)
Definition component_free (free : Node -> list string) (c : PathComponent Node) : list string :=
  match c with
  | FieldComponent _ => []
  | SubscriptComponent index => free index
  end.

(** Modelled from the spec: [free()] of [ReferenceNode], whose class is not
    in [src].  By the specification's invariant it is the de-duplicated
    union of the root name and of what the subscripts read; the
    specification's example gives the list of the one name a for
    [a.b[1]]. *)
Definition ReferenceNode_free (free : Node -> list string)
    (components : list (PathComponent Node)) : list string :=
  match components with
  | FieldComponent root :: rest => unique ([root] :: map (component_free free) rest)
  | _ => unique (map (component_free free) components)
  end.

(** Modelled from the spec: [free()] of [InterpolatedNode], whose class is
    not in [src]: the de-duplicated union of what the fragments read. *)
Definition InterpolatedNode_free (free : Node -> list string) (fragments : list Node)
  : list string :=
  unique (map free fragments).

(** Modelled from the spec: [free()] of [CollectionIterationNode] and of
    [DictionaryIterationNode], whose classes are not in [src]: the
    de-duplicated list of what the source expression, their only child,
    reads. *)
Definition IterationNode_free (free : Node -> list string) (source : Node) : list string :=
  unique [free source].

(** [free()].  The cases from [LiteralNode] to [PipeNode] are the methods of
    [AST.ts]; a static fragment, which has no child and no name, reads
    nothing; the other cases are the definitions above. *)
Fixpoint free (node : Node) : list string :=
  match node with
  | LiteralNode _ => []
  | VariableNode name => [name]
  | UnaryNode _ inner => free inner
  | BinaryNode _ l r => unique [free l; free r]
  | BindNode name parameters => unique ([name] :: map free parameters)
  | PipeNode l r => unique [free l; free r]
  | ReferenceNode components => ReferenceNode_free free components
  | StaticFragmentNode _ => []
  | InterpolatedNode fragments => InterpolatedNode_free free fragments
  | CollectionIterationNode _ source => IterationNode_free free source
  | DictionaryIterationNode _ _ source => IterationNode_free free source
  end.

(** [parameters.map(...).join(',')] *)
Fixpoint join (sep : string) (l : list string) : string :=
  match l with
  | [] => ""
  | [x] => x
  | x :: l' => x ++ sep ++ join sep l'
  end.

Fixpoint sequence {A} (l : list (option A)) : option (list A) :=
  match l with
  | [] => Some []
  | None :: _ => None
  | Some x :: l' => option_map (cons x) (sequence l')
  end.

(** [compile()]: the JavaScript text of a node.  [None] for a class whose
    [compile] is not in [src], and for a number literal whose text is not
    modelled. *)
Fixpoint compile (node : Node) : option string :=
  match node with
  | LiteralNode value => JSON.stringify value
  | VariableNode name => Some name
  | UnaryNode operator inner =>
      match compile inner with
      | Some i => Some (operator ++ "(" ++ i ++ ")")
      | None => None
      end
  | BinaryNode operator l r =>
      match compile l, compile r with
      | Some l', Some r' => Some ("(" ++ l' ++ ")" ++ operator ++ "(" ++ r' ++ ")")
      | _, _ => None
      end
  | BindNode name parameters =>
      match sequence (map compile parameters) with
      | Some ps => Some (name ++ "(" ++ join "," ps ++ ")")
      | None => None
      end
  | PipeNode l r =>
      match compile l, compile r with
      | Some l', Some r' => Some ("(" ++ r' ++ ")(" ++ l' ++ ")")
      | _, _ => None
      end
  | _ => None
  end.

End AST.

(* ===================================================================== *)
(** * Parser.ts: the class [Parser] *)
(* ===================================================================== *)

Module Parser.

Import LexerMethods.

Definition _BINARY_OPERATOR_PRECEDENCE_TABLE : list (bool * list string) :=
  [ (false, ["**"]);
    (true, ["*"; "/"; "%"]);
    (true, ["+"; "-"]);
    (true, ["<<"; ">>"; ">>>"]);
    (true, ["<"; "<="; ">"; ">="; "in"]);
    (true, ["=="; "!="; "==="; "!=="]) ].

(** [array.includes(x)] on strings and on tokens *)
Definition includes (x : string) (l : list string) : bool := existsb (String.eqb x) l.
Definition includes_token (t : Token) (l : list Token) : bool := existsb (Token_eqb t) l.

(** A parser is its lexer: the field [input] is the lexer's
    [originalInput].  [new Parser(input)] makes the lexer and calls [next]
    once. *)
Definition new_Parser (input : string) : Outcome Token := next (new_Lexer input).

Definition get_input : M string := fun lx => Return (originalInput lx) lx.

Definition diverge {A} : M A := fun _ => Diverge.

(** [_parseStringLiteral(label)] *)
Definition _parseStringLiteral (label : string) : M string :=
  match JSON.parse label with
  | Some s => ret s
  | None => throw (MVC.JSON_SyntaxError label)
  end.

(** The recursive methods.  [fuel] bounds the depth of the calls and the
    rounds of the [while] loop; every method hands [fuel - 1] to what it
    calls. *)
Fixpoint _parseReferenceComponents (fuel : nat) (components : list (PathComponent Node))
    {struct fuel} : M Node :=
  match fuel with
  | O => diverge
  | S fuel' =>
      token <- get_token ;;
      match token with
      | T_dot =>
          label <- expect [T_name] ;;
          _parseReferenceComponents fuel' (components ++ [FieldComponent label])%list
      | T_left_square =>
          next ;;;
          index <- _parseRoot fuel' ;;
          expect [T_right_square] ;;;
          _parseReferenceComponents fuel' (components ++ [SubscriptComponent index])%list
      | _ => ret (ReferenceNode components)
      end
  end

with _parseReference (fuel : nat) {struct fuel} : M Node :=
  match fuel with
  | O => diverge
  | S fuel' =>
      label <- expect [T_name] ;;
      _parseReferenceComponents fuel' [FieldComponent label]
  end

with _parseValue (fuel : nat) {struct fuel} : M Node :=
  match fuel with
  | O => diverge
  | S fuel' =>
      token <- get_token ;;
      match token with
      | T_undefined => next ;;; ret (LiteralNode L_undefined)
      | T_true => next ;;; ret (LiteralNode (L_boolean true))
      | T_false => next ;;; ret (LiteralNode (L_boolean false))
      | T_number =>
          label <- step ;;
          ret (LiteralNode (L_number (Number.parseFloat label)))
      | T_string =>
          label <- step ;;
          s <- _parseStringLiteral label ;;
          ret (LiteralNode (L_string s))
      | T_left =>
          node <- _parseRoot fuel' ;;
          expect [T_right] ;;;
          ret node
      | _ => _parseReference fuel'
      end
  end

with _parseUnaryNode (fuel : nat) {struct fuel} : M Node :=
  match fuel with
  | O => diverge
  | S fuel' =>
      token <- get_token ;;
      if negb (Token_eqb T_operator token) then _parseValue fuel'
      else
        operator <- get_label ;;
        if includes operator ["+"; "-"; "!"] then
          next ;;;
          inner <- _parseUnaryNode fuel' ;;
          ret (UnaryNode operator inner)
        else
          input <- get_input ;;
          throw (MVC.SyntaxError input)
  end

with _parseBinaryNode (fuel : nat) (precedenceIndex : nat) {struct fuel} : M Node :=
  match fuel with
  | O => diverge
  | S fuel' =>
      match nth_error _BINARY_OPERATOR_PRECEDENCE_TABLE precedenceIndex with
      | Some (leftAssociative, operators) =>
          if leftAssociative then
            node <- _parseBinaryNode fuel' (precedenceIndex + 1) ;;
            _parseBinaryNode_while fuel' precedenceIndex operators node
          else
            l <- _parseBinaryNode fuel' (precedenceIndex + 1) ;;
            token <- get_token ;;
            label <- get_label ;;
            if (negb (includes_token token [T_operator; T_in])
                || negb (includes label operators))%bool
            then ret l
            else
              operator <- step ;;
              r <- _parseBinaryNode fuel' precedenceIndex ;;
              ret (BinaryNode operator l r)
      | None => _parseUnaryNode fuel'
      end
  end

(** the [while] loop of the left-associative branch, entered with the node
    built so far *)
with _parseBinaryNode_while (fuel : nat) (precedenceIndex : nat) (operators : list string)
    (node : Node) {struct fuel} : M Node :=
  match fuel with
  | O => diverge
  | S fuel' =>
      token <- get_token ;;
      label <- get_label ;;
      if (includes_token token [T_operator; T_in] && includes label operators)%bool then
        operator <- step ;;
        r <- _parseBinaryNode fuel' (precedenceIndex + 1) ;;
        _parseBinaryNode_while fuel' precedenceIndex operators (BinaryNode operator node r)
      else ret node
  end

with _parseRoot (fuel : nat) {struct fuel} : M Node :=
  match fuel with
  | O => diverge
  | S fuel' => _parseBinaryNode fuel' 0
  end.

(** [parse()] *)
Definition parse (fuel : nat) : M Node :=
  node <- _parseRoot fuel ;;
  fun lx =>
    if end_ lx then Return node lx
    else Throw (MVC.SyntaxError (originalInput lx)).

(** [_parseCollectionIteration(name)] *)
Definition _parseCollectionIteration (fuel : nat) (name : string) : M Node :=
  source <- parse fuel ;;
  ret (CollectionIterationNode name source).

(** [_parseDictionaryIteration(keyName)] *)
Definition _parseDictionaryIteration (fuel : nat) (keyName : string) : M Node :=
  valueName <- expect [T_name] ;;
  expect [T_in] ;;;
  source <- parse fuel ;;
  ret (DictionaryIterationNode keyName valueName source).

(** [parseIteration()] *)
Definition parseIteration (fuel : nat) : M Node :=
  name <- expect [T_name] ;;
  token <- get_token ;;
  match token with
  | T_comma => next ;;; _parseDictionaryIteration fuel name
  | T_in => next ;;; _parseCollectionIteration fuel name
  | _ => input <- get_input ;; throw (MVC.SyntaxError input)
  end.

End Parser.

(** What a function of [MVC.Expressions] gives back: the node, the error it
    throws, or [Diverges] when the recursion needs more than [fuel] nested
    calls. *)
Inductive Result (A : Type) : Type :=
| Ok (a : A)
| Error (e : MVC.Error)
| Diverges.

Arguments Ok {A} a.
Arguments Error {A} e.
Arguments Diverges {A}.

Definition result_of {A} (o : Outcome A) : Result A :=
  match o with
  | Return a _ => Ok a
  | Throw e => Error e
  | Diverge => Diverges
  end.

Module Expressions.

(** the method [m] of [new Parser(input)] *)
Definition with_Parser {A} (input : string) (m : M A) : Result A :=
  match Parser.new_Parser input with
  | Return _ lx => result_of (m lx)
  | Throw e => Error e
  | Diverge => Diverges
  end.

(** [parse(input)] *)
Definition parse (fuel : nat) (input : string) : Result Node :=
  with_Parser input (Parser.parse fuel).

(** [new Parser(input).parseIteration()] *)
Definition parseIteration (fuel : nat) (input : string) : Result Node :=
  with_Parser input (Parser.parseIteration fuel).

End Expressions.

(* ===================================================================== *)
(** * Parser.ts: [interpolate] *)
(* ===================================================================== *)

Module Interpolation.

Definition open_brace : ascii := "{"%char.
Definition close_brace : ascii := "}"%char.

(** [text += c] *)
Definition add (text : string) (c : ascii) : string := text ++ String c "".

(** [text += q + input[i]], where [input[i]] is a character or, past the end
    of the input, [undefined], which the concatenation turns into the text
    [undefined]. *)
Definition add_pair (text : string) (q : ascii) (next : option ascii) : string :=
  text ++ String q (match next with Some d => String d "" | None => "undefined" end).

(** The two [for] loops of [interpolate].  [rest] is [input.substr(i)].

    [scan_text] is the outer loop with the text and the fragments gathered
    so far; [scan_expression] is the inner loop, entered after [{{] with the
    text of the region gathered so far.  When the region is closed its text
    is parsed by a parser of its own, the node is pushed and the outer loop
    goes on behind the closing braces. *)
Fixpoint scan_text (fuel : nat) (input rest text : string) (fragments : list Node)
    {struct rest} : Result Node :=
  match rest with
  | EmptyString => Ok (InterpolatedNode (fragments ++ [StaticFragmentNode text])%list)
  | String c rest1 =>
      if negb (Ascii.eqb open_brace c) then
        scan_text fuel input rest1 (add text c) fragments
      else
        match rest1 with
        | EmptyString =>
            Ok (InterpolatedNode
                  (fragments ++ [StaticFragmentNode (add_pair text open_brace None)])%list)
        | String d rest2 =>
            if Ascii.eqb open_brace d then
              scan_expression fuel input rest2 ""
                              (fragments ++ [StaticFragmentNode text])%list
            else scan_text fuel input rest2 (add_pair text open_brace (Some d)) fragments
        end
  end

with scan_expression (fuel : nat) (input rest text : string) (fragments : list Node)
    {struct rest} : Result Node :=
  match rest with
  | EmptyString => Error (MVC.SyntaxError input)
  | String c rest1 =>
      if negb (Ascii.eqb close_brace c) then
        scan_expression fuel input rest1 (add text c) fragments
      else
        match rest1 with
        | EmptyString => Error (MVC.SyntaxError input)
        | String d rest2 =>
            if Ascii.eqb close_brace d then
              match Expressions.parse fuel text with
              | Ok node => scan_text fuel input rest2 "" (fragments ++ [node])%list
              | Error e => Error e
              | Diverges => Diverges
              end
            else scan_expression fuel input rest2 (add_pair text close_brace (Some d)) fragments
        end
  end.

(** [interpolate(input)] *)
Definition interpolate (fuel : nat) (input : string) : Result Node :=
  scan_text fuel input input "" [].

End Interpolation.

(* ===================================================================== *)
(** * The values of compiled text *)
(* ===================================================================== *)

(** [Parser.ts] hands the text of [compile()] to [new Function]; what the
    function returns is the value JavaScript gives to that text.  This
    section states that value for the part of JavaScript that is needed
    here; [None] stands for "not modelled", never for a failure. *)

(** the error objects a modelled evaluation can throw *)
Inductive JsError : Type :=
| TypeError.

Inductive Value : Type :=
| V_undefined
| V_null
| V_boolean (b : bool)
| V_number (n : JsNumber)
| V_string (s : string)
| V_array (elements : list Value)
| V_object (properties : list (string * Value)).

(** [Dictionary] of [Common.ts]; the first binding of a key is its value *)
Definition Dictionary : Type := list (string * Value).

(** how an evaluation ends: with a value, or by throwing *)
Inductive Completion (A : Type) : Type :=
| Normal (a : A)
| Abrupt (e : JsError).

Arguments Normal {A} a.
Arguments Abrupt {A} e.

Module Js.

Definition exact (q : Q) : option (Completion Value) :=
  if Number.representable q then Some (Normal (V_number (Finite (Qred q)))) else None.

(** the value of the text of a literal: what [JSON.stringify] writes, read
    as a JavaScript expression *)
Definition literal (text : string) : option Value :=
  if String.eqb text "undefined" then Some V_undefined
  else if String.eqb text "null" then Some V_null
  else if String.eqb text "true" then Some (V_boolean true)
  else if String.eqb text "false" then Some (V_boolean false)
  else
    match text with
    | String c rest =>
        if (Str.code c =? 34)%nat then option_map V_string (JSON.parse text)
        else
          let (negative, ds) :=
            if (Str.code c =? 45)%nat then (true, rest) else (false, text) in
          match NilEmpty.uint_of_string ds with
          | Some d =>
              let n := N.of_uint d in
              if (String.eqb ds (Number.decimal n) && (Z.of_N n <? Number.two53)%Z)%bool
              then Some (V_number (Number.of_Z (if negative then - Z.of_N n else Z.of_N n)))
              else None
          | None => None
          end
    | EmptyString => None
    end.

(** [ToBoolean] *)
Definition ToBoolean (v : Value) : bool :=
  match v with
  | V_undefined | V_null => false
  | V_boolean b => b
  | V_number NaN => false
  | V_number (Infinity _) => true
  | V_number (Finite q) => negb (Qnum q =? 0)%Z
  | V_string s => negb (Str.is_empty s)
  | V_array _ | V_object _ => true
  end.

Definition all_digits (s : string) : bool :=
  String.eqb (Str.take_while Str.is_digit s) s.

(** [ToNumber], for the primitive values; of the strings, for the empty
    string and for the strings of decimal digits *)
Definition ToNumber (v : Value) : option JsNumber :=
  match v with
  | V_undefined => Some NaN
  | V_null => Some (Number.of_Z 0)
  | V_boolean b => Some (Number.of_Z (if b then 1 else 0))
  | V_number n => Some n
  | V_string s =>
      if Str.is_empty s then Some (Number.of_Z 0)
      else if all_digits s then
        match NilEmpty.uint_of_string s with
        | Some d =>
            if (Z.of_N (N.of_uint d) <? Number.two53)%Z
            then Some (Number.of_N (N.of_uint d)) else None
        | None => None
        end
      else None
  | V_array _ | V_object _ => None
  end.

(** the integer modulo [2 ** 32] in the signed range *)
Definition wrap32 (z : Z) : Z := ((z + 2147483648) mod 4294967296 - 2147483648)%Z.

(** [ToInt32] of a number: [NaN] and the infinities give 0, a finite number
    is cut toward zero and wrapped *)
Definition ToInt32 (n : JsNumber) : Z :=
  match n with
  | NaN | Infinity _ => 0%Z
  | Finite q => wrap32 (Number.truncate q)
  end.

(** [String(v)], for the primitive values whose text is modelled *)
Definition ToString (v : Value) : option string :=
  match v with
  | V_undefined => Some "undefined"
  | V_null => Some "null"
  | V_boolean b => Some (if b then "true" else "false")
  | V_number NaN => Some "NaN"
  | V_number (Infinity negative) => Some (if negative then "-Infinity" else "Infinity")
  | V_number (Finite q) => JSON.stringify (L_number (Finite q))
  | V_string s => Some s
  | V_array _ => None
  | V_object _ => None
  end.

(** [[].concat(v)]: the elements of an array, any other value as the only
    element *)
Definition concat_into_array (v : Value) : list Value :=
  match v with
  | V_array elements => elements
  | _ => [v]
  end.

Definition is_primitive (v : Value) : bool :=
  match v with
  | V_array _ | V_object _ => false
  | _ => true
  end.

(** [===] on numbers *)
Definition number_equal (a b : JsNumber) : bool :=
  match a, b with
  | Finite p, Finite q => Qeq_bool p q
  | Infinity s, Infinity t => Bool.eqb s t
  | _, _ => false
  end.

(** [a === b]; [None] for two objects, whose identity is not modelled *)
Definition strict_equal (a b : Value) : option bool :=
  match a, b with
  | V_undefined, V_undefined => Some true
  | V_null, V_null => Some true
  | V_boolean x, V_boolean y => Some (Bool.eqb x y)
  | V_number x, V_number y => Some (number_equal x y)
  | V_string x, V_string y => Some (String.eqb x y)
  | _, _ => if (is_primitive a || is_primitive b)%bool then Some false else None
  end.

Definition same_type (a b : Value) : bool :=
  match a, b with
  | V_undefined, V_undefined | V_null, V_null | V_boolean _, V_boolean _
  | V_number _, V_number _ | V_string _, V_string _ => true
  | _, _ => false
  end.

Definition is_nullish (v : Value) : bool :=
  match v with V_undefined | V_null => true | _ => false end.

(** [a == b]: as [===] on values of one type, [null] and [undefined] equal
    each other and nothing else; the comparisons that convert an operand are
    not modelled *)
Definition loose_equal (a b : Value) : option bool :=
  if same_type a b then strict_equal a b
  else if (is_nullish a && is_nullish b)%bool then Some true
  else if (is_nullish a || is_nullish b)%bool then
    (if (is_primitive a && is_primitive b)%bool then Some false else None)
  else None.

Definition boolean (b : bool) : option (Completion Value) := Some (Normal (V_boolean b)).

Definition Qlt_bool (a b : Q) : bool := negb (Qle_bool b a).

(** the binary operators on two finite numbers *)
Definition arithmetic (operator : string) (a b : Q) : option (Completion Value) :=
  if String.eqb operator "+" then exact (a + b)
  else if String.eqb operator "-" then exact (a - b)
  else if String.eqb operator "*" then exact (a * b)
  else if String.eqb operator "/" then
    (if Qeq_bool b 0 then None else exact (a / b))
  else if String.eqb operator "%" then
    (if Qeq_bool b 0 then None
     else exact (a - b * inject_Z (Number.truncate (Qred (a / b)))))
  else if String.eqb operator "**" then
    (if (Number.is_integer a && Number.is_integer b && (0 <=? Qnum b)%Z)%bool
     then exact (inject_Z (Z.pow (Qnum (Qred a)) (Qnum (Qred b))))
     else None)
  else if String.eqb operator "<" then boolean (Qlt_bool a b)
  else if String.eqb operator "<=" then boolean (Qle_bool a b)
  else if String.eqb operator ">" then boolean (Qlt_bool b a)
  else if String.eqb operator ">=" then boolean (Qle_bool b a)
  else None.

(** [(l)operator(r)] on the values of the operands *)
Definition binary (operator : string) (l r : Value) : option (Completion Value) :=
  if String.eqb operator "===" then option_map (fun b => Normal (V_boolean b)) (strict_equal l r)
  else if String.eqb operator "!==" then
    option_map (fun b => Normal (V_boolean (negb b))) (strict_equal l r)
  else if String.eqb operator "==" then
    option_map (fun b => Normal (V_boolean b)) (loose_equal l r)
  else if String.eqb operator "!=" then
    option_map (fun b => Normal (V_boolean (negb b))) (loose_equal l r)
  else if String.eqb operator "in" then
    (if is_primitive r then Some (Abrupt TypeError) else None)
  else
    match l, r with
    | V_number (Finite a), V_number (Finite b) => arithmetic operator a b
    | V_string a, V_string b =>
        if String.eqb operator "+" then Some (Normal (V_string (a ++ b))) else None
    | _, _ => None
    end.

(** [operator(v)] *)
Definition unary (operator : string) (v : Value) : option (Completion Value) :=
  if String.eqb operator "!" then boolean (negb (ToBoolean v))
  else
    match v with
    | V_number (Finite q) =>
        if String.eqb operator "+" then Some (Normal v)
        else if String.eqb operator "-" then Some (Normal (V_number (Finite (Qred (- q)))))
        else None
    | _ => None
    end.

Fixpoint lookup (key : string) (properties : list (string * Value)) : option Value :=
  match properties with
  | [] => None
  | (k, v) :: properties' => if String.eqb key k then Some v else lookup key properties'
  end.

(** the property names every object inherits from [Object.prototype] *)
Definition inherited : list string :=
  [ "constructor"; "hasOwnProperty"; "isPrototypeOf"; "propertyIsEnumerable";
    "toLocaleString"; "toString"; "valueOf"; "__proto__"; "__defineGetter__";
    "__defineSetter__"; "__lookupGetter__"; "__lookupSetter__" ].

(** [base[key]] with a string key: a [TypeError] on [undefined] and [null];
    on an object its own property, [undefined] when it has none under that
    name and inherits none *)
Definition get (base : Value) (key : string) : option (Completion Value) :=
  match base with
  | V_undefined | V_null => Some (Abrupt TypeError)
  | V_object properties =>
      match lookup key properties with
      | Some v => Some (Normal v)
      | None => if AST.mem key inherited then None else Some (Normal V_undefined)
      end
  | _ => None
  end.

(** [base[index]] with a number as key, for an array and an index that is a
    natural number *)
Definition get_index (base : Value) (index : JsNumber) : option (Completion Value) :=
  match base, index with
  | V_undefined, _ | V_null, _ => Some (Abrupt TypeError)
  | V_array elements, Finite q =>
      if (Number.is_integer q && (0 <=? Qnum q)%Z && (Qnum (Qred q) <? Number.two53)%Z)%bool
      then Some (Normal (nth (Z.to_nat (Qnum (Qred q))) elements V_undefined))
      else None
  | _, _ => None
  end.

(** Modelled from the spec: the value of the path of a [ReferenceNode],
    whose class is not in [src].  A reference "resolves its root name from
    the context then applies each path component in order (field access or
    computed subscript, where the subscript expression is itself evaluated
    against the same context)"; [base] is the value reached so far and
    [evaluate] gives the value of an index expression.  A member access on
    [undefined] or [null] throws. *)
Fixpoint path (evaluate : Node -> option (Completion Value)) (base : Value)
    (components : list (PathComponent Node)) {struct components}
  : option (Completion Value) :=
  match components with
  | [] => Some (Normal base)
  | FieldComponent name :: components' =>
      match get base name with
      | Some (Normal v) => path evaluate v components'
      | other => other
      end
  | SubscriptComponent index :: components' =>
      match evaluate index with
      | Some (Normal (V_string key)) =>
          match get base key with
          | Some (Normal v) => path evaluate v components'
          | other => other
          end
      | Some (Normal (V_number n)) =>
          match get_index base n with
          | Some (Normal v) => path evaluate v components'
          | other => other
          end
      | Some (Normal _) => None
      | other => other
      end
  end.

(** Modelled from the spec: the value of a [ReferenceNode]: the root name is
    looked up in the context, then the path is followed. *)
Definition ReferenceNode_value (evaluate : Node -> option (Completion Value))
    (this : Dictionary) (components : list (PathComponent Node))
  : option (Completion Value) :=
  match components with
  | FieldComponent root :: rest =>
      match get (V_object this) root with
      | Some (Normal v) => path evaluate v rest
      | other => other
      end
  | _ => None
  end.

(** The value of a node: the value JavaScript gives to the text of
    [compile()] with [this] bound to the context.  The text puts every
    operand between parentheses, so the value follows the tree: the
    operands of an operator are evaluated from left to right, an operand
    that throws ends the evaluation, and the operator is applied to the two
    values.  The text of [VariableNode], [BindNode] and [PipeNode] reads
    global names and calls functions, which are not modelled. *)
Fixpoint evaluate (this : Dictionary) (node : Node) {struct node} : option (Completion Value) :=
  match node with
  | LiteralNode value =>
      match JSON.stringify value with
      | Some text => option_map Normal (literal text)
      | None => None
      end
  | UnaryNode operator inner =>
      match evaluate this inner with
      | Some (Normal v) => unary operator v
      | other => other
      end
  | BinaryNode operator l r =>
      match evaluate this l with
      | Some (Normal a) =>
          match evaluate this r with
          | Some (Normal b) => binary operator a b
          | other => other
          end
      | other => other
      end
  | ReferenceNode components => ReferenceNode_value (evaluate this) this components
  | _ => None
  end.

End Js.

(* ===================================================================== *)
(** * Parser.ts: [compile] and the safe variants *)
(* ===================================================================== *)

Module Compiled.

(** the diagnostic sink: what [console.error] was called with, oldest
    first *)
Definition Console : Type := list JsError.

(** [CompiledExpression]: called with the context as [this], the function
    returns or throws, and leaves the console as it found it or with more
    lines.  [None]: the evaluation is outside the modelled part. *)
Definition CompiledExpression : Type :=
  Dictionary -> Console -> option (Completion Value * Console).

(** [console.error(e)] *)
Definition console_error (e : JsError) (console : Console) : Console :=
  (console ++ [e])%list.

(** [return c(EXPRESSION);]: the expression is evaluated, then the
    conversion [c] is applied to its value *)
Definition return_ (c : Value -> option Value) (expression : Node) (this : Dictionary)
  : option (Completion Value) :=
  match Js.evaluate this expression with
  | Some (Normal v) => option_map Normal (c v)
  | other => other
  end.

(** [try { BODY } catch (e) { console.error(e); return DEFAULT; }] *)
Definition try_catch (body : Dictionary -> option (Completion Value)) (default : Value)
  : CompiledExpression :=
  fun this console =>
    match body this with
    | Some (Normal v) => Some (Normal v, console)
    | Some (Abrupt e) => Some (Normal default, console_error e console)
    | None => None
    end.

(** [compile(expression)]: [return(EXPRESSION);] *)
Definition compile (expression : Node) : CompiledExpression :=
  fun this console =>
    option_map (fun c => (c, console)) (return_ Some expression this).

(** [compileSafe(expression)]: the [catch] block has no [return], the
    function then returns [undefined] *)
Definition compileSafe (expression : Node) : CompiledExpression :=
  try_catch (return_ Some expression) V_undefined.

(** [compileSafeBoolean(expression)]: [return !!(EXPRESSION);] *)
Definition compileSafeBoolean (expression : Node) : CompiledExpression :=
  try_catch (return_ (fun v => Some (V_boolean (Js.ToBoolean v))) expression)
            (V_boolean false).

(** [compileSafeInteger(expression)]: [return ~~(EXPRESSION);] *)
Definition compileSafeInteger (expression : Node) : CompiledExpression :=
  try_catch
    (return_ (fun v => option_map (fun n => V_number (Number.of_Z (Js.ToInt32 n)))
                                  (Js.ToNumber v)) expression)
    (V_number (Number.of_Z 0)).

(** [compileSafeNumber(expression)]: [return +(EXPRESSION);] *)
Definition compileSafeNumber (expression : Node) : CompiledExpression :=
  try_catch (return_ (fun v => option_map V_number (Js.ToNumber v)) expression)
            (V_number (Number.of_Z 0)).

(** [compileSafeString(expression)]: [return String(EXPRESSION);] *)
Definition compileSafeString (expression : Node) : CompiledExpression :=
  try_catch (return_ (fun v => option_map V_string (Js.ToString v)) expression)
            (V_string "").

(** [compileSafeCollection(expression)]: [return [].concat(EXPRESSION);] *)
Definition compileSafeCollection (expression : Node) : CompiledExpression :=
  try_catch (return_ (fun v => Some (V_array (Js.concat_into_array v))) expression)
            (V_array []).

(** [compileSafeDictionary(expression)]: [return (EXPRESSION);] *)
Definition compileSafeDictionary (expression : Node) : CompiledExpression :=
  try_catch (return_ Some expression) (V_object []).

End Compiled.

(* ===================================================================== *)
(** * Predicates used by the properties *)
(* ===================================================================== *)

Module Shape.

(** no [PipeNode] and no [BindNode] anywhere in the tree *)
Fixpoint no_pipe_no_bind (node : Node) : bool :=
  match node with
  | LiteralNode _ | VariableNode _ | StaticFragmentNode _ => true
  | UnaryNode _ inner => no_pipe_no_bind inner
  | BinaryNode _ l r => no_pipe_no_bind l && no_pipe_no_bind r
  | BindNode _ _ => false
  | PipeNode _ _ => false
  | ReferenceNode components =>
      forallb (fun c => match c with
                        | FieldComponent _ => true
                        | SubscriptComponent index => no_pipe_no_bind index
                        end) components
  | InterpolatedNode fragments => forallb no_pipe_no_bind fragments
  | CollectionIterationNode _ source => no_pipe_no_bind source
  | DictionaryIterationNode _ _ source => no_pipe_no_bind source
  end.

(** every operator of the precedence table *)
Definition table_operators : list string :=
  concat (map snd Parser._BINARY_OPERATOR_PRECEDENCE_TABLE).

(** every [BinaryNode] of the tree has an operator of the precedence table *)
Fixpoint binary_from_table (node : Node) : bool :=
  match node with
  | LiteralNode _ | VariableNode _ | StaticFragmentNode _ => true
  | UnaryNode _ inner => binary_from_table inner
  | BinaryNode operator l r =>
      Parser.includes operator table_operators && binary_from_table l && binary_from_table r
  | BindNode _ parameters => forallb binary_from_table parameters
  | PipeNode l r => binary_from_table l && binary_from_table r
  | ReferenceNode components =>
      forallb (fun c => match c with
                        | FieldComponent _ => true
                        | SubscriptComponent index => binary_from_table index
                        end) components
  | InterpolatedNode fragments => forallb binary_from_table fragments
  | CollectionIterationNode _ source => binary_from_table source
  | DictionaryIterationNode _ _ source => binary_from_table source
  end.

(** what every node a parser builds satisfies *)
Definition parsed (node : Node) : Prop :=
  no_pipe_no_bind node = true /\ binary_from_table node = true.

Definition parsed_component (c : PathComponent Node) : Prop :=
  match c with
  | FieldComponent _ => True
  | SubscriptComponent index => parsed index
  end.

(** the nodes directly below a node *)
Definition children (node : Node) : list Node :=
  match node with
  | LiteralNode _ | VariableNode _ | StaticFragmentNode _ => []
  | UnaryNode _ inner => [inner]
  | BinaryNode _ l r => [l; r]
  | BindNode _ parameters => parameters
  | PipeNode l r => [l; r]
  | ReferenceNode components =>
      flat_map (fun c => match c with
                         | FieldComponent _ => []
                         | SubscriptComponent index => [index]
                         end) components
  | InterpolatedNode fragments => fragments
  | CollectionIterationNode _ source => [source]
  | DictionaryIterationNode _ _ source => [source]
  end.

(** the name a node reads by itself: a variable its name, a bind node the
    bound name, a reference its root *)
Definition own_names (node : Node) : list string :=
  match node with
  | VariableNode name => [name]
  | BindNode name _ => [name]
  | ReferenceNode (FieldComponent root :: _) => [root]
  | _ => []
  end.

(** The de-duplicated list in the words of the specification: an element is
    kept where it occurs for the first time, later occurrences are dropped,
    the order of what is kept is unchanged. *)
Fixpoint first_occurrences_after (seen l : list string) : list string :=
  match l with
  | [] => []
  | x :: l' =>
      if AST.mem x seen then first_occurrences_after seen l'
      else x :: first_occurrences_after (x :: seen) l'
  end.

Definition first_occurrences (l : list string) : list string :=
  first_occurrences_after [] l.

End Shape.

(** [c] occurs in [s] *)
Fixpoint occurs (c : ascii) (s : string) : bool :=
  match s with
  | EmptyString => false
  | String a s' => (Ascii.eqb c a || occurs c s')%bool
  end.

(** the lexer after [n] calls of [next], when none of them throws *)
Fixpoint advance (n : nat) (lx : Lexer) : option Lexer :=
  match n with
  | O => Some lx
  | S n' =>
      match LexerMethods.next lx with
      | Return _ lx' => advance n' lx'
      | _ => None
      end
  end.

(** the current token, or a token that [next] will make before it throws,
    is a pipe *)
Definition pipe_ahead (lx : Lexer) : Prop :=
  exists n lx', advance n lx = Some lx' /\ _token lx' = T_pipe.

(** the token [end] is only current when no input remains *)
Definition at_end_when_empty (lx : Lexer) : Prop :=
  _token lx = T_end -> _input lx = EmptyString.

(** what remains to be lexed: the characters of the remaining input, and
    one more as long as the token [end] has not been made *)
Definition size (lx : Lexer) : nat :=
  String.length (_input lx) + (if Token_eqb T_end (_token lx) then 0 else 1).

(** neither the current token nor a token that [next] will make is an
    opening parenthesis *)
Definition left_free (lx : Lexer) : Prop :=
  forall n lx', advance n lx = Some lx' -> _token lx' <> T_left.

(** a call that returns has not enlarged what remains to be lexed and
    leaves the lexer free of parentheses *)
Definition within {A} (m : M A) (lx : Lexer) : Prop :=
  match m lx with
  | Return _ lx' => size lx' <= size lx /\ left_free lx'
  | _ => True
  end.

(** From some fuel on, the call [g fuel] ends, and with the same outcome. *)
Definition settles {A} (g : nat -> M A) (lx : Lexer) : Prop :=
  exists enough, g enough lx <> Diverge
                 /\ forall fuel, enough <= fuel -> g fuel lx = g enough lx.

(** the number [z] as a value, and as a literal node *)
Definition number (z : Z) : Value := V_number (Number.of_Z z).
Definition literal_number (z : Z) : Node := LiteralNode (L_number (Number.of_Z z)).

(** the tokens of all the rules of [Lexer.next] whose pattern matches the
    input, in the order of the rules *)
Definition matching_rules (input : string) : list Token :=
  map fst (filter (fun r => match snd r input with Some _ => true | None => false end)
                  LexerMethods.rules).

(** the texts of the four keyword rules *)
Definition keywords : list string := ["undefined"; "true"; "false"; "in"].

(** ** The six typed safe evaluators *)
Module Safe.

Inductive Variant : Type :=
| Boolean | Integer | Number_ | String_ | Collection | Dictionary_.

Definition evaluator (variant : Variant) : Node -> Compiled.CompiledExpression :=
  match variant with
  | Boolean => Compiled.compileSafeBoolean
  | Integer => Compiled.compileSafeInteger
  | Number_ => Compiled.compileSafeNumber
  | String_ => Compiled.compileSafeString
  | Collection => Compiled.compileSafeCollection
  | Dictionary_ => Compiled.compileSafeDictionary
  end.

(** the value each variant returns after a failure *)
Definition default (variant : Variant) : Value :=
  match variant with
  | Boolean => V_boolean false
  | Integer => V_number (Number.of_Z 0)
  | Number_ => V_number (Number.of_Z 0)
  | String_ => V_string ""
  | Collection => V_array []
  | Dictionary_ => V_object []
  end.

(** the type each variant declares for its result: [boolean], a [number]
    that is a 32-bit integer, [number], [string], an array, a
    [Dictionary] *)
Definition declared (variant : Variant) (v : Value) : bool :=
  match variant, v with
  | Boolean, V_boolean _ => true
  | Integer, V_number (Finite q) =>
      (Number.is_integer q && (-2147483648 <=? Qnum (Qred q))%Z
       && (Qnum (Qred q) <=? 2147483647)%Z)%bool
  | Number_, V_number _ => true
  | String_, V_string _ => true
  | Collection, V_array _ => true
  | Dictionary_, V_object _ => true
  | _, _ => false
  end.

(** what each variant does to the value of a successful evaluation:
    [!!v], [~~v], [+v], [String(v)], [[].concat(v)], and for the dictionary
    variant [v] itself *)
Definition conversion (variant : Variant) (v : Value) : option Value :=
  match variant with
  | Boolean => Some (V_boolean (Js.ToBoolean v))
  | Integer => option_map (fun n => V_number (Number.of_Z (Js.ToInt32 n))) (Js.ToNumber v)
  | Number_ => option_map V_number (Js.ToNumber v)
  | String_ => option_map V_string (Js.ToString v)
  | Collection => Some (V_array (Js.concat_into_array v))
  | Dictionary_ => Some v
  end.

End Safe.

(** What holds of a method call on the lexer [lx]: a call that returns
    leaves [originalInput] alone and its value and the lexer after the call
    satisfy [Q]; a call that throws throws [MVC.SyntaxError] with the
    original input, or the error of [JSON.parse]. *)
Definition triple {A} (m : M A) (lx : Lexer) (Q : A -> Lexer -> Prop) : Prop :=
  match m lx with
  | Return a lx' => originalInput lx' = originalInput lx /\ Q a lx'
  | Throw e => e = MVC.SyntaxError (originalInput lx) \/ exists t, e = MVC.JSON_SyntaxError t
  | Diverge => True
  end.

(** the postcondition of the parser's methods: the node is one a parser
    builds *)
Definition built : Node -> Lexer -> Prop := fun node _ => Shape.parsed node.

(** [m'] does what [m] does wherever [m] ends *)
Definition extends {A} (m m' : M A) : Prop :=
  forall lx, m lx <> Diverge -> m' lx = m lx.

(** a pipe is ahead of a lexer that keeps [end] for the empty input *)
Definition ahead (lx : Lexer) : Prop := at_end_when_empty lx /\ pipe_ahead lx.

(** a call that returns leaves the pipe ahead *)
Definition keeps {A} (m : M A) (lx : Lexer) : Prop :=
  match m lx with
  | Return _ lx' => ahead lx'
  | _ => True
  end.

(** a call that does not return *)
Definition never {A} (m : M A) (lx : Lexer) : Prop :=
  match m lx with
  | Return _ _ => False
  | _ => True
  end.

(* ===================================================================== *)
(** * Predicates used by the further properties *)
(* ===================================================================== *)

(** ** The labels of the tokens *)
Module Label.

Import Str.

(** the texts of the three operator patterns of [Lexer.next], in the order
    of their alternatives *)
Definition operators : list string :=
  [ ">>>"; "==="; "!=="; "**"; "<<"; ">>"; "<="; ">="; "=="; "!="; "??"; "&&"; "||";
    "+"; "-"; "*"; "/"; "%"; "<"; ">"; "!" ].

(** a letter or an underscore, then letters, digits and underscores *)
Definition is_identifier (s : string) : bool :=
  match s with
  | String c rest => (is_name_start c && every is_word rest)%bool
  | EmptyString => false
  end.

(** one decimal digit or more *)
Definition is_number (s : string) : bool := (negb (is_empty s) && every is_digit s)%bool.

(** the last character of a string *)
Fixpoint last (s : string) : option ascii :=
  match s with
  | EmptyString => None
  | String c EmptyString => Some c
  | String _ s' => last s'
  end.

(** at least two characters, the first and the last of which are the same
    quote character *)
Definition is_quoted (s : string) : bool :=
  match s with
  | String q (String c rest) =>
      ((Ascii.eqb q double_quote || Ascii.eqb q single_quote)
       && match last (String c rest) with
          | Some l => Ascii.eqb l q
          | None => false
          end)%bool
  | _ => false
  end.

(** what the label of a token of kind [t] is *)
Definition of_kind (t : Token) (label : string) : bool :=
  match t with
  | T_begin => false
  | T_undefined => String.eqb label "undefined"
  | T_true => String.eqb label "true"
  | T_false => String.eqb label "false"
  | T_in => String.eqb label "in"
  | T_name => is_identifier label
  | T_dot => String.eqb label "."
  | T_number => is_number label
  | T_string => is_quoted label
  | T_operator => existsb (String.eqb label) operators
  | T_comma => String.eqb label ","
  | T_left => String.eqb label "("
  | T_right => String.eqb label ")"
  | T_left_square => String.eqb label "["
  | T_right_square => String.eqb label "]"
  | T_pipe => String.eqb label "|"
  | T_end => String.eqb label ""
  end.

End Label.

(** ** The trees of the three entry points *)
Module Grammar.

(** the operators [_parseUnaryNode] accepts *)
Definition unary_operators : list string := ["+"; "-"; "!"].

(** What [parse] builds: literals; unary nodes with one of the three unary
    operators; binary nodes with an operator of the precedence table;
    references whose path is a field component with an identifier, the
    root, followed by subscript components only. *)
Fixpoint expression (node : Node) : bool :=
  match node with
  | LiteralNode _ => true
  | UnaryNode operator inner =>
      (Parser.includes operator unary_operators && expression inner)%bool
  | BinaryNode operator l r =>
      (Parser.includes operator Shape.table_operators && expression l && expression r)%bool
  | ReferenceNode (FieldComponent root :: rest) =>
      (Label.is_identifier root
       && forallb (fun c => match c with
                            | FieldComponent _ => false
                            | SubscriptComponent index => expression index
                            end) rest)%bool
  | _ => false
  end.

(** the path of such a reference *)
Definition path (components : list (PathComponent Node)) : bool :=
  expression (ReferenceNode components).

(** What [interpolate] gathers: a static fragment, then any number of
    times an expression and a static fragment. *)
Fixpoint alternating (fragments : list Node) : bool :=
  match fragments with
  | StaticFragmentNode _ :: rest =>
      match rest with
      | [] => true
      | region :: rest' => (expression region && alternating rest')%bool
      end
  | _ => false
  end.

Definition template (node : Node) : bool :=
  match node with
  | InterpolatedNode fragments => alternating fragments
  | _ => false
  end.

(** What [parseIteration] builds: an iteration node whose names are
    identifiers and whose source is an expression. *)
Definition iteration (node : Node) : bool :=
  match node with
  | CollectionIterationNode name source =>
      (Label.is_identifier name && expression source)%bool
  | DictionaryIterationNode keyName valueName source =>
      (Label.is_identifier keyName && Label.is_identifier valueName && expression source)%bool
  | _ => false
  end.

End Grammar.

(** the label of the lexer is one of the kind of its token *)
Definition consistent (lx : Lexer) : Prop := Label.of_kind (_token lx) (_label lx) = true.

(** the postcondition of the parser's methods on a consistent lexer *)
Definition grammatical : Node -> Lexer -> Prop :=
  fun node lx => Grammar.expression node = true /\ consistent lx.

(** * Tokens the parser never reads past *)

(** the current token, or a token that [next] will make before it throws,
    is [u] *)
Definition token_ahead (u : Token) (lx : Lexer) : Prop :=
  exists n lx', advance n lx = Some lx' /\ _token lx' = u.

(** [u] is ahead of a lexer that keeps [end] for the empty input *)
Definition ahead_of (u : Token) (lx : Lexer) : Prop :=
  at_end_when_empty lx /\ token_ahead u lx.

(** a call that returns leaves [u] ahead *)
Definition keeps_ahead (u : Token) {A} (m : M A) (lx : Lexer) : Prop :=
  match m lx with
  | Return _ lx' => ahead_of u lx'
  | _ => True
  end.

(** the tokens at which no method under [Parser.parse] advances the lexer *)
Definition unread : list Token := [T_dot; T_comma; T_left; T_pipe].

(** ** Two lexers that differ in their original input only *)

(** the same remaining input, token and label *)
Definition same_state (a b : Lexer) : Prop :=
  _input a = _input b /\ _token a = _token b /\ _label a = _label b.

(** The outcomes of one method on the lexers [lx] and [ly]: the same value
    and the same state after the call, each lexer keeping its original
    input; or two syntax errors, each with the original input of its lexer;
    or the same error of [JSON.parse]; or no end on both. *)
Definition alike {A} (lx ly : Lexer) (x y : Outcome A) : Prop :=
  match x, y with
  | Return a lx', Return b ly' =>
      a = b /\ same_state lx' ly'
      /\ originalInput lx' = originalInput lx /\ originalInput ly' = originalInput ly
  | Throw e1, Throw e2 =>
      (e1 = MVC.SyntaxError (originalInput lx) /\ e2 = MVC.SyntaxError (originalInput ly))
      \/ (exists t, e1 = MVC.JSON_SyntaxError t /\ e2 = MVC.JSON_SyntaxError t)
  | Diverge, Diverge => True
  | _, _ => False
  end.

(** a method that does not look at the original input, except to throw it *)
Definition uniform {A} (m : M A) : Prop :=
  forall lx ly, same_state lx ly -> alike lx ly (m lx) (m ly).

(** ** Texts for [interpolate] *)

(** every opening brace of [s] is followed by a character, which is not an
    opening brace: no region is opened in [s], and [s] does not end with an
    opening brace *)
Fixpoint lone_braces (s : string) : bool :=
  match s with
  | EmptyString => true
  | String c rest =>
      if Ascii.eqb Interpolation.open_brace c then
        match rest with
        | EmptyString => false
        | String d rest' => (negb (Ascii.eqb Interpolation.open_brace d) && lone_braces rest')%bool
        end
      else lone_braces rest
  end.

(** ** Common.ts: [flatten] *)

(** [flatten(...elements)]: [array.concat(...elements)] on an empty
    [array] appends the elements of every argument that is an array and
    every other argument as it is. *)
Definition flatten (elements : list Value) : list Value :=
  flat_map Js.concat_into_array elements.

(** no array among the values *)
Definition no_array (elements : list Value) : bool :=
  forallb (fun v => match v with V_array _ => false | _ => true end) elements.

(** ** The string literals that the string patterns match *)

(** every character of [cs] followed by a backslash and the quote [q]:
    what the group of a string pattern repeats *)
Fixpoint escaped_pairs (q : ascii) (cs : string) : string :=
  match cs with
  | EmptyString => EmptyString
  | String c cs' => String c (String "\" (String q (escaped_pairs q cs')))
  end.

(** every character of [cs] followed by the quote [q] *)
Fixpoint quote_pairs (q : ascii) (cs : string) : string :=
  match cs with
  | EmptyString => EmptyString
  | String c cs' => String c (String q (quote_pairs q cs'))
  end.

(** a character that stands for itself in a JSON string: no control
    character, no double quote, no backslash *)
Definition plain_char (c : ascii) : bool :=
  ((32 <=? Str.code c)%nat && negb (Str.code c =? 34)%nat && negb (Str.code c =? 92)%nat)%bool.

(** ** The outcome of a call that ends *)

(** From some fuel on, the call [g fuel] on [lx] has the outcome [o]. *)
Definition gives {A} (g : nat -> M A) (lx : Lexer) (o : Outcome A) : Prop :=
  exists enough, forall fuel, enough <= fuel -> g fuel lx = o.


(** the node that [_parseValue] makes of one token and its label: a literal,
    or the reference with the one field of a name that no component follows *)
Definition atom (token : Token) (label : string) : option Node :=
  match token with
  | T_undefined => Some (LiteralNode L_undefined)
  | T_true => Some (LiteralNode (L_boolean true))
  | T_false => Some (LiteralNode (L_boolean false))
  | T_number => Some (LiteralNode (L_number (Number.parseFloat label)))
  | T_string =>
      match JSON.parse label with
      | Some s => Some (LiteralNode (L_string s))
      | None => None
      end
  | T_name => Some (ReferenceNode [FieldComponent label])
  | _ => None
  end.

(** the current token of [lx] and its label are the first of [ts], and
    [next] makes the following ones, one call each *)
Fixpoint reads (lx : Lexer) (ts : list (Token * string)) : Prop :=
  match ts with
  | [] => True
  | (t, l) :: ts' =>
      _token lx = t /\ _label lx = l
      /\ match ts' with
         | [] => True
         | (t', _) :: _ => exists lx', LexerMethods.next lx = Return t' lx' /\ reads lx' ts'
         end
  end.

(** the node of an operand that is written without a parenthesis and
    without a component: one token with an [atom], or such an operand after
    one of the operators of [_parseUnaryNode] *)
Fixpoint operand (ts : list (Token * string)) : option Node :=
  match ts with
  | [] => None
  | (t, l) :: ts' =>
      match ts' with
      | [] => atom t l
      | _ :: _ =>
          if (Token_eqb T_operator t && Parser.includes l ["+"; "-"; "!"])%bool
          then option_map (UnaryNode l) (operand ts')
          else None
      end
  end.

(* ===================================================================== *)
(** * Properties of the lexer *)
(* ===================================================================== *)

Lemma Token_eqb_eq (a b : Token) : Token_eqb a b = true <-> a = b.
Proof. destruct a, b; simpl; split; intro H; try reflexivity; discriminate H. Qed.

Section LexerFacts.

Import LexerMethods.

Lemma _read_originalInput pattern lx label lx' :
  _read pattern lx = Some (label, lx') ->
  originalInput lx' = originalInput lx /\ _token lx' = _token lx /\ _label lx' = _label lx.
Proof.
  unfold _read. destruct (pattern (_input lx)); intro H; [| discriminate H].
  injection H as <- <-. simpl. auto.
Qed.

Lemma _match_spec token pattern lx lx' :
  _match token pattern lx = Some lx' ->
  originalInput lx' = originalInput lx /\ _token lx' = token.
Proof.
  unfold _match. destruct (_read pattern lx) as [[label lx1] |] eqn:E; intro H; [| discriminate H].
  apply _read_originalInput in E. destruct E as (E & _ & _).
  injection H as <-. simpl. auto.
Qed.

Lemma first_match_originalInput rs lx lx' :
  first_match rs lx = Some lx' -> originalInput lx' = originalInput lx.
Proof.
  induction rs as [| [token pattern] rs IH]; simpl; intro H; [discriminate H |].
  destruct (_match token pattern lx) as [lx1 |] eqn:E.
  - injection H as <-. apply _match_spec in E. tauto.
  - auto.
Qed.

Lemma next_switch_spec lx :
  match next_switch lx with
  | Return t lx' => originalInput lx' = originalInput lx /\ t = _token lx'
  | Throw e => e = MVC.SyntaxError (originalInput lx)
  | Diverge => False
  end.
Proof.
  unfold next_switch. destruct (first_match rules lx) as [lx' |] eqn:E; [| reflexivity].
  apply first_match_originalInput in E. auto.
Qed.

(** [next] returns the token it made current, or throws the syntax error of
    the original input; it always ends. *)
Lemma next_spec lx :
  match next lx with
  | Return t lx' => originalInput lx' = originalInput lx /\ t = _token lx'
  | Throw e => e = MVC.SyntaxError (originalInput lx)
  | Diverge => False
  end.
Proof.
  unfold next.
  destruct (Str.is_empty (_input lx)); [simpl; auto |].
  destruct (_read RegExp.spaces lx) as [[label lx1] |] eqn:E.
  - apply _read_originalInput in E. destruct E as (E & _ & _).
    destruct (Str.is_empty (_input lx1)); [simpl; auto |].
    pose proof (next_switch_spec lx1) as H.
    destruct (next_switch lx1); try rewrite <- E; exact H.
  - apply next_switch_spec.
Qed.

Lemma take_while_taken p s :
  Str.take_while p (Str.substr (String.length (Str.take_while p s)) s) = "".
Proof.
  induction s as [| a s IH]; simpl; [reflexivity |].
  destruct (p a) eqn:Ea; simpl.
  - exact IH.
  - rewrite Ea. reflexivity.
Qed.

(** After [/^\s+/] has been read, the remaining input does not start with
    white space: the second call of [next] finds nothing to skip. *)
Lemma spaces_taken lx label lx' :
  _read RegExp.spaces lx = Some (label, lx') -> RegExp.spaces (_input lx') = None.
Proof.
  unfold _read, RegExp.spaces.
  destruct (Str.take_while Str.is_space (_input lx)) as [| c m] eqn:E; intro H; [discriminate H |].
  pose proof (take_while_taken Str.is_space (_input lx)) as T. rewrite E in T.
  injection H as <- <-. simpl in T |- *. rewrite T. reflexivity.
Qed.

End LexerFacts.

(* ===================================================================== *)
(** * Properties of the parser *)
(* ===================================================================== *)

Section ParserFacts.

Import LexerMethods Parser.

Lemma triple_bind {A B} (m : M A) (k : A -> M B) lx (R : A -> Lexer -> Prop) Q :
  triple m lx R ->
  (forall a lx', originalInput lx' = originalInput lx -> R a lx' -> triple (k a) lx' Q) ->
  triple (bind m k) lx Q.
Proof.
  unfold triple, bind. destruct (m lx) as [a lx' | e |]; auto.
  intros [E HR] Hk. specialize (Hk a lx' E HR).
  destruct (k a lx') as [b lx'' | e |]; auto.
  - destruct Hk as [E' HQ]. split; [congruence | exact HQ].
  - rewrite <- E. exact Hk.
Qed.

Lemma triple_ret {A} (a : A) lx (Q : A -> Lexer -> Prop) : Q a lx -> triple (ret a) lx Q.
Proof. unfold triple, ret. auto. Qed.

Lemma triple_get_token {B} (k : Token -> M B) lx Q :
  triple (k (_token lx)) lx Q -> triple (bind get_token k) lx Q.
Proof. intro H. exact H. Qed.

Lemma triple_get_label {B} (k : string -> M B) lx Q :
  triple (k (_label lx)) lx Q -> triple (bind get_label k) lx Q.
Proof. intro H. exact H. Qed.

Lemma triple_throw_input {B} lx (Q : B -> Lexer -> Prop) :
  triple (bind get_input (fun input => throw (MVC.SyntaxError input))) lx Q.
Proof. unfold triple, bind, get_input, throw. auto. Qed.

Lemma triple_diverge {B} lx (Q : B -> Lexer -> Prop) : triple diverge lx Q.
Proof. exact I. Qed.

Lemma triple_next lx : triple next lx (fun t lx' => t = _token lx').
Proof.
  unfold triple. pose proof (next_spec lx) as H.
  destruct (next lx); [exact H | auto | exact I].
Qed.

Lemma triple_step lx : triple step lx (fun l _ => l = _label lx).
Proof.
  unfold step. apply triple_get_label.
  eapply triple_bind; [apply triple_next |].
  intros t lx' _ _. apply triple_ret. reflexivity.
Qed.

Lemma triple_expect tokens lx :
  triple (expect tokens) lx
         (fun l _ => l = _label lx /\ existsb (Token_eqb (_token lx)) tokens = true).
Proof.
  unfold triple, expect.
  destruct (existsb (Token_eqb (_token lx)) tokens) eqn:E; [| auto].
  pose proof (triple_step lx) as H. unfold triple in H.
  destruct (step lx); auto. destruct H. auto.
Qed.

Lemma triple_parseStringLiteral label lx :
  triple (_parseStringLiteral label) lx (fun _ _ => True).
Proof.
  unfold triple, _parseStringLiteral.
  destruct (JSON.parse label); simpl; eauto.
Qed.

Lemma parsed_reference components :
  Forall Shape.parsed_component components -> Shape.parsed (ReferenceNode components).
Proof.
  unfold Shape.parsed. simpl.
  induction 1 as [| c cs Hc _ IH]; simpl; [auto |].
  destruct IH as [IH1 IH2]. rewrite IH1, IH2.
  destruct c as [name | index]; simpl; [auto |].
  destruct Hc as [H1 H2]. rewrite H1, H2. auto.
Qed.

Lemma parsed_binary operator l r :
  includes operator Shape.table_operators = true ->
  Shape.parsed l -> Shape.parsed r -> Shape.parsed (BinaryNode operator l r).
Proof.
  unfold Shape.parsed. simpl. intros -> [-> ->] [-> ->]. auto.
Qed.

Lemma includes_In x l : includes x l = true <-> In x l.
Proof.
  unfold includes. rewrite existsb_exists. split.
  - intros (y & Hy & E). apply String.eqb_eq in E. subst. exact Hy.
  - intro H. exists x. split; [exact H | apply String.eqb_refl].
Qed.

(** the operators of a level of the table are operators of the table *)
Lemma level_in_table idx leftAssociative operators x :
  nth_error _BINARY_OPERATOR_PRECEDENCE_TABLE idx = Some (leftAssociative, operators) ->
  includes x operators = true -> includes x Shape.table_operators = true.
Proof.
  intros Hn Hx. apply includes_In. apply includes_In in Hx.
  unfold Shape.table_operators. apply in_concat. exists operators. split; [| exact Hx].
  apply nth_error_In in Hn. apply (in_map snd) in Hn. exact Hn.
Qed.

(** Every method of the parser: its errors are the syntax error of the
    original input or the error of [JSON.parse], and the node it returns has
    no pipe and no bind node and only the binary operators of the table. *)
Lemma parser_invariant fuel :
  (forall components lx, Forall Shape.parsed_component components ->
     triple (_parseReferenceComponents fuel components) lx built)
  /\ (forall lx, triple (_parseReference fuel) lx built)
  /\ (forall lx, triple (_parseValue fuel) lx built)
  /\ (forall lx, triple (_parseUnaryNode fuel) lx built)
  /\ (forall idx lx, triple (_parseBinaryNode fuel idx) lx built)
  /\ (forall idx operators node lx,
        (forall x, includes x operators = true -> includes x Shape.table_operators = true) ->
        Shape.parsed node ->
        triple (_parseBinaryNode_while fuel idx operators node) lx built)
  /\ (forall lx, triple (_parseRoot fuel) lx built).
Proof.
  induction fuel as [| fuel IH].
  { repeat split; intros; exact I. }
  destruct IH as (IHcomponents & IHreference & IHvalue & IHunary & IHbinary & IHwhile & IHroot).
  repeat split.
  - (* _parseReferenceComponents *)
    intros components lx Hcs. cbn [_parseReferenceComponents].
    apply triple_get_token.
    destruct (_token lx);
      try (apply triple_ret; apply parsed_reference; exact Hcs).
    + eapply triple_bind; [apply triple_expect |].
      intros label lx' _ _. apply IHcomponents.
      apply Forall_app. split; [exact Hcs | apply Forall_cons; [exact I | apply Forall_nil]].
    + eapply triple_bind; [apply triple_next |].
      intros t lx1 _ _.
      eapply triple_bind; [apply IHroot |].
      intros index lx2 _ Hindex.
      eapply triple_bind; [apply triple_expect |].
      intros l lx3 _ _. apply IHcomponents.
      apply Forall_app. split; [exact Hcs | apply Forall_cons; [exact Hindex | apply Forall_nil]].
  - (* _parseReference *)
    intro lx. cbn [_parseReference].
    eapply triple_bind; [apply triple_expect |].
    intros label lx' _ _. apply IHcomponents. apply Forall_cons; [exact I | apply Forall_nil].
  - (* _parseValue *)
    intro lx. cbn [_parseValue].
    apply triple_get_token.
    destruct (_token lx); try apply IHreference.
    + eapply triple_bind; [apply triple_next |].
      intros. apply triple_ret. split; reflexivity.
    + eapply triple_bind; [apply triple_next |].
      intros. apply triple_ret. split; reflexivity.
    + eapply triple_bind; [apply triple_next |].
      intros. apply triple_ret. split; reflexivity.
    + eapply triple_bind; [apply triple_step |].
      intros. apply triple_ret. split; reflexivity.
    + eapply triple_bind; [apply triple_step |].
      intros label lx1 _ _.
      eapply triple_bind; [apply triple_parseStringLiteral |].
      intros. apply triple_ret. split; reflexivity.
    + eapply triple_bind; [apply IHroot |].
      intros node lx1 _ Hnode.
      eapply triple_bind; [apply triple_expect |].
      intros. apply triple_ret. exact Hnode.
  - (* _parseUnaryNode *)
    intro lx. cbn [_parseUnaryNode].
    apply triple_get_token.
    destruct (negb (Token_eqb T_operator (_token lx))); [apply IHvalue |].
    apply triple_get_label.
    destruct (includes (_label lx) ["+"; "-"; "!"]); [| apply triple_throw_input].
    eapply triple_bind; [apply triple_next |].
    intros t lx1 _ _.
    eapply triple_bind; [apply IHunary |].
    intros inner lx2 _ Hinner. apply triple_ret. exact Hinner.
  - (* _parseBinaryNode *)
    intros idx lx. cbn [_parseBinaryNode].
    destruct (nth_error _BINARY_OPERATOR_PRECEDENCE_TABLE idx)
      as [[leftAssociative operators] |] eqn:Hlevel; [| apply IHunary].
    destruct leftAssociative.
    + eapply triple_bind; [apply IHbinary |].
      intros node lx1 _ Hnode. apply IHwhile; [| exact Hnode].
      intros x. apply (level_in_table _ _ _ _ Hlevel).
    + eapply triple_bind; [apply IHbinary |].
      intros l lx1 _ Hl.
      apply triple_get_token. apply triple_get_label.
      destruct (negb (includes_token (_token lx1) [T_operator; T_in])); simpl orb;
        [apply triple_ret; exact Hl |].
      destruct (includes (_label lx1) operators) eqn:Hop; simpl negb;
        [| apply triple_ret; exact Hl].
      eapply triple_bind; [apply triple_step |].
      intros operator lx2 _ ->.
      eapply triple_bind; [apply IHbinary |].
      intros r lx3 _ Hr. apply triple_ret.
      apply parsed_binary; [apply (level_in_table _ _ _ _ Hlevel Hop) | exact Hl | exact Hr].
  - (* _parseBinaryNode_while *)
    intros idx operators node lx Hops Hnode. cbn [_parseBinaryNode_while].
    apply triple_get_token. apply triple_get_label.
    destruct (includes_token (_token lx) [T_operator; T_in]); simpl andb;
      [| apply triple_ret; exact Hnode].
    destruct (includes (_label lx) operators) eqn:Hop; [| apply triple_ret; exact Hnode].
    eapply triple_bind; [apply triple_step |].
    intros operator lx1 _ ->.
    eapply triple_bind; [apply IHbinary |].
    intros r lx2 _ Hr. apply IHwhile; [exact Hops |].
    apply parsed_binary; [apply Hops; exact Hop | exact Hnode | exact Hr].
  - (* _parseRoot *)
    intro lx. cbn [_parseRoot]. apply IHbinary.
Qed.

End ParserFacts.

Section EntryPoints.

Import LexerMethods.

Lemma triple_parse fuel lx : triple (Parser.parse fuel) lx built.
Proof.
  unfold Parser.parse.
  eapply triple_bind; [apply (parser_invariant fuel) |].
  intros node lx' _ Hnode. unfold triple. destruct (end_ lx'); auto.
Qed.

Lemma triple_parseIteration fuel lx : triple (Parser.parseIteration fuel) lx built.
Proof.
  assert (Hparsed : forall node, Shape.parsed node ->
            forall name, Shape.parsed (CollectionIterationNode name node)) by (intros ? H ?; exact H).
  unfold Parser.parseIteration.
  eapply triple_bind; [apply triple_expect |].
  intros name lx1 _ _. apply triple_get_token.
  destruct (_token lx1); try apply triple_throw_input.
  - eapply triple_bind; [apply triple_next |].
    intros t lx2 _ _. unfold Parser._parseCollectionIteration.
    eapply triple_bind; [apply triple_parse |].
    intros source lx3 _ Hsource. apply triple_ret. exact Hsource.
  - eapply triple_bind; [apply triple_next |].
    intros t lx2 _ _. unfold Parser._parseDictionaryIteration.
    eapply triple_bind; [apply triple_expect |].
    intros valueName lx3 _ _.
    eapply triple_bind; [apply triple_expect |].
    intros l lx4 _ _.
    eapply triple_bind; [apply triple_parse |].
    intros source lx5 _ Hsource. apply triple_ret. exact Hsource.
Qed.

(** What [triple] says of a method run on a fresh parser. *)
Lemma with_Parser_spec (m : M Node) input :
  (forall lx, triple m lx built) ->
  match Expressions.with_Parser input m with
  | Ok node => Shape.parsed node
  | Error e => e = MVC.SyntaxError input \/ exists t, e = MVC.JSON_SyntaxError t
  | Diverges => True
  end.
Proof.
  intro Hm. unfold Expressions.with_Parser, Parser.new_Parser.
  pose proof (next_spec (new_Lexer input)) as Hnext.
  destruct (next (new_Lexer input)) as [t lx | e |]; [| left; exact Hnext | exact I].
  destruct Hnext as [E _]. simpl in E.
  specialize (Hm lx). unfold triple in Hm. rewrite E in Hm.
  destruct (m lx); simpl; [apply Hm | exact Hm | exact I].
Qed.

Lemma parse_spec fuel input :
  match Expressions.parse fuel input with
  | Ok node => Shape.parsed node
  | Error e => e = MVC.SyntaxError input \/ exists t, e = MVC.JSON_SyntaxError t
  | Diverges => True
  end.
Proof. apply with_Parser_spec. apply triple_parse. Qed.

Lemma parseIteration_spec fuel input :
  match Expressions.parseIteration fuel input with
  | Ok node => Shape.parsed node
  | Error e => e = MVC.SyntaxError input \/ exists t, e = MVC.JSON_SyntaxError t
  | Diverges => True
  end.
Proof. apply with_Parser_spec. apply triple_parseIteration. Qed.

Lemma parsed_interpolated fragments :
  Forall Shape.parsed fragments -> Shape.parsed (InterpolatedNode fragments).
Proof.
  unfold Shape.parsed. simpl.
  induction 1 as [| f fs [H1 H2] _ [IH1 IH2]]; simpl; [auto |].
  rewrite H1, H2, IH1, IH2. auto.
Qed.

Lemma scan_spec fuel input rest :
  (forall text fragments node, Forall Shape.parsed fragments ->
     Interpolation.scan_text fuel input rest text fragments = Ok node -> Shape.parsed node)
  /\ (forall text fragments node, Forall Shape.parsed fragments ->
     Interpolation.scan_expression fuel input rest text fragments = Ok node -> Shape.parsed node).
Proof.
  assert (Hstatic : forall fragments text, Forall Shape.parsed fragments ->
            Forall Shape.parsed (fragments ++ [StaticFragmentNode text])%list).
  { intros fragments text H. apply Forall_app. split; [exact H |].
    apply Forall_cons; [split; reflexivity | apply Forall_nil]. }
  enough (H : forall n rest, String.length rest <= n ->
    (forall text fragments node, Forall Shape.parsed fragments ->
       Interpolation.scan_text fuel input rest text fragments = Ok node -> Shape.parsed node)
    /\ (forall text fragments node, Forall Shape.parsed fragments ->
       Interpolation.scan_expression fuel input rest text fragments = Ok node -> Shape.parsed node))
    by (apply (H (String.length rest)); apply Nat.le_refl).
  clear rest. induction n as [| n IH]; intros rest Hlen.
  - destruct rest as [| c rest1]; [| simpl in Hlen; lia].
    split; intros text fragments node Hfs H; cbn [Interpolation.scan_text Interpolation.scan_expression] in H; [| discriminate H].
    injection H as <-. apply parsed_interpolated. apply Hstatic. exact Hfs.
  - destruct rest as [| c rest1].
    { split; intros text fragments node Hfs H; cbn [Interpolation.scan_text Interpolation.scan_expression] in H; [| discriminate H].
      injection H as <-. apply parsed_interpolated. apply Hstatic. exact Hfs. }
    simpl in Hlen. assert (Hlen1 : String.length rest1 <= n) by lia.
    destruct (IH rest1 Hlen1) as [IHtext IHexpression].
    split; intros text fragments node Hfs H; cbn [Interpolation.scan_text Interpolation.scan_expression] in H.
    + destruct (negb (Ascii.eqb Interpolation.open_brace c)); [eapply IHtext; eassumption |].
      destruct rest1 as [| d rest2].
      { injection H as <-. apply parsed_interpolated. apply Hstatic. exact Hfs. }
      simpl in Hlen1. assert (Hlen2 : String.length rest2 <= n) by lia.
      destruct (IH rest2 Hlen2) as [IHtext2 IHexpression2].
      destruct (Ascii.eqb Interpolation.open_brace d).
      * eapply IHexpression2; [| exact H]. apply Hstatic. exact Hfs.
      * eapply IHtext2; eassumption.
    + destruct (negb (Ascii.eqb Interpolation.close_brace c)); [eapply IHexpression; eassumption |].
      destruct rest1 as [| d rest2]; [discriminate H |].
      simpl in Hlen1. assert (Hlen2 : String.length rest2 <= n) by lia.
      destruct (IH rest2 Hlen2) as [IHtext2 IHexpression2].
      destruct (Ascii.eqb Interpolation.close_brace d).
      * pose proof (parse_spec fuel text) as Hp.
        destruct (Expressions.parse fuel text) as [region | e |]; try discriminate H.
        eapply IHtext2; [| exact H]. apply Forall_app. split; [exact Hfs |].
        apply Forall_cons; [exact Hp | apply Forall_nil].
      * eapply IHexpression2; eassumption.
Qed.

Lemma interpolate_spec fuel input node :
  Interpolation.interpolate fuel input = Ok node -> Shape.parsed node.
Proof.
  unfold Interpolation.interpolate. apply (scan_spec fuel input input). apply Forall_nil.
Qed.

(** ** The unbounded recursion at an opening parenthesis

    [_parseValue] calls [_parseRoot] for the token [left] without advancing
    the lexer, so the same token is met again and again: whatever the fuel,
    it is used up. *)
Lemma left_diverges fuel lx :
  _token lx = T_left ->
  Parser._parseValue fuel lx = Diverge
  /\ Parser._parseUnaryNode fuel lx = Diverge
  /\ (forall idx, Parser._parseBinaryNode fuel idx lx = Diverge)
  /\ Parser._parseRoot fuel lx = Diverge.
Proof.
  intro Hleft. induction fuel as [| fuel (IHvalue & IHunary & IHbinary & IHroot)].
  { repeat split. }
  repeat split.
  - cbn [Parser._parseValue]. unfold bind, get_token. rewrite Hleft, IHroot. reflexivity.
  - cbn [Parser._parseUnaryNode]. unfold bind, get_token. rewrite Hleft. simpl. exact IHvalue.
  - intro idx. cbn [Parser._parseBinaryNode].
    destruct (nth_error Parser._BINARY_OPERATOR_PRECEDENCE_TABLE idx)
      as [[[] operators] |]; unfold bind; try rewrite IHbinary; auto.
  - cbn [Parser._parseRoot]. apply IHbinary.
Qed.

(** [parse] on an input whose first token is an opening parenthesis *)
Lemma parse_left_diverges fuel input lx t :
  Parser.new_Parser input = Return t lx -> _token lx = T_left ->
  Expressions.parse fuel input = Diverges.
Proof.
  intros Hnew Hleft. unfold Expressions.parse, Expressions.with_Parser. rewrite Hnew.
  unfold Parser.parse, bind.
  destruct (left_diverges fuel lx Hleft) as (_ & _ & _ & ->). reflexivity.
Qed.

End EntryPoints.

(* ===================================================================== *)
(** * The safe evaluators *)
(* ===================================================================== *)

Section SafeFacts.

Lemma Qred_inject_Z z : Qred (inject_Z z) = inject_Z z.
Proof.
  unfold Qred, inject_Z.
  pose proof (Z.ggcd_gcd z 1) as Hg.
  pose proof (Z.ggcd_correct_divisors z 1) as Hd.
  destruct (Z.ggcd z 1) as [g [aa bb]]. simpl in Hg.
  rewrite Z.gcd_1_r in Hg. subst g. destruct Hd as [Ha Hb].
  rewrite Z.mul_1_l in Ha, Hb. subst aa bb. reflexivity.
Qed.

Lemma wrap32_range z : (-2147483648 <= Js.wrap32 z <= 2147483647)%Z.
Proof.
  unfold Js.wrap32.
  pose proof (Z.mod_pos_bound (z + 2147483648) 4294967296 eq_refl). lia.
Qed.

Lemma wrap32_small z : (-2147483648 <= z <= 2147483647)%Z -> Js.wrap32 z = z.
Proof.
  intro H. unfold Js.wrap32. rewrite Z.mod_small; lia.
Qed.

Lemma ToInt32_range n : (-2147483648 <= Js.ToInt32 n <= 2147483647)%Z.
Proof. destruct n; cbn [Js.ToInt32]; try lia. apply wrap32_range. Qed.

Lemma declared_int32 n :
  Safe.declared Safe.Integer (V_number (Number.of_Z (Js.ToInt32 n))) = true.
Proof.
  unfold Safe.declared, Number.of_Z, Number.is_integer.
  rewrite Qred_inject_Z. simpl.
  pose proof (ToInt32_range n) as [Hlo Hhi].
  apply Z.leb_le in Hlo. apply Z.leb_le in Hhi. rewrite Hlo, Hhi. reflexivity.
Qed.

(** what [try_catch] makes of the three ways its body can end *)
Lemma try_catch_spec body default this console :
  Compiled.try_catch body default this console
  = match body this with
    | Some (Normal v) => Some (Normal v, console)
    | Some (Abrupt e) => Some (Normal default, (console ++ [e])%list)
    | None => None
    end.
Proof. reflexivity. Qed.

Lemma evaluator_spec variant expression this console :
  Safe.evaluator variant expression this console
  = match Js.evaluate this expression with
    | Some (Normal v) =>
        option_map (fun x => (Normal x, console)) (Safe.conversion variant v)
    | Some (Abrupt e) => Some (Normal (Safe.default variant), (console ++ [e])%list)
    | None => None
    end.
Proof.
  destruct variant; cbn [Safe.evaluator Safe.conversion Safe.default];
    unfold Compiled.compileSafeBoolean, Compiled.compileSafeInteger,
      Compiled.compileSafeNumber, Compiled.compileSafeString,
      Compiled.compileSafeCollection, Compiled.compileSafeDictionary;
    rewrite try_catch_spec; unfold Compiled.return_, Compiled.console_error;
    destruct (Js.evaluate this expression) as [[v | e] |]; try reflexivity.
  - destruct (Js.ToNumber v); reflexivity.
  - destruct (Js.ToNumber v); reflexivity.
  - destruct (Js.ToString v); reflexivity.
Qed.

(** The subscript of a name that the context does not bind: the evaluation
    throws, every safe evaluator returns its default, and the console has
    the one error. *)
Example safe_evaluators_on_a_failing_evaluation :
  Expressions.parse 24 "a[0]"
  = Ok (ReferenceNode [FieldComponent "a"; SubscriptComponent (literal_number 0)])
  /\ forall variant,
       Compiled.compile
         (ReferenceNode [FieldComponent "a"; SubscriptComponent (literal_number 0)]) [] []
       = Some (Abrupt TypeError, [])
       /\ Safe.evaluator variant
            (ReferenceNode [FieldComponent "a"; SubscriptComponent (literal_number 0)]) [] []
          = Some (Normal (Safe.default variant), [TypeError]).
Proof.
  split; [reflexivity |]. intro variant. split; [reflexivity |].
  destruct variant; reflexivity.
Qed.

(** A membership test in a number: the evaluation throws. *)
Example in_a_number_throws :
  Expressions.parse 24 "1 in 2" = Ok (BinaryNode "in" (literal_number 1) (literal_number 2))
  /\ Compiled.compile (BinaryNode "in" (literal_number 1) (literal_number 2)) [] []
     = Some (Abrupt TypeError, [])
  /\ Compiled.compileSafeBoolean (BinaryNode "in" (literal_number 1) (literal_number 2)) [] []
     = Some (Normal (V_boolean false), [TypeError]).
Proof. repeat split. Qed.

(** A quotient that is no integer: the integer variant cuts it toward
    zero. *)
Example integer_safe_cuts_toward_zero :
  Expressions.parse 24 "7 / 2" = Ok (BinaryNode "/" (literal_number 7) (literal_number 2))
  /\ Compiled.compile (BinaryNode "/" (literal_number 7) (literal_number 2)) [] []
     = Some (Normal (V_number (Finite (7 # 2))), [])
  /\ Compiled.compileSafeInteger (BinaryNode "/" (literal_number 7) (literal_number 2)) [] []
     = Some (Normal (number 3), [])
  /\ Compiled.compileSafeInteger
       (BinaryNode "/" (UnaryNode "-" (literal_number 7)) (literal_number 2)) [] []
     = Some (Normal (number (-3)), []).
Proof. repeat split. Qed.

End SafeFacts.

(* ===================================================================== *)
(** * Number tokens *)
(* ===================================================================== *)

Section NumberTokens.

Import LexerMethods.

Lemma take_while_every_append p a b :
  Str.every p a = true ->
  Str.take_while p (a ++ b) = (a ++ Str.take_while p b)%string.
Proof.
  induction a as [| c a IH]; simpl; [reflexivity |].
  intro H. apply Bool.andb_true_iff in H. destruct H as [Hc Ha].
  rewrite Hc, (IH Ha). reflexivity.
Qed.

Lemma append_empty (a : string) : (a ++ "")%string = a.
Proof. induction a as [| c a IH]; simpl; [reflexivity | rewrite IH; reflexivity]. Qed.

Lemma substr_length_append a b : Str.substr (String.length a) (a ++ b) = b.
Proof. induction a as [| c a IH]; simpl; [reflexivity | exact IH]. Qed.

(** On an input that starts with a digit, white space and the six rules
    before the number rule do not match. *)
Lemma before_the_number_rule c tail :
  Str.is_digit c = true ->
  RegExp.spaces (String c tail) = None
  /\ RegExp.literal "undefined" (String c tail) = None
  /\ RegExp.literal "true" (String c tail) = None
  /\ RegExp.literal "false" (String c tail) = None
  /\ RegExp.keyword_in (String c tail) = None
  /\ RegExp.identifier (String c tail) = None
  /\ RegExp.literal "." (String c tail) = None.
Proof.
  intro H.
  destruct c as [[] [] [] [] [] [] [] []]; vm_compute in H; try discriminate H;
    repeat split.
Qed.

(** [next] on an input that starts with a run of digits: the token is a
    number, its label the whole run. *)
Lemma next_number original c ds rest token label :
  Str.every Str.is_digit (String c ds) = true ->
  Str.take_while Str.is_digit rest = "" ->
  next (mkLexer original (String c ds ++ rest) token label)
  = Return T_number (mkLexer original rest T_number (String c ds)).
Proof.
  intros Hds Hrest.
  assert (Hc : Str.is_digit c = true).
  { simpl in Hds. apply Bool.andb_true_iff in Hds. tauto. }
  destruct (before_the_number_rule c (ds ++ rest) Hc)
    as (Hspaces & Hundefined & Htrue & Hfalse & Hin & Hname & Hdot).
  assert (Hdigits : RegExp.digits (String c ds ++ rest) = Some (String c ds)).
  { unfold RegExp.digits. rewrite (take_while_every_append _ _ _ Hds), Hrest, append_empty.
    reflexivity. }
  unfold next. cbn [_input append Str.is_empty].
  unfold _read at 1. cbn [_input]. rewrite Hspaces.
  unfold next_switch, rules. cbn [first_match]. unfold _match, _read. cbn [_input].
  change (String c (ds ++ rest)) with (String c ds ++ rest)%string in *.
  rewrite Hundefined, Htrue, Hfalse, Hin, Hname, Hdot, Hdigits.
  cbn [originalInput _input _token _label].
  rewrite substr_length_append. reflexivity.
Qed.

(** the decimal text of a natural number is a non-empty run of digits *)
Lemma decimal_digits n :
  exists c ds, Number.decimal n = String c ds /\ Str.every Str.is_digit (String c ds) = true.
Proof.
  assert (Hall : forall d, Str.every Str.is_digit (NilEmpty.string_of_uint d) = true).
  { induction d; simpl; try reflexivity; exact IHd. }
  unfold Number.decimal.
  destruct (NilEmpty.string_of_uint (N.to_uint n)) as [| c ds] eqn:E.
  - exfalso. destruct n as [| p]; [discriminate E |].
    simpl in E. pose proof (DecimalPos.Unsigned.to_uint_nonnil p) as Hnil.
    destruct (Pos.to_uint p); try discriminate E. apply Hnil. reflexivity.
  - exists c, ds. split; [reflexivity |]. rewrite <- E. apply Hall.
Qed.

Lemma take_while_every p s : Str.every p s = true -> Str.take_while p s = s.
Proof.
  intro H. rewrite <- (append_empty s) at 1.
  rewrite (take_while_every_append _ _ _ H). apply append_empty.
Qed.

Lemma parseFloat_decimal n : Number.parseFloat (Number.decimal n) = Number.of_N n.
Proof.
  destruct (decimal_digits n) as (c & ds & E & Hds).
  unfold Number.parseFloat. rewrite E, (take_while_every _ _ Hds). cbv iota.
  rewrite <- E. unfold Number.decimal. rewrite NilEmpty.usu, DecimalN.Unsigned.of_to.
  reflexivity.
Qed.

End NumberTokens.

Section Literals.

Import LexerMethods.

(** An input that starts with digits followed by a dot: the number rule
    takes the digits, the dot is the next token, every level of the parser
    returns the number, and [parse] finds input left over. *)
Lemma fraction_at_start_is_rejected k c ds rest :
  Str.every Str.is_digit (String c ds) = true ->
  Expressions.parse (24 + k) (String c ds ++ String "." rest)
  = Error (MVC.SyntaxError (String c ds ++ String "." rest)).
Proof.
  intro Hds.
  unfold Expressions.parse, Expressions.with_Parser, Parser.new_Parser, new_Lexer.
  rewrite (next_number _ c ds (String "." rest) T_begin "" Hds eq_refl).
  reflexivity.
Qed.

(** [parse] of the decimal text of a natural number *)
Lemma parse_decimal k n :
  Expressions.parse (24 + k) (Number.decimal n) = Ok (LiteralNode (L_number (Number.of_N n))).
Proof.
  destruct (decimal_digits n) as (c & ds & E & Hds).
  unfold Expressions.parse, Expressions.with_Parser, Parser.new_Parser, new_Lexer.
  rewrite E. rewrite <- (append_empty (String c ds)) at 2.
  rewrite (next_number _ c ds "" T_begin "" Hds eq_refl).
  cbv beta iota.
  replace (Number.of_N n) with (Number.parseFloat (String c ds))
    by (rewrite <- E; apply parseFloat_decimal).
  reflexivity.
Qed.

Lemma stringify_natural n :
  (Z.of_N n < Number.two53)%Z ->
  JSON.stringify (L_number (Number.of_N n)) = Some (Number.decimal n).
Proof.
  intro H. unfold JSON.stringify, Number.of_N. rewrite Qred_inject_Z.
  cbn [inject_Z Qden Qnum Pos.eqb andb].
  rewrite Z.abs_eq by lia.
  apply Z.ltb_lt in H. rewrite H.
  replace (Z.of_N n <? 0)%Z with false by (symmetry; apply Z.ltb_ge; lia).
  rewrite Zabs2N.id. reflexivity.
Qed.

(** a text that starts with a digit is none of the words [undefined],
    [null], [true], [false], and starts with no quote and no minus sign *)
Lemma digit_is_no_word c ds :
  Str.is_digit c = true ->
  String.eqb (String c ds) "undefined" = false
  /\ String.eqb (String c ds) "null" = false
  /\ String.eqb (String c ds) "true" = false
  /\ String.eqb (String c ds) "false" = false
  /\ (Str.code c =? 34)%nat = false
  /\ (Str.code c =? 45)%nat = false.
Proof.
  intro H.
  destruct c as [[] [] [] [] [] [] [] []]; vm_compute in H; try discriminate H;
    repeat split.
Qed.

(** the value of the decimal text of a natural number below [2 ** 53] *)
Lemma literal_decimal n :
  (Z.of_N n < Number.two53)%Z ->
  Js.literal (Number.decimal n) = Some (number (Z.of_N n)).
Proof.
  intro H. destruct (decimal_digits n) as (c & ds & E & Hds).
  assert (Hc : Str.is_digit c = true).
  { simpl in Hds. apply Bool.andb_true_iff in Hds. tauto. }
  destruct (digit_is_no_word c ds Hc) as (H1 & H2 & H3 & H4 & H5 & H6).
  unfold Js.literal. rewrite E, H1, H2, H3, H4, H5, H6.
  rewrite <- E. unfold Number.decimal at 1.
  rewrite NilEmpty.usu, DecimalN.Unsigned.of_to.
  fold (Number.decimal n). rewrite String.eqb_refl.
  apply Z.ltb_lt in H. rewrite H. reflexivity.
Qed.

(** Round trip of an integer literal: the decimal text of [n] is parsed to
    a literal node whose compilation evaluates, with any context, to [n]. *)
Lemma integer_literal_round_trip k n this console :
  (Z.of_N n < Number.two53)%Z ->
  exists node,
    Expressions.parse (24 + k) (Number.decimal n) = Ok node
    /\ AST.compile node = Some (Number.decimal n)
    /\ Compiled.compile node this console = Some (Normal (number (Z.of_N n)), console).
Proof.
  intro H. exists (LiteralNode (L_number (Number.of_N n))).
  split; [apply parse_decimal |]. split; [apply stringify_natural; exact H |].
  unfold Compiled.compile, Compiled.return_. cbn [Js.evaluate].
  rewrite (stringify_natural n H), (literal_decimal n H). reflexivity.
Qed.

End Literals.

(* ===================================================================== *)
(** * Fuel *)
(* ===================================================================== *)

Section Fuel.

Import LexerMethods Parser.

Lemma extends_refl {A} (m : M A) : extends m m.
Proof. intros lx _. reflexivity. Qed.

Lemma extends_diverge {A} (m : M A) : extends diverge m.
Proof. intros lx H. contradiction H. reflexivity. Qed.

Lemma extends_bind {A B} (m m' : M A) (k k' : A -> M B) :
  extends m m' -> (forall a, extends (k a) (k' a)) -> extends (bind m k) (bind m' k').
Proof.
  intros Hm Hk lx H. unfold bind in *.
  destruct (m lx) as [a lx1 | e |] eqn:E.
  - rewrite (Hm lx) by (rewrite E; discriminate). rewrite E. apply Hk. exact H.
  - rewrite (Hm lx) by (rewrite E; discriminate). rewrite E. reflexivity.
  - contradiction H. reflexivity.
Qed.

Lemma extends_bind_same {A B} (m : M A) (k k' : A -> M B) :
  (forall a, extends (k a) (k' a)) -> extends (bind m k) (bind m k').
Proof. intro Hk. apply extends_bind; [apply extends_refl | exact Hk]. Qed.

(** One more unit of fuel changes nothing for a call that ended. *)
Lemma one_more fuel :
  (forall components, extends (_parseReferenceComponents fuel components)
                              (_parseReferenceComponents (S fuel) components))
  /\ extends (_parseReference fuel) (_parseReference (S fuel))
  /\ extends (_parseValue fuel) (_parseValue (S fuel))
  /\ extends (_parseUnaryNode fuel) (_parseUnaryNode (S fuel))
  /\ (forall idx, extends (_parseBinaryNode fuel idx) (_parseBinaryNode (S fuel) idx))
  /\ (forall idx operators node,
        extends (_parseBinaryNode_while fuel idx operators node)
                (_parseBinaryNode_while (S fuel) idx operators node))
  /\ extends (_parseRoot fuel) (_parseRoot (S fuel)).
Proof.
  induction fuel as [| fuel IH].
  { repeat split; intros; apply extends_diverge. }
  destruct IH as (IHcomponents & IHreference & IHvalue & IHunary & IHbinary & IHwhile & IHroot).
  remember (S fuel) as fuel1 eqn:Hfuel1 in *.
  repeat split; intros.
  - cbn [_parseReferenceComponents]. rewrite Hfuel1 at 1. cbn [_parseReferenceComponents].
    apply extends_bind_same. intro token.
    destruct token; try apply extends_refl.
    + apply extends_bind_same. intro. apply IHcomponents.
    + apply extends_bind_same. intro.
      apply extends_bind; [apply IHroot |]. intro.
      apply extends_bind_same. intro. apply IHcomponents.
  - cbn [_parseReference]. rewrite Hfuel1 at 1. cbn [_parseReference].
    apply extends_bind_same. intro. apply IHcomponents.
  - cbn [_parseValue]. rewrite Hfuel1 at 1. cbn [_parseValue].
    apply extends_bind_same. intro token.
    destruct token; try apply extends_refl; try apply IHreference.
    apply extends_bind; [apply IHroot |]. intro. apply extends_refl.
  - cbn [_parseUnaryNode]. rewrite Hfuel1 at 1. cbn [_parseUnaryNode].
    apply extends_bind_same. intro token.
    destruct (negb (Token_eqb T_operator token)); [apply IHvalue |].
    apply extends_bind_same. intro operator.
    destruct (includes operator ["+"; "-"; "!"]); [| apply extends_refl].
    apply extends_bind_same. intro.
    apply extends_bind; [apply IHunary |]. intro. apply extends_refl.
  - cbn [_parseBinaryNode]. rewrite Hfuel1 at 1. cbn [_parseBinaryNode].
    destruct (nth_error _BINARY_OPERATOR_PRECEDENCE_TABLE idx) as [[[] operators] |];
      [| | apply IHunary].
    + apply extends_bind; [apply IHbinary |]. intro. apply IHwhile.
    + apply extends_bind; [apply IHbinary |]. intro.
      apply extends_bind_same. intro token. apply extends_bind_same. intro label.
      destruct (negb (includes_token token [T_operator; T_in]) || negb (includes label operators))%bool;
        [apply extends_refl |].
      apply extends_bind_same. intro.
      apply extends_bind; [apply IHbinary |]. intro. apply extends_refl.
  - cbn [_parseBinaryNode_while]. rewrite Hfuel1 at 1. cbn [_parseBinaryNode_while].
    apply extends_bind_same. intro token. apply extends_bind_same. intro label.
    destruct (includes_token token [T_operator; T_in] && includes label operators)%bool;
      [| apply extends_refl].
    apply extends_bind_same. intro.
    apply extends_bind; [apply IHbinary |]. intro. apply IHwhile.
  - cbn [_parseRoot]. rewrite Hfuel1 at 1. cbn [_parseRoot]. apply IHbinary.
Qed.

Lemma parse_one_more fuel : extends (Parser.parse fuel) (Parser.parse (S fuel)).
Proof.
  unfold Parser.parse. apply extends_bind; [apply (one_more fuel) |].
  intro. apply extends_refl.
Qed.

(** A parse that ended gives the same result with any larger fuel: the
    result of [parse] does not depend on the fuel once it is enough. *)
Lemma parse_more_fuel fuel k input :
  Expressions.parse fuel input <> Diverges ->
  Expressions.parse (fuel + k) input = Expressions.parse fuel input.
Proof.
  intro H. induction k as [| k IH].
  - rewrite Nat.add_0_r. reflexivity.
  - rewrite Nat.add_succ_r, <- IH.
    revert H. rewrite <- IH. clear IH.
    unfold Expressions.parse, Expressions.with_Parser.
    destruct (new_Parser input) as [t lx | e |]; try reflexivity.
    intro H. rewrite (parse_one_more (fuel + k) lx); [reflexivity |].
    intro E. apply H. rewrite E. reflexivity.
Qed.

(** Two runs of [parse] that end agree, whatever their fuel. *)
Lemma parse_deterministic fuel fuel' input :
  Expressions.parse fuel input <> Diverges ->
  Expressions.parse fuel' input <> Diverges ->
  Expressions.parse fuel input = Expressions.parse fuel' input.
Proof.
  intros H H'. destruct (Nat.le_ge_cases fuel fuel') as [Hle | Hle].
  - rewrite <- (parse_more_fuel fuel (fuel' - fuel) input H).
    f_equal. lia.
  - rewrite <- (parse_more_fuel fuel' (fuel - fuel') input H').
    f_equal. lia.
Qed.

End Fuel.

(* ===================================================================== *)
(** * A pipe token is never consumed *)
(* ===================================================================== *)

Section Pipe.

Import LexerMethods Parser.

Lemma first_match_token rs lx lx' :
  first_match rs lx = Some lx' -> In (_token lx') (map fst rs).
Proof.
  induction rs as [| [token pattern] rs IH]; simpl; intro H; [discriminate H |].
  destruct (_match token pattern lx) as [lx1 |] eqn:E.
  - injection H as <-. apply _match_spec in E. left. symmetry. apply E.
  - right. apply IH. exact H.
Qed.

Lemma next_at_end_when_empty lx t lx' :
  next lx = Return t lx' -> at_end_when_empty lx'.
Proof.
  assert (Hswitch : forall l l', next_switch l = Return t l' -> at_end_when_empty l').
  { intros l l'. unfold next_switch.
    destruct (first_match rules l) as [l1 |] eqn:E; [| discriminate].
    intro H. injection H as _ <-. apply first_match_token in E.
    intro Hend. rewrite Hend in E. simpl in E.
    repeat (destruct E as [E | E]; [discriminate E |]). contradiction E. }
  unfold next.
  destruct (Str.is_empty (_input lx)) eqn:Hempty.
  - intro H. injection H as _ <-. intros _. simpl.
    destruct (_input lx); [reflexivity | discriminate Hempty].
  - destruct (_read RegExp.spaces lx) as [[label lx1] |]; [| apply Hswitch].
    destruct (Str.is_empty (_input lx1)) eqn:Hempty1; [| apply Hswitch].
    intro H. injection H as _ <-. intros _. simpl.
    destruct (_input lx1); [reflexivity | discriminate Hempty1].
Qed.

(** at the end of the input no pipe is ahead *)
Lemma no_pipe_at_end lx : at_end_when_empty lx -> _token lx = T_end -> ~ pipe_ahead lx.
Proof.
  intros Hwf Hend (n & lx' & Hadvance & Hpipe). revert lx Hwf Hend Hadvance.
  induction n as [| n IH]; intros lx Hwf Hend Hadvance.
  - injection Hadvance as <-. rewrite Hend in Hpipe. discriminate Hpipe.
  - simpl in Hadvance. destruct (next lx) as [t lx1 | |] eqn:E; try discriminate Hadvance.
    refine (IH lx1 (next_at_end_when_empty _ _ _ E) _ Hadvance).
    unfold next in E. rewrite (Hwf Hend) in E. simpl in E. injection E as _ <-. reflexivity.
Qed.

Lemma keeps_next lx : ahead lx -> _token lx <> T_pipe -> keeps next lx.
Proof.
  intros [_ (n & lx' & Hadvance & Hpipe)] Htoken. unfold keeps.
  destruct n as [| n].
  { injection Hadvance as <-. contradiction. }
  simpl in Hadvance. destruct (next lx) as [t lx1 | |] eqn:E; try exact I.
  split; [apply (next_at_end_when_empty _ _ _ E) |]. exists n, lx'. auto.
Qed.

Lemma keeps_bind {A B} (m : M A) (k : A -> M B) lx :
  keeps m lx -> (forall a lx', ahead lx' -> keeps (k a) lx') -> keeps (bind m k) lx.
Proof.
  unfold keeps, bind. destruct (m lx) as [a lx1 | e |]; [| intros; exact I | intros; exact I].
  intros H Hk. apply (Hk a lx1 H).
Qed.

Lemma keeps_ret {A} (a : A) lx : ahead lx -> keeps (ret a) lx.
Proof. intro H. exact H. Qed.

Lemma keeps_get_token {B} (k : Token -> M B) lx :
  keeps (k (_token lx)) lx -> keeps (bind get_token k) lx.
Proof. intro H. exact H. Qed.

Lemma keeps_get_label {B} (k : string -> M B) lx :
  keeps (k (_label lx)) lx -> keeps (bind get_label k) lx.
Proof. intro H. exact H. Qed.

Lemma keeps_step lx : ahead lx -> _token lx <> T_pipe -> keeps step lx.
Proof.
  intros H Htoken. unfold step. apply keeps_get_label.
  apply keeps_bind; [apply keeps_next; assumption |].
  intros _ lx' H'. apply keeps_ret. exact H'.
Qed.

Lemma keeps_expect tokens lx :
  ahead lx -> existsb (Token_eqb T_pipe) tokens = false -> keeps (expect tokens) lx.
Proof.
  intros H Htokens. unfold keeps, expect.
  destruct (existsb (Token_eqb (_token lx)) tokens) eqn:E; [| exact I].
  apply keeps_step; [exact H |]. intro Hpipe. rewrite Hpipe, Htokens in E. discriminate E.
Qed.

Lemma keeps_throw_input {B} lx :
  keeps (bind get_input (fun input => @throw B (MVC.SyntaxError input))) lx.
Proof. exact I. Qed.

Ltac token_is_no_pipe :=
  match goal with
  | H : _token ?lx = _ |- _token ?lx <> T_pipe => rewrite H; discriminate
  end.

(** No method of the parser advances the lexer past a pipe token. *)
Lemma pipe_stays_ahead fuel :
  (forall components lx, ahead lx -> keeps (_parseReferenceComponents fuel components) lx)
  /\ (forall lx, ahead lx -> keeps (_parseReference fuel) lx)
  /\ (forall lx, ahead lx -> keeps (_parseValue fuel) lx)
  /\ (forall lx, ahead lx -> keeps (_parseUnaryNode fuel) lx)
  /\ (forall idx lx, ahead lx -> keeps (_parseBinaryNode fuel idx) lx)
  /\ (forall idx operators node lx,
        ahead lx -> keeps (_parseBinaryNode_while fuel idx operators node) lx)
  /\ (forall lx, ahead lx -> keeps (_parseRoot fuel) lx).
Proof.
  induction fuel as [| fuel IH].
  { repeat split; intros; exact I. }
  destruct IH as (IHcomponents & IHreference & IHvalue & IHunary & IHbinary & IHwhile & IHroot).
  repeat split.
  - intros components lx H. cbn [_parseReferenceComponents].
    apply keeps_get_token.
    destruct (_token lx) eqn:Htoken; try (apply keeps_ret; exact H).
    + apply keeps_bind; [apply keeps_expect; [exact H | reflexivity] |].
      intros label lx1 H1. apply IHcomponents. exact H1.
    + apply keeps_bind; [apply keeps_next; [exact H | token_is_no_pipe] |].
      intros t lx1 H1.
      apply keeps_bind; [apply IHroot; exact H1 |].
      intros index lx2 H2.
      apply keeps_bind; [apply keeps_expect; [exact H2 | reflexivity] |].
      intros l lx3 H3. apply IHcomponents. exact H3.
  - intros lx H. cbn [_parseReference].
    apply keeps_bind; [apply keeps_expect; [exact H | reflexivity] |].
    intros label lx1 H1. apply IHcomponents. exact H1.
  - intros lx H. cbn [_parseValue].
    apply keeps_get_token.
    destruct (_token lx) eqn:Htoken; try (apply IHreference; exact H).
    + apply keeps_bind; [apply keeps_next; [exact H | token_is_no_pipe] |].
      intros t lx1 H1. apply keeps_ret. exact H1.
    + apply keeps_bind; [apply keeps_next; [exact H | token_is_no_pipe] |].
      intros t lx1 H1. apply keeps_ret. exact H1.
    + apply keeps_bind; [apply keeps_next; [exact H | token_is_no_pipe] |].
      intros t lx1 H1. apply keeps_ret. exact H1.
    + apply keeps_bind; [apply keeps_step; [exact H | token_is_no_pipe] |].
      intros label lx1 H1. apply keeps_ret. exact H1.
    + apply keeps_bind; [apply keeps_step; [exact H | token_is_no_pipe] |].
      intros label lx1 H1. unfold _parseStringLiteral.
      destruct (JSON.parse label); [| exact I].
      apply keeps_bind; [apply keeps_ret; exact H1 |].
      intros s' lx2 H2. apply keeps_ret. exact H2.
    + apply keeps_bind; [apply IHroot; exact H |].
      intros node lx1 H1.
      apply keeps_bind; [apply keeps_expect; [exact H1 | reflexivity] |].
      intros l lx2 H2. apply keeps_ret. exact H2.
  - intros lx H. cbn [_parseUnaryNode].
    apply keeps_get_token.
    destruct (Token_eqb T_operator (_token lx)) eqn:Htoken; cbn [negb];
      [| apply IHvalue; exact H].
    apply Token_eqb_eq in Htoken. symmetry in Htoken.
    apply keeps_get_label.
    destruct (includes (_label lx) ["+"; "-"; "!"]); [| apply keeps_throw_input].
    apply keeps_bind; [apply keeps_next; [exact H | token_is_no_pipe] |].
    intros t lx1 H1.
    apply keeps_bind; [apply IHunary; exact H1 |].
    intros inner lx2 H2. apply keeps_ret. exact H2.
  - intros idx lx H. cbn [_parseBinaryNode].
    destruct (nth_error _BINARY_OPERATOR_PRECEDENCE_TABLE idx) as [[[] operators] |];
      [| | apply IHunary; exact H].
    + apply keeps_bind; [apply IHbinary; exact H |].
      intros node lx1 H1. apply IHwhile. exact H1.
    + apply keeps_bind; [apply IHbinary; exact H |].
      intros l lx1 H1.
      apply keeps_get_token. apply keeps_get_label.
      destruct (includes_token (_token lx1) [T_operator; T_in]) eqn:Htoken; cbn [negb orb];
        [| apply keeps_ret; exact H1].
      destruct (includes (_label lx1) operators); cbn [negb]; [| apply keeps_ret; exact H1].
      apply keeps_bind.
      { apply keeps_step; [exact H1 |]. intro Hpipe. rewrite Hpipe in Htoken. discriminate Htoken. }
      intros operator lx2 H2.
      apply keeps_bind; [apply IHbinary; exact H2 |].
      intros r lx3 H3. apply keeps_ret. exact H3.
  - intros idx operators node lx H. cbn [_parseBinaryNode_while].
    apply keeps_get_token. apply keeps_get_label.
    destruct (includes_token (_token lx) [T_operator; T_in]) eqn:Htoken; cbn [andb];
      [| apply keeps_ret; exact H].
    destruct (includes (_label lx) operators); [| apply keeps_ret; exact H].
    apply keeps_bind.
    { apply keeps_step; [exact H |]. intro Hpipe. rewrite Hpipe in Htoken. discriminate Htoken. }
    intros operator lx1 H1.
    apply keeps_bind; [apply IHbinary; exact H1 |].
    intros r lx2 H2. apply IHwhile. exact H2.
  - intros lx H. cbn [_parseRoot]. apply IHbinary. exact H.
Qed.

Lemma never_bind {A B} (m : M A) (k : A -> M B) lx :
  keeps m lx -> (forall a lx', ahead lx' -> never (k a) lx') -> never (bind m k) lx.
Proof.
  unfold keeps, never, bind. destruct (m lx) as [a lx1 | e |]; [| intros; exact I | intros; exact I].
  intros H Hk. apply (Hk a lx1 H).
Qed.

Lemma never_get_token {B} (k : Token -> M B) lx :
  never (k (_token lx)) lx -> never (bind get_token k) lx.
Proof. intro H. exact H. Qed.

(** With a pipe ahead, [parse()] does not return. *)
Lemma parse_with_pipe_ahead fuel lx : ahead lx -> never (Parser.parse fuel) lx.
Proof.
  intro H. unfold Parser.parse.
  apply never_bind; [apply (pipe_stays_ahead fuel); exact H |].
  intros node lx1 [Hwf Hpipe]. unfold never.
  destruct (end_ lx1) eqn:Hend; [| exact I].
  unfold end_ in Hend. apply Token_eqb_eq in Hend. symmetry in Hend.
  exact (no_pipe_at_end lx1 Hwf Hend Hpipe).
Qed.

Lemma never_first {A B} (m : M A) (k : A -> M B) lx : never m lx -> never (bind m k) lx.
Proof.
  unfold never, bind. destruct (m lx); [intros [] | intros; exact I | intros; exact I].
Qed.

Lemma parseIteration_with_pipe_ahead fuel lx : ahead lx -> never (Parser.parseIteration fuel) lx.
Proof.
  intro H. unfold Parser.parseIteration.
  apply never_bind; [apply keeps_expect; [exact H | reflexivity] |].
  intros name lx1 H1. apply never_get_token.
  destruct (_token lx1) eqn:Htoken; try exact I.
  - apply never_bind; [apply keeps_next; [exact H1 | token_is_no_pipe] |].
    intros t lx2 H2. unfold _parseCollectionIteration.
    apply never_first. apply parse_with_pipe_ahead. exact H2.
  - apply never_bind; [apply keeps_next; [exact H1 | token_is_no_pipe] |].
    intros t lx2 H2. unfold _parseDictionaryIteration.
    apply never_bind; [apply keeps_expect; [exact H2 | reflexivity] |].
    intros valueName lx3 H3.
    apply never_bind; [apply keeps_expect; [exact H3 | reflexivity] |].
    intros l lx4 H4.
    apply never_first. apply parse_with_pipe_ahead. exact H4.
Qed.

(** a pipe among the tokens of [tokenize] is a pipe ahead of the fresh
    lexer *)
Lemma tokens_pipe_ahead n lx label :
  In (T_pipe, label) (fst (tokens_from n lx)) -> pipe_ahead lx.
Proof.
  revert lx. induction n as [| n IH]; intros lx H; [contradiction H |].
  simpl in H. pose proof (next_spec lx) as Hnext.
  destruct (next lx) as [t lx1 | e |] eqn:E; try contradiction H.
  destruct Hnext as [_ Ht].
  assert (Hcons : In (T_pipe, label)
                     (fst (let (ts, e) := tokens_from n lx1 in ((t, _label lx1) :: ts, e))) ->
                  pipe_ahead lx).
  { destruct (tokens_from n lx1) as [ts e] eqn:Ets. simpl. intros [Hhead | Htail].
    - injection Hhead as -> _. exists 1, lx1. simpl. rewrite E. auto.
    - assert (Hin : In (T_pipe, label) (fst (tokens_from n lx1))) by (rewrite Ets; exact Htail).
      destruct (IH lx1 Hin) as (m & lx' & Hadvance & Hpipe).
      exists (S m), lx'. simpl. rewrite E. auto. }
  destruct t; try (apply Hcons; exact H).
  simpl in H. destruct H as [H | []]. discriminate H.
Qed.

(** An input with a pipe among its tokens: [parse] and [parseIteration]
    return no tree, whatever the fuel. *)
Lemma pipe_token_is_never_parsed fuel input label :
  In (T_pipe, label) (fst (tokenize input)) ->
  (forall node, Expressions.parse fuel input <> Ok node)
  /\ (forall node, Expressions.parseIteration fuel input <> Ok node).
Proof.
  intro H. apply tokens_pipe_ahead in H.
  assert (Hnew : forall t lx, new_Parser input = Return t lx -> ahead lx).
  { intros t lx E. unfold new_Parser in E. split; [apply (next_at_end_when_empty _ _ _ E) |].
    destruct H as (n & lx' & Hadvance & Hpipe).
    destruct n as [| n]; [injection Hadvance as <-; discriminate Hpipe |].
    simpl in Hadvance. rewrite E in Hadvance. exists n, lx'. auto. }
  split; intros node; unfold Expressions.parse, Expressions.parseIteration, Expressions.with_Parser;
    destruct (new_Parser input) as [t lx | e |] eqn:E; try discriminate;
    specialize (Hnew t lx eq_refl).
  - pose proof (parse_with_pipe_ahead fuel lx Hnew) as Hp. unfold never in Hp.
    destruct (Parser.parse fuel lx); [contradiction Hp | discriminate | discriminate].
  - pose proof (parseIteration_with_pipe_ahead fuel lx Hnew) as Hp. unfold never in Hp.
    destruct (Parser.parseIteration fuel lx); [contradiction Hp | discriminate | discriminate].
Qed.

End Pipe.


(* ===================================================================== *)
(** * Termination *)
(* ===================================================================== *)

Section Termination.

Import LexerMethods Parser.

Lemma substr_length n s : String.length (Str.substr n s) = String.length s - n.
Proof.
  revert s. induction n as [| n IH]; intro s; simpl; [lia |].
  destruct s as [| c s]; simpl; [reflexivity | apply IH].
Qed.

Lemma first_alternative_In alts s a : RegExp.first_alternative alts s = Some a -> In a alts.
Proof.
  induction alts as [| x alts IH]; simpl; [discriminate |].
  destruct (Str.starts_with x s); [intro H; injection H as <-; auto | auto].
Qed.

Lemma search_In alts s a : RegExp.search alts s = Some a -> In a alts.
Proof.
  induction s as [| c s IH]; simpl.
  - destruct (RegExp.first_alternative alts "") eqn:E; [| discriminate].
    intro H. injection H as <-. apply (first_alternative_In _ _ _ E).
  - destruct (RegExp.first_alternative alts (String c s)) eqn:E; [| exact IH].
    intro H. injection H as <-. apply (first_alternative_In _ _ _ E).
Qed.

Lemma alternation_nonempty anchored others input label :
  1 <= String.length anchored ->
  Forall (fun a => 1 <= String.length a) others ->
  RegExp.alternation anchored others input = Some label -> 1 <= String.length label.
Proof.
  intros Ha Ho. unfold RegExp.alternation.
  destruct (Str.starts_with anchored input).
  - intro H. injection H as <-. exact Ha.
  - intro H. apply search_In in H. rewrite Forall_forall in Ho. apply Ho. exact H.
Qed.

(** every rule of the lexer matches at least one character *)
Lemma rules_nonempty :
  Forall (fun r => forall input label, snd r input = Some label -> 1 <= String.length label)
         rules.
Proof.
  assert (Hliteral : forall lit, 1 <= String.length lit ->
            forall input label, RegExp.literal lit input = Some label -> 1 <= String.length label).
  { intros lit Hlit input label. unfold RegExp.literal.
    destruct (Str.starts_with lit input); [| discriminate]. intro H. injection H as <-. exact Hlit. }
  assert (Hquoted : forall q input label,
            RegExp.quoted q input = Some label -> 1 <= String.length label).
  { intros q input label. unfold RegExp.quoted. destruct input as [| c rest]; [discriminate |].
    destruct (Ascii.eqb c q); [| discriminate].
    destruct (RegExp.quoted_tail q rest); [| discriminate].
    intro H. injection H as <-. simpl. lia. }
  unfold rules. repeat apply Forall_cons; try apply Forall_nil; cbn [snd];
    try (apply Hliteral; simpl; lia); try apply Hquoted.
  - intros input label. unfold RegExp.keyword_in.
    destruct input as [| c [| d rest]]; try discriminate;
      destruct c as [[] [] [] [] [] [] [] []]; try discriminate.
    destruct d as [[] [] [] [] [] [] [] []]; try discriminate.
    destruct rest as [| e rest]; [intro H; injection H as <-; simpl; lia |].
    destruct (Str.is_word e); [discriminate | intro H; injection H as <-; simpl; lia].
  - intros input label. unfold RegExp.identifier. destruct input as [| c rest]; [discriminate |].
    destruct (Str.is_name_start c); [| discriminate]. intro H. injection H as <-. simpl. lia.
  - intros input label. unfold RegExp.digits.
    destruct (Str.take_while Str.is_digit input); [discriminate |].
    intro H. injection H as <-. simpl. lia.
  - intros input label. apply alternation_nonempty; [simpl; lia |].
    repeat apply Forall_cons; try apply Forall_nil; simpl; lia.
  - intros input label. apply alternation_nonempty; [simpl; lia |].
    repeat apply Forall_cons; try apply Forall_nil; simpl; lia.
  - intros input label. apply alternation_nonempty; [simpl; lia |].
    repeat apply Forall_cons; try apply Forall_nil; simpl; lia.
Qed.

(** the switch of [next] shortens a non-empty input and makes a token other
    than [end] *)
Lemma next_switch_size lx t lx' :
  1 <= String.length (_input lx) ->
  next_switch lx = Return t lx' ->
  String.length (_input lx') + 1 <= String.length (_input lx)
  /\ _token lx' <> T_end.
Proof.
  intro Hinput. unfold next_switch.
  destruct (first_match rules lx) as [lx1 |] eqn:E; [| discriminate].
  intro H. injection H as _ <-.
  split.
  - pose proof rules_nonempty as Hrules. revert E.
    induction rules as [| [token pattern] rs IH]; simpl; [discriminate |].
    inversion Hrules as [| ? ? Hr Hrs]; subst.
    unfold _match at 1, _read at 1.
    destruct (pattern (_input lx)) as [label |] eqn:Ep.
    + intro H. injection H as <-. cbn [_input]. rewrite substr_length.
      specialize (Hr (_input lx) label Ep). simpl in Hr. lia.
    + apply IH. exact Hrs.
  - apply first_match_token in E. intro Hend. rewrite Hend in E. simpl in E.
    repeat (destruct E as [E | E]; [discriminate E |]). contradiction E.
Qed.

Lemma is_empty_length s : Str.is_empty s = false -> 1 <= String.length s.
Proof. destruct s; simpl; [discriminate | lia]. Qed.

Lemma size_bounds lx : String.length (_input lx) <= size lx <= String.length (_input lx) + 1.
Proof. unfold size. destruct (Token_eqb T_end (_token lx)); lia. Qed.

Lemma size_not_end lx : _token lx <> T_end -> size lx = String.length (_input lx) + 1.
Proof.
  intro H. unfold size. destruct (Token_eqb T_end (_token lx)) eqn:E; [| reflexivity].
  apply Token_eqb_eq in E. symmetry in E. contradiction.
Qed.

(** [next] never enlarges what remains to be lexed, and makes it smaller
    when the current token is not [end] *)
Lemma next_size lx t lx' :
  next lx = Return t lx' ->
  size lx' <= size lx /\ (_token lx <> T_end -> size lx' < size lx).
Proof.
  unfold next.
  assert (Hend : forall l, size (mkLexer (originalInput l) (_input l) T_end "")
                           = String.length (_input l)) by (intro l; unfold size; simpl; lia).
  assert (Hswitch : forall l l', 1 <= String.length (_input l) ->
            next_switch l = Return t l' -> size l' <= String.length (_input l)).
  { intros l l' Hl Hs. destruct (next_switch_size l t l' Hl Hs) as [Hlen _].
    pose proof (size_bounds l'). lia. }
  destruct (Str.is_empty (_input lx)) eqn:Hempty.
  - intro H. injection H as _ <-. rewrite Hend.
    destruct (_input lx); [| discriminate Hempty].
    split; [simpl; lia |]. intro Hne. rewrite (size_not_end lx Hne). simpl. lia.
  - apply is_empty_length in Hempty.
    destruct (_read RegExp.spaces lx) as [[label lx1] |] eqn:Eread.
    + assert (Hlen1 : String.length (_input lx1) <= String.length (_input lx)).
      { unfold _read in Eread. destruct (RegExp.spaces (_input lx)); [| discriminate].
        injection Eread as _ <-. cbn [_input]. rewrite substr_length. lia. }
      destruct (Str.is_empty (_input lx1)) eqn:Hempty1.
      * intro H. injection H as _ <-. rewrite Hend.
        pose proof (size_bounds lx).
        split; [lia |]. intro Hne. rewrite (size_not_end lx Hne).
        destruct (_input lx1); [simpl; lia | discriminate Hempty1].
      * apply is_empty_length in Hempty1. intro H.
        pose proof (Hswitch lx1 lx' Hempty1 H). pose proof (size_bounds lx).
        split; [lia |]. intro Hne. rewrite (size_not_end lx Hne). lia.
    + intro H. pose proof (Hswitch lx lx' Hempty H). pose proof (size_bounds lx).
      split; [lia |]. intro Hne. rewrite (size_not_end lx Hne). lia.
Qed.

Lemma left_free_next lx t lx' : left_free lx -> next lx = Return t lx' -> left_free lx'.
Proof.
  intros H E n lx2 Hadvance. apply (H (S n) lx2). simpl. rewrite E. exact Hadvance.
Qed.

Lemma left_free_token lx : left_free lx -> _token lx <> T_left.
Proof. intro H. apply (H 0 lx). reflexivity. Qed.

Lemma within_bind {A B} (m : M A) (k : A -> M B) lx :
  within m lx ->
  (forall a lx', size lx' <= size lx -> left_free lx' -> within (k a) lx') ->
  within (bind m k) lx.
Proof.
  unfold within, bind. destruct (m lx) as [a lx1 | e |]; [| intros; exact I | intros; exact I].
  intros [Hsize Hfree] Hk. specialize (Hk a lx1 Hsize Hfree).
  destruct (k a lx1) as [b lx2 | e |]; [| exact I | exact I].
  destruct Hk as [Hsize2 Hfree2]. split; [lia | exact Hfree2].
Qed.

Lemma within_ret {A} (a : A) lx : left_free lx -> within (ret a) lx.
Proof. intro H. split; [apply Nat.le_refl | exact H]. Qed.

Lemma within_get_token {B} (k : Token -> M B) lx :
  within (k (_token lx)) lx -> within (bind get_token k) lx.
Proof. intro H. exact H. Qed.

Lemma within_get_label {B} (k : string -> M B) lx :
  within (k (_label lx)) lx -> within (bind get_label k) lx.
Proof. intro H. exact H. Qed.

Lemma within_next lx : left_free lx -> within next lx.
Proof.
  intro H. unfold within. destruct (next lx) as [t lx' | e |] eqn:E; [| exact I | exact I].
  split; [apply (next_size _ _ _ E) | apply (left_free_next _ _ _ H E)].
Qed.

Lemma within_step lx : left_free lx -> within step lx.
Proof.
  intro H. unfold step. apply within_get_label.
  apply within_bind; [apply within_next; exact H |].
  intros t lx' _ H'. apply within_ret. exact H'.
Qed.

Lemma within_expect tokens lx : left_free lx -> within (expect tokens) lx.
Proof.
  intro H. unfold within, expect.
  destruct (existsb (Token_eqb (_token lx)) tokens); [| exact I].
  apply within_step. exact H.
Qed.

(** No method of the parser enlarges what remains to be lexed. *)
Lemma parser_within fuel :
  (forall components lx, left_free lx -> within (_parseReferenceComponents fuel components) lx)
  /\ (forall lx, left_free lx -> within (_parseReference fuel) lx)
  /\ (forall lx, left_free lx -> within (_parseValue fuel) lx)
  /\ (forall lx, left_free lx -> within (_parseUnaryNode fuel) lx)
  /\ (forall idx lx, left_free lx -> within (_parseBinaryNode fuel idx) lx)
  /\ (forall idx operators node lx,
        left_free lx -> within (_parseBinaryNode_while fuel idx operators node) lx)
  /\ (forall lx, left_free lx -> within (_parseRoot fuel) lx).
Proof.
  induction fuel as [| fuel IH].
  { repeat split; intros; exact I. }
  destruct IH as (IHcomponents & IHreference & IHvalue & IHunary & IHbinary & IHwhile & IHroot).
  repeat split.
  - intros components lx H. cbn [_parseReferenceComponents].
    apply within_get_token.
    destruct (_token lx); try (apply within_ret; exact H).
    + apply within_bind; [apply within_expect; exact H |].
      intros label lx1 _ H1. apply IHcomponents. exact H1.
    + apply within_bind; [apply within_next; exact H |].
      intros t lx1 _ H1.
      apply within_bind; [apply IHroot; exact H1 |].
      intros index lx2 _ H2.
      apply within_bind; [apply within_expect; exact H2 |].
      intros l lx3 _ H3. apply IHcomponents. exact H3.
  - intros lx H. cbn [_parseReference].
    apply within_bind; [apply within_expect; exact H |].
    intros label lx1 _ H1. apply IHcomponents. exact H1.
  - intros lx H. cbn [_parseValue].
    apply within_get_token.
    destruct (_token lx); try (apply IHreference; exact H).
    + apply within_bind; [apply within_next; exact H |].
      intros t lx1 _ H1. apply within_ret. exact H1.
    + apply within_bind; [apply within_next; exact H |].
      intros t lx1 _ H1. apply within_ret. exact H1.
    + apply within_bind; [apply within_next; exact H |].
      intros t lx1 _ H1. apply within_ret. exact H1.
    + apply within_bind; [apply within_step; exact H |].
      intros label lx1 _ H1. apply within_ret. exact H1.
    + apply within_bind; [apply within_step; exact H |].
      intros label lx1 _ H1. unfold _parseStringLiteral.
      destruct (JSON.parse label); [| exact I].
      apply within_bind; [apply within_ret; exact H1 |].
      intros s' lx2 _ H2. apply within_ret. exact H2.
    + apply within_bind; [apply IHroot; exact H |].
      intros node lx1 _ H1.
      apply within_bind; [apply within_expect; exact H1 |].
      intros l lx2 _ H2. apply within_ret. exact H2.
  - intros lx H. cbn [_parseUnaryNode].
    apply within_get_token.
    destruct (negb (Token_eqb T_operator (_token lx))); [apply IHvalue; exact H |].
    apply within_get_label.
    destruct (includes (_label lx) ["+"; "-"; "!"]); [| exact I].
    apply within_bind; [apply within_next; exact H |].
    intros t lx1 _ H1.
    apply within_bind; [apply IHunary; exact H1 |].
    intros inner lx2 _ H2. apply within_ret. exact H2.
  - intros idx lx H. cbn [_parseBinaryNode].
    destruct (nth_error _BINARY_OPERATOR_PRECEDENCE_TABLE idx) as [[[] operators] |];
      [| | apply IHunary; exact H].
    + apply within_bind; [apply IHbinary; exact H |].
      intros node lx1 _ H1. apply IHwhile. exact H1.
    + apply within_bind; [apply IHbinary; exact H |].
      intros l lx1 _ H1.
      apply within_get_token. apply within_get_label.
      destruct (negb (includes_token (_token lx1) [T_operator; T_in])
                || negb (includes (_label lx1) operators))%bool;
        [apply within_ret; exact H1 |].
      apply within_bind; [apply within_step; exact H1 |].
      intros operator lx2 _ H2.
      apply within_bind; [apply IHbinary; exact H2 |].
      intros r lx3 _ H3. apply within_ret. exact H3.
  - intros idx operators node lx H. cbn [_parseBinaryNode_while].
    apply within_get_token. apply within_get_label.
    destruct (includes_token (_token lx) [T_operator; T_in] && includes (_label lx) operators)%bool;
      [| apply within_ret; exact H].
    apply within_bind; [apply within_step; exact H |].
    intros operator lx1 _ H1.
    apply within_bind; [apply IHbinary; exact H1 |].
    intros r lx2 _ H2. apply IHwhile. exact H2.
  - intros lx H. cbn [_parseRoot]. apply IHbinary. exact H.
Qed.

(** ** Calls that settle *)

Lemma settles_const {A} (c : M A) lx : c lx <> Diverge -> settles (fun _ => c) lx.
Proof. intro H. exists 0. split; [exact H | reflexivity]. Qed.

Lemma settles_bind {A B} (g : nat -> M A) (h : A -> nat -> M B) lx :
  settles g lx ->
  (forall fuel a lx', g fuel lx = Return a lx' -> settles (h a) lx') ->
  settles (fun fuel => bind (g fuel) (fun a => h a fuel)) lx.
Proof.
  intros (F1 & Hne & Hstable) Hh. unfold bind.
  remember (g F1 lx) as first eqn:E. symmetry in E.
  destruct first as [a lx1 | e |].
  - destruct (Hh F1 a lx1 E) as (F2 & Hne2 & Hstable2).
    exists (Nat.max F1 F2).
    assert (Hat : forall fuel, Nat.max F1 F2 <= fuel ->
              match g fuel lx with
              | Return a0 lx' => h a0 fuel lx'
              | Throw e => Throw e
              | Diverge => Diverge
              end = h a F2 lx1).
    { intros fuel Hfuel. rewrite (Hstable fuel) by lia. apply Hstable2. lia. }
    split.
    + rewrite (Hat _ (Nat.le_refl _)). exact Hne2.
    + intros fuel Hfuel. rewrite (Hat fuel Hfuel), (Hat _ (Nat.le_refl _)). reflexivity.
  - exists F1. split; [rewrite E; discriminate |].
    intros fuel Hfuel. rewrite (Hstable fuel Hfuel), E. reflexivity.
  - contradiction Hne. reflexivity.
Qed.

Lemma settles_succ {A} (f : nat -> M A) lx : settles (fun fuel => f (S fuel)) lx -> settles f lx.
Proof.
  intros (F & Hne & Hstable). exists (S F). split; [exact Hne |].
  intros fuel Hfuel. destruct fuel as [| fuel]; [lia |]. apply Hstable. lia.
Qed.

Lemma settles_get_token {B} (k : Token -> nat -> M B) lx :
  settles (k (_token lx)) lx -> settles (fun fuel => bind get_token (fun token => k token fuel)) lx.
Proof. intro H. exact H. Qed.

Lemma settles_get_label {B} (k : string -> nat -> M B) lx :
  settles (k (_label lx)) lx -> settles (fun fuel => bind get_label (fun label => k label fuel)) lx.
Proof. intro H. exact H. Qed.

Lemma next_ends lx : next lx <> Diverge.
Proof. pose proof (next_spec lx) as H. destruct (next lx); [discriminate | discriminate | contradiction H]. Qed.

Lemma step_ends lx : step lx <> Diverge.
Proof.
  unfold step, bind, get_label. pose proof (next_ends lx) as H.
  destruct (next lx); [discriminate | discriminate | contradiction H; reflexivity].
Qed.

Lemma expect_ends tokens lx : expect tokens lx <> Diverge.
Proof.
  unfold expect. destruct (existsb (Token_eqb (_token lx)) tokens); [apply step_ends | discriminate].
Qed.

(** what [step] and [expect] leave to be lexed, when the current token is
    not [end] *)
Lemma step_size lx label lx' :
  _token lx <> T_end -> left_free lx -> step lx = Return label lx' ->
  size lx' < size lx /\ left_free lx'.
Proof.
  intros Hne Hfree. unfold step, bind, get_label.
  destruct (next lx) as [t lx1 | e |] eqn:E; try discriminate.
  intro H. injection H as _ <-.
  split; [apply (next_size _ _ _ E); exact Hne | apply (left_free_next _ _ _ Hfree E)].
Qed.

Lemma expect_size tokens lx label lx' :
  existsb (Token_eqb T_end) tokens = false -> left_free lx ->
  expect tokens lx = Return label lx' ->
  size lx' < size lx /\ left_free lx'.
Proof.
  intros Htokens Hfree. unfold expect.
  destruct (existsb (Token_eqb (_token lx)) tokens) eqn:E; [| discriminate].
  apply step_size; [| exact Hfree]. intro Hend. rewrite Hend, Htokens in E. discriminate E.
Qed.

(** the tokens [operator] and [in] are not [end] *)
Lemma operator_is_not_end lx :
  includes_token (_token lx) [T_operator; T_in] = true -> _token lx <> T_end.
Proof. intros H Hend. rewrite Hend in H. discriminate H. Qed.

(** Where no opening parenthesis is ahead, every method of the parser
    settles: by induction on what remains to be lexed. *)
Lemma parser_settles bound :
  forall lx, size lx < bound -> left_free lx ->
    (forall components, settles (fun fuel => _parseReferenceComponents fuel components) lx)
    /\ settles _parseReference lx
    /\ settles _parseValue lx
    /\ settles _parseUnaryNode lx
    /\ (forall idx, settles (fun fuel => _parseBinaryNode fuel idx) lx)
    /\ (forall idx operators node,
          settles (fun fuel => _parseBinaryNode_while fuel idx operators node) lx)
    /\ settles _parseRoot lx.
Proof.
  induction bound as [| bound IH]; intros lx Hsize Hfree; [lia |].
  (* the loop, for every lexer within the bound *)
  assert (Hwhile : forall lx0, size lx0 < S bound -> left_free lx0 ->
            forall idx operators node,
              settles (fun fuel => _parseBinaryNode_while fuel idx operators node) lx0).
  { intros lx0 Hsize0 Hfree0 idx operators node.
    apply settles_succ. cbn [_parseBinaryNode_while].
    apply (settles_get_token (fun token fuel => bind get_label (fun label =>
             if (includes_token token [T_operator; T_in] && includes label operators)%bool
             then bind step (fun operator => bind (_parseBinaryNode fuel (idx + 1)) (fun r =>
                    _parseBinaryNode_while fuel idx operators (BinaryNode operator node r)))
             else ret node))).
    apply (settles_get_label (fun label fuel =>
             if (includes_token (_token lx0) [T_operator; T_in] && includes label operators)%bool
             then bind step (fun operator => bind (_parseBinaryNode fuel (idx + 1)) (fun r =>
                    _parseBinaryNode_while fuel idx operators (BinaryNode operator node r)))
             else ret node)).
    destruct (includes_token (_token lx0) [T_operator; T_in]) eqn:Htoken; cbn [andb];
      [| apply settles_const; discriminate].
    destruct (includes (_label lx0) operators); [| apply settles_const; discriminate].
    apply (settles_bind (fun _ => step) (fun operator fuel =>
             bind (_parseBinaryNode fuel (idx + 1)) (fun r =>
               _parseBinaryNode_while fuel idx operators (BinaryNode operator node r))));
      [apply settles_const; apply step_ends |].
    intros _ operator lx1 Hstep.
    destruct (step_size _ _ _ (operator_is_not_end _ Htoken) Hfree0 Hstep) as [Hsize1 Hfree1].
    assert (Hb1 : size lx1 < bound) by lia.
    destruct (IH lx1 Hb1 Hfree1) as (_ & _ & _ & _ & IHbinary & IHwhile & _).
    apply (settles_bind (fun fuel => _parseBinaryNode fuel (idx + 1)) (fun r fuel =>
             _parseBinaryNode_while fuel idx operators (BinaryNode operator node r)));
      [apply IHbinary |].
    intros fuel r lx2 Hr.
    pose proof (proj1 (proj2 (proj2 (proj2 (proj2 (parser_within fuel))))) (idx + 1) lx1 Hfree1) as Hw.
    unfold within in Hw. rewrite Hr in Hw. destruct Hw as [Hsize2 Hfree2].
    assert (Hb2 : size lx2 < bound) by lia.
    destruct (IH lx2 Hb2 Hfree2) as (_ & _ & _ & _ & _ & IHwhile2 & _).
    apply IHwhile2. }
  (* a lexer after a call of [expect], [step] or [next] that consumed a token *)
  assert (Hsmaller : forall lx1, size lx1 < size lx -> left_free lx1 ->
            (forall components, settles (fun fuel => _parseReferenceComponents fuel components) lx1)
            /\ settles _parseUnaryNode lx1
            /\ (forall idx, settles (fun fuel => _parseBinaryNode fuel idx) lx1)
            /\ settles _parseRoot lx1).
  { intros lx1 Hsize1 Hfree1. assert (Hb1 : size lx1 < bound) by lia.
    destruct (IH lx1 Hb1 Hfree1) as (H1 & _ & _ & H4 & H5 & _ & H7). auto. }
  assert (Hcomponents : forall components,
            settles (fun fuel => _parseReferenceComponents fuel components) lx).
  { intro components. apply settles_succ. cbn [_parseReferenceComponents].
    apply (settles_get_token (fun token fuel =>
             match token with
             | T_dot =>
                 bind (expect [T_name]) (fun label =>
                   _parseReferenceComponents fuel (components ++ [FieldComponent label])%list)
             | T_left_square =>
                 bind next (fun _ => bind (_parseRoot fuel) (fun index =>
                   bind (expect [T_right_square]) (fun _ =>
                     _parseReferenceComponents fuel
                       (components ++ [SubscriptComponent index])%list)))
             | _ => ret (ReferenceNode components)
             end)).
    destruct (_token lx) eqn:Htoken; try (apply settles_const; discriminate).
    - apply (settles_bind (fun _ => expect [T_name]) (fun label fuel =>
               _parseReferenceComponents fuel (components ++ [FieldComponent label])%list));
        [apply settles_const; apply expect_ends |].
      intros _ label lx1 He.
      destruct (expect_size [T_name] _ _ _ eq_refl Hfree He) as [Hsize1 Hfree1].
      apply (Hsmaller lx1 Hsize1 Hfree1).
    - apply (settles_bind (fun _ => next) (fun _ fuel =>
               bind (_parseRoot fuel) (fun index =>
                 bind (expect [T_right_square]) (fun _ =>
                   _parseReferenceComponents fuel
                     (components ++ [SubscriptComponent index])%list))));
        [apply settles_const; apply next_ends |].
      intros _ t lx1 Hn.
      assert (Hsize1 : size lx1 < size lx)
        by (apply (next_size _ _ _ Hn); rewrite Htoken; discriminate).
      pose proof (left_free_next _ _ _ Hfree Hn) as Hfree1.
      apply (settles_bind (fun fuel => _parseRoot fuel) (fun index fuel =>
               bind (expect [T_right_square]) (fun _ =>
                 _parseReferenceComponents fuel
                   (components ++ [SubscriptComponent index])%list)));
        [apply (Hsmaller lx1 Hsize1 Hfree1) |].
      intros fuel index lx2 Hroot.
      pose proof (proj2 (proj2 (proj2 (proj2 (proj2 (proj2 (parser_within fuel)))))) lx1 Hfree1) as Hw.
      unfold within in Hw. rewrite Hroot in Hw. destruct Hw as [Hsize2 Hfree2].
      apply (settles_bind (fun _ => expect [T_right_square]) (fun _ fuel0 =>
               _parseReferenceComponents fuel0 (components ++ [SubscriptComponent index])%list));
        [apply settles_const; apply expect_ends |].
      intros _ l lx3 He.
      destruct (expect_size [T_right_square] _ _ _ eq_refl Hfree2 He) as [Hsize3 Hfree3].
      apply (Hsmaller lx3); [lia | exact Hfree3]. }
  assert (Hreference : settles _parseReference lx).
  { apply settles_succ. cbn [_parseReference].
    apply (settles_bind (fun _ => expect [T_name]) (fun label fuel =>
             _parseReferenceComponents fuel [FieldComponent label]));
      [apply settles_const; apply expect_ends |].
    intros _ label lx1 He.
    destruct (expect_size [T_name] _ _ _ eq_refl Hfree He) as [Hsize1 Hfree1].
    apply (Hsmaller lx1 Hsize1 Hfree1). }
  assert (Hliteral : forall (m : M Token) (node : Node),
            m lx <> Diverge -> settles (fun _ => bind m (fun _ => ret node)) lx).
  { intros m node Hm. apply settles_const. unfold bind, ret.
    destruct (m lx); [discriminate | discriminate | contradiction Hm; reflexivity]. }
  assert (Hvalue : settles _parseValue lx).
  { apply settles_succ. cbn [_parseValue].
    apply (settles_get_token (fun token fuel =>
             match token with
             | T_undefined => bind next (fun _ => ret (LiteralNode L_undefined))
             | T_true => bind next (fun _ => ret (LiteralNode (L_boolean true)))
             | T_false => bind next (fun _ => ret (LiteralNode (L_boolean false)))
             | T_number =>
                 bind step (fun label => ret (LiteralNode (L_number (Number.parseFloat label))))
             | T_string =>
                 bind step (fun label => bind (_parseStringLiteral label) (fun s =>
                   ret (LiteralNode (L_string s))))
             | T_left =>
                 bind (_parseRoot fuel) (fun node => bind (expect [T_right]) (fun _ => ret node))
             | _ => _parseReference fuel
             end)).
    pose proof (left_free_token lx Hfree) as Hleft.
    destruct (_token lx) eqn:Htoken; try exact Hreference; try (contradiction Hleft; reflexivity);
      try (apply Hliteral; apply next_ends).
    - apply settles_const. unfold bind, ret. pose proof (step_ends lx) as Hs.
      destruct (step lx); [discriminate | discriminate | contradiction Hs; reflexivity].
    - apply settles_const. unfold bind, ret, _parseStringLiteral, throw.
      pose proof (step_ends lx) as Hs.
      destruct (step lx) as [label lx1 | e |]; [| discriminate | contradiction Hs; reflexivity].
      destruct (JSON.parse label); discriminate. }
  assert (Hunary : settles _parseUnaryNode lx).
  { apply settles_succ. cbn [_parseUnaryNode].
    apply (settles_get_token (fun token fuel =>
             if negb (Token_eqb T_operator token) then _parseValue fuel
             else bind get_label (fun operator =>
                    if includes operator ["+"; "-"; "!"]
                    then bind next (fun _ => bind (_parseUnaryNode fuel) (fun inner =>
                           ret (UnaryNode operator inner)))
                    else bind get_input (fun input => throw (MVC.SyntaxError input))))).
    destruct (Token_eqb T_operator (_token lx)) eqn:Htoken; cbn [negb]; [| exact Hvalue].
    apply Token_eqb_eq in Htoken.
    apply (settles_get_label (fun operator fuel =>
             if includes operator ["+"; "-"; "!"]
             then bind next (fun _ => bind (_parseUnaryNode fuel) (fun inner =>
                    ret (UnaryNode operator inner)))
             else bind get_input (fun input => throw (MVC.SyntaxError input)))).
    destruct (includes (_label lx) ["+"; "-"; "!"]); [| apply settles_const; discriminate].
    apply (settles_bind (fun _ => next) (fun _ fuel =>
             bind (_parseUnaryNode fuel) (fun inner => ret (UnaryNode (_label lx) inner))));
      [apply settles_const; apply next_ends |].
    intros _ t lx1 Hn.
    assert (Hsize1 : size lx1 < size lx)
      by (apply (next_size _ _ _ Hn); rewrite <- Htoken; discriminate).
    pose proof (left_free_next _ _ _ Hfree Hn) as Hfree1.
    apply (settles_bind (fun fuel => _parseUnaryNode fuel) (fun inner _ =>
             ret (UnaryNode (_label lx) inner)));
      [apply (Hsmaller lx1 Hsize1 Hfree1) |].
    intros. apply settles_const. discriminate. }
  assert (Hbinary : forall distance idx,
            length _BINARY_OPERATOR_PRECEDENCE_TABLE <= idx + distance ->
            settles (fun fuel => _parseBinaryNode fuel idx) lx).
  { induction distance as [| distance IHd]; intros idx Hidx;
      apply settles_succ; cbn [_parseBinaryNode].
    - rewrite (proj2 (nth_error_None _ idx)) by lia. exact Hunary.
    - destruct (nth_error _BINARY_OPERATOR_PRECEDENCE_TABLE idx)
        as [[[] operators] |] eqn:Hlevel; [| | exact Hunary].
      + apply (settles_bind (fun fuel => _parseBinaryNode fuel (idx + 1)) (fun node fuel =>
                 _parseBinaryNode_while fuel idx operators node));
          [apply IHd; lia |].
        intros fuel node lx1 Hnode.
        pose proof (proj1 (proj2 (proj2 (proj2 (proj2 (parser_within fuel))))) (idx + 1) lx Hfree) as Hw.
        unfold within in Hw. rewrite Hnode in Hw. destruct Hw as [Hsize1 Hfree1].
        apply Hwhile; [lia | exact Hfree1].
      + apply (settles_bind (fun fuel => _parseBinaryNode fuel (idx + 1)) (fun l fuel =>
                 bind get_token (fun token => bind get_label (fun label =>
                   if (negb (includes_token token [T_operator; T_in])
                       || negb (includes label operators))%bool
                   then ret l
                   else bind step (fun operator => bind (_parseBinaryNode fuel idx) (fun r =>
                          ret (BinaryNode operator l r)))))));
          [apply IHd; lia |].
        intros fuel l lx1 Hl.
        pose proof (proj1 (proj2 (proj2 (proj2 (proj2 (parser_within fuel))))) (idx + 1) lx Hfree) as Hw.
        unfold within in Hw. rewrite Hl in Hw. destruct Hw as [Hsize1 Hfree1].
        apply (settles_get_token (fun token fuel0 => bind get_label (fun label =>
                 if (negb (includes_token token [T_operator; T_in])
                     || negb (includes label operators))%bool
                 then ret l
                 else bind step (fun operator => bind (_parseBinaryNode fuel0 idx) (fun r =>
                        ret (BinaryNode operator l r)))))).
        apply (settles_get_label (fun label fuel0 =>
                 if (negb (includes_token (_token lx1) [T_operator; T_in])
                     || negb (includes label operators))%bool
                 then ret l
                 else bind step (fun operator => bind (_parseBinaryNode fuel0 idx) (fun r =>
                        ret (BinaryNode operator l r))))).
        destruct (includes_token (_token lx1) [T_operator; T_in]) eqn:Htoken; cbn [negb orb];
          [| apply settles_const; discriminate].
        destruct (includes (_label lx1) operators); cbn [negb];
          [| apply settles_const; discriminate].
        apply (settles_bind (fun _ => step) (fun operator fuel0 =>
                 bind (_parseBinaryNode fuel0 idx) (fun r => ret (BinaryNode operator l r))));
          [apply settles_const; apply step_ends |].
        intros _ operator lx2 Hstep.
        destruct (step_size _ _ _ (operator_is_not_end _ Htoken) Hfree1 Hstep) as [Hsize2 Hfree2].
        apply (settles_bind (fun fuel0 => _parseBinaryNode fuel0 idx) (fun r _ =>
                 ret (BinaryNode operator l r)));
          [apply (Hsmaller lx2); [lia | exact Hfree2] |].
        intros. apply settles_const. discriminate. }
  assert (Hbinary' : forall idx, settles (fun fuel => _parseBinaryNode fuel idx) lx).
  { intro idx. apply (Hbinary (length _BINARY_OPERATOR_PRECEDENCE_TABLE) idx). lia. }
  repeat split; try assumption.
  - intros idx operators node. apply Hwhile; assumption.
  - apply settles_succ. cbn [_parseRoot]. apply Hbinary'.
Qed.

(** after the token [end] the lexer stays at [end] *)
Lemma end_stays n : forall lx lx',
  _token lx = T_end -> _input lx = EmptyString ->
  advance n lx = Some lx' -> _token lx' = T_end.
Proof.
  induction n as [| n IH]; intros lx lx' Htoken Hinput Hadvance.
  - injection Hadvance as <-. exact Htoken.
  - simpl in Hadvance. unfold next in Hadvance. rewrite Hinput in Hadvance.
    cbn in Hadvance. apply (IH _ lx' (eq_refl : _token (mkLexer _ _ T_end _) = T_end) Hinput Hadvance).
Qed.

(** an opening parenthesis that [next] makes is among the tokens of
    [tokens_from], when the fuel is the size of the lexer or more *)
Lemma tokens_left_ahead n : forall lx lx' fuel,
  at_end_when_empty lx -> size lx <= fuel ->
  advance (S n) lx = Some lx' -> _token lx' = T_left ->
  In (T_left, _label lx') (fst (tokens_from fuel lx)).
Proof.
  induction n as [| n IH]; intros lx lx' fuel Hlx Hfuel Hadvance Hleft.
  - simpl in Hadvance. pose proof (next_spec lx) as Hspec. pose proof (next_size lx) as Hsize.
    destruct (next lx) as [t lx1 | e |] eqn:E; try discriminate Hadvance.
    injection Hadvance as ->. destruct Hspec as [_ ->].
    assert (Hne : _token lx <> T_end).
    { intro Hend. unfold next in E. rewrite (Hlx Hend) in E. cbn in E.
      injection E as _ <-. discriminate Hleft. }
    pose proof (size_not_end lx Hne) as Hs.
    destruct fuel as [| fuel]; [lia |].
    simpl. rewrite E, Hleft.
    destruct (tokens_from fuel lx') as [ts e]. left. reflexivity.
  - pose proof (next_spec lx) as Hspec. pose proof (next_size lx) as Hsize.
    remember (S n) as n1 eqn:Hn1 in Hadvance. simpl in Hadvance.
    destruct (next lx) as [t lx1 | e |] eqn:E; try discriminate Hadvance.
    destruct Hspec as [_ ->].
    pose proof (next_at_end_when_empty _ _ _ E) as Hlx1.
    assert (Hne1 : _token lx1 <> T_end).
    { intro Hend. pose proof (end_stays _ _ _ Hend (Hlx1 Hend) Hadvance) as H.
      rewrite H in Hleft. discriminate Hleft. }
    assert (Hne : _token lx <> T_end).
    { intro Hend. unfold next in E. rewrite (Hlx Hend) in E. cbn in E.
      injection E as _ <-. apply Hne1. reflexivity. }
    pose proof (size_not_end lx Hne) as Hs.
    destruct (Hsize _ _ eq_refl) as [_ Hless]. specialize (Hless Hne).
    destruct fuel as [| fuel]; [lia |].
    assert (Hfuel1 : size lx1 <= fuel) by lia.
    subst n1.
    pose proof (IH lx1 lx' fuel Hlx1 Hfuel1 Hadvance Hleft) as Hin.
    simpl. rewrite E.
    destruct (tokens_from fuel lx1) as [ts e].
    destruct (_token lx1); try (right; exact Hin). contradiction Hne1. reflexivity.
Qed.

(** no opening parenthesis among the tokens of the input: none is ahead of
    the lexer of [new Parser(input)] *)
Lemma new_Parser_left_free input t lx :
  (forall label, ~ In (T_left, label) (fst (tokenize input))) ->
  new_Parser input = Return t lx -> left_free lx.
Proof.
  intros Hnone E n lx' Hadvance Hleft. unfold new_Parser in E.
  apply (Hnone (_label lx')). unfold tokenize.
  apply (tokens_left_ahead n (new_Lexer input) lx').
  - intro Hend. discriminate Hend.
  - unfold size. simpl. lia.
  - simpl. rewrite E. exact Hadvance.
  - exact Hleft.
Qed.

Lemma parser_parse_settles lx : left_free lx -> settles Parser.parse lx.
Proof.
  intro Hfree. unfold Parser.parse.
  apply (settles_bind (fun fuel => _parseRoot fuel) (fun node _ => fun lx0 =>
           if end_ lx0 then Return node lx0
           else Throw (MVC.SyntaxError (originalInput lx0)))).
  - apply (parser_settles (S (size lx)) lx); [lia | exact Hfree].
  - intros _ node lx1 _. apply settles_const. destruct (end_ lx1); discriminate.
Qed.

Lemma parser_parseIteration_settles lx : left_free lx -> settles Parser.parseIteration lx.
Proof.
  intro Hfree. unfold Parser.parseIteration.
  apply (settles_bind (fun _ => expect [T_name]) (fun name fuel =>
           bind get_token (fun token =>
             match token with
             | T_comma => bind next (fun _ => _parseDictionaryIteration fuel name)
             | T_in => bind next (fun _ => _parseCollectionIteration fuel name)
             | _ => bind get_input (fun input => throw (MVC.SyntaxError input))
             end)));
    [apply settles_const; apply expect_ends |].
  intros _ name lx1 He.
  destruct (expect_size [T_name] _ _ _ eq_refl Hfree He) as [_ Hfree1].
  apply (settles_get_token (fun token fuel =>
           match token with
           | T_comma => bind next (fun _ => _parseDictionaryIteration fuel name)
           | T_in => bind next (fun _ => _parseCollectionIteration fuel name)
           | _ => bind get_input (fun input => throw (MVC.SyntaxError input))
           end)).
  destruct (_token lx1); try (apply settles_const; discriminate).
  - apply (settles_bind (fun _ => next) (fun _ fuel => _parseCollectionIteration fuel name));
      [apply settles_const; apply next_ends |].
    intros _ t lx2 Hn. pose proof (left_free_next _ _ _ Hfree1 Hn) as Hfree2.
    unfold _parseCollectionIteration.
    apply (settles_bind Parser.parse (fun source _ => ret (CollectionIterationNode name source)));
      [apply parser_parse_settles; exact Hfree2 |].
    intros. apply settles_const. discriminate.
  - apply (settles_bind (fun _ => next) (fun _ fuel => _parseDictionaryIteration fuel name));
      [apply settles_const; apply next_ends |].
    intros _ t lx2 Hn. pose proof (left_free_next _ _ _ Hfree1 Hn) as Hfree2.
    unfold _parseDictionaryIteration.
    apply (settles_bind (fun _ => expect [T_name]) (fun valueName fuel =>
             bind (expect [T_in]) (fun _ => bind (Parser.parse fuel) (fun source =>
               ret (DictionaryIterationNode name valueName source)))));
      [apply settles_const; apply expect_ends |].
    intros _ valueName lx3 He3.
    destruct (expect_size [T_name] _ _ _ eq_refl Hfree2 He3) as [_ Hfree3].
    apply (settles_bind (fun _ => expect [T_in]) (fun _ fuel =>
             bind (Parser.parse fuel) (fun source =>
               ret (DictionaryIterationNode name valueName source))));
      [apply settles_const; apply expect_ends |].
    intros _ l lx4 He4.
    destruct (expect_size [T_in] _ _ _ eq_refl Hfree3 He4) as [_ Hfree4].
    apply (settles_bind Parser.parse (fun source _ =>
             ret (DictionaryIterationNode name valueName source)));
      [apply parser_parse_settles; exact Hfree4 |].
    intros. apply settles_const. discriminate.
Qed.

(** a method that settles on the lexer of [new Parser(input)] gives a
    result of [with_Parser] that no longer depends on the fuel *)
Lemma with_Parser_settles {A} (m : nat -> M A) input :
  (forall t lx, new_Parser input = Return t lx -> settles m lx) ->
  exists enough,
    Expressions.with_Parser input (m enough) <> Diverges
    /\ forall fuel, enough <= fuel ->
         Expressions.with_Parser input (m fuel) = Expressions.with_Parser input (m enough).
Proof.
  intro H. unfold Expressions.with_Parser, new_Parser in *.
  pose proof (next_ends (new_Lexer input)) as Hnext.
  destruct (next (new_Lexer input)) as [t lx | e |].
  - destruct (H t lx eq_refl) as (enough & Hne & Hstable). exists enough. split.
    + destruct (m enough lx); [discriminate | discriminate | contradiction Hne; reflexivity].
    + intros fuel Hfuel. rewrite (Hstable fuel Hfuel). reflexivity.
  - exists 0. split; [discriminate | reflexivity].
  - contradiction Hnext. reflexivity.
Qed.

(** An input without an opening parenthesis among its tokens: [parse] and
    [parseIteration] end, with a result that is the same for every fuel
    from some fuel on. *)
Lemma parse_settles input :
  (forall label, ~ In (T_left, label) (fst (tokenize input))) ->
  (exists enough,
      Expressions.parse enough input <> Diverges
      /\ forall fuel, enough <= fuel ->
           Expressions.parse fuel input = Expressions.parse enough input)
  /\ (exists enough,
        Expressions.parseIteration enough input <> Diverges
        /\ forall fuel, enough <= fuel ->
             Expressions.parseIteration fuel input = Expressions.parseIteration enough input).
Proof.
  intro Hnone. split.
  - apply (with_Parser_settles Parser.parse). intros t lx E.
    apply parser_parse_settles. apply (new_Parser_left_free input t lx Hnone E).
  - apply (with_Parser_settles Parser.parseIteration). intros t lx E.
    apply parser_parseIteration_settles. apply (new_Parser_left_free input t lx Hnone E).
Qed.

(** A pipe and no opening parenthesis among the tokens: [parse] and
    [parseIteration] throw, for every fuel from some fuel on. *)
Lemma pipe_token_is_an_error input label :
  In (T_pipe, label) (fst (tokenize input)) ->
  (forall l, ~ In (T_left, l) (fst (tokenize input))) ->
  (exists enough e, forall fuel, enough <= fuel -> Expressions.parse fuel input = Error e)
  /\ (exists enough e, forall fuel, enough <= fuel ->
        Expressions.parseIteration fuel input = Error e).
Proof.
  intros Hpipe Hnone.
  destruct (parse_settles input Hnone)
    as [(F1 & Hne1 & Hstable1) (F2 & Hne2 & Hstable2)].
  destruct (pipe_token_is_never_parsed F1 input label Hpipe) as [Hno1 _].
  destruct (pipe_token_is_never_parsed F2 input label Hpipe) as [_ Hno2].
  split.
  - destruct (Expressions.parse F1 input) as [node | e |] eqn:E.
    + contradiction (Hno1 node). reflexivity.
    + exists F1, e. intros fuel Hfuel. rewrite (Hstable1 fuel Hfuel). reflexivity.
    + contradiction Hne1. reflexivity.
  - destruct (Expressions.parseIteration F2 input) as [node | e |] eqn:E.
    + contradiction (Hno2 node). reflexivity.
    + exists F2, e. intros fuel Hfuel. rewrite (Hstable2 fuel Hfuel). reflexivity.
    + contradiction Hne2. reflexivity.
Qed.

End Termination.

(* ===================================================================== *)
(** * The properties of the specification *)
(* ===================================================================== *)

(** C1.  Precedence and associativity of compiled parses.  The claim gives 7
    for [1 + 2 * 3]; the parser takes the first row of its precedence table
    as the outermost level, so [*] is applied to the sum: the compiled text
    is [((1)+(2))*(3)] and its value, with any context, is 9.  The two
    other values of the claim hold: [2 ** 3 ** 2] groups to the right and
    gives 512, [10 - 3 - 2] groups to the left and gives 5. *)
Theorem C1_precedence_of_compiled_parses :
  forall (k : nat) (this : Dictionary) (console : Compiled.Console),
    (exists node,
        Expressions.parse (24 + k) "1 + 2 * 3" = Ok node
        /\ node = BinaryNode "*" (BinaryNode "+" (literal_number 1) (literal_number 2))
                             (literal_number 3)
        /\ AST.compile node = Some "((1)+(2))*(3)"
        /\ Compiled.compile node this console = Some (Normal (number 9), console))
    /\ (exists node,
        Expressions.parse (24 + k) "2 ** 3 ** 2" = Ok node
        /\ AST.compile node = Some "(2)**((3)**(2))"
        /\ Compiled.compile node this console = Some (Normal (number 512), console))
    /\ (exists node,
        Expressions.parse (24 + k) "10 - 3 - 2" = Ok node
        /\ AST.compile node = Some "((10)-(3))-(2)"
        /\ Compiled.compile node this console = Some (Normal (number 5), console)).
Proof.
  intros k this console. repeat split.
  - eexists. split; [vm_compute; reflexivity |]. repeat split.
  - eexists. split; [vm_compute; reflexivity |]. repeat split.
  - eexists. split; [vm_compute; reflexivity |]. repeat split.
Qed.

(** C2.  Round trip of literals.  The claim includes quoted strings such as
    the text abc between double quotes; the pattern of the string rule,
    [/^"([^"](\\"))*"/], takes after the opening quote only rounds of one
    character followed by a backslash and a quote, so the text matches no
    rule (nor does any text whose first two characters after the opening
    quote are not a quote and not a backslash): the lexer throws the syntax
    error and [parse] returns nothing.  A
    single-quoted text fails in the same way, and the one that its pattern
    accepts, two single quotes, is rejected by [JSON.parse].  The other
    kinds of literal do make the round trip: [undefined], [true], [false]
    and every unsigned integer below [2 ** 53]. *)
Theorem C2_quoted_string_is_rejected :
  forall (fuel : nat) (this : Dictionary) (console : Compiled.Console),
    RegExp.quoted double_quote (in_quotes double_quote "abc") = None
    /\ LexerMethods.tokenize (in_quotes double_quote "abc")
       = ([], Some (MVC.SyntaxError (in_quotes double_quote "abc")))
    /\ Expressions.parse fuel (in_quotes double_quote "abc")
       = Error (MVC.SyntaxError (in_quotes double_quote "abc"))
    /\ Expressions.parse fuel (in_quotes single_quote "abc")
       = Error (MVC.SyntaxError (in_quotes single_quote "abc"))
    /\ Expressions.parse (24 + fuel) (in_quotes single_quote "")
       = Error (MVC.JSON_SyntaxError (in_quotes single_quote ""))
    /\ (forall a b rest,
          Ascii.eqb a double_quote = false ->
          Ascii.eqb b "\"%char = false ->
          RegExp.quoted double_quote (String double_quote (String a (String b rest))) = None)
    /\ (exists node, Expressions.parse (24 + fuel) "undefined" = Ok node
          /\ Compiled.compile node this console = Some (Normal V_undefined, console))
    /\ (exists node, Expressions.parse (24 + fuel) "true" = Ok node
          /\ Compiled.compile node this console = Some (Normal (V_boolean true), console))
    /\ (exists node, Expressions.parse (24 + fuel) "false" = Ok node
          /\ Compiled.compile node this console = Some (Normal (V_boolean false), console))
    /\ (forall n,
          (Z.of_N n < Number.two53)%Z ->
          exists node, Expressions.parse (24 + fuel) (Number.decimal n) = Ok node
            /\ Compiled.compile node this console = Some (Normal (number (Z.of_N n)), console)).
Proof.
  intros fuel this console.
  split; [reflexivity |]. split; [reflexivity |]. split; [reflexivity |].
  split; [reflexivity |]. split; [reflexivity |].
  split; [| split; [| split; [| split]]].
  - intros a b rest Ha Hb. unfold RegExp.quoted. rewrite Ascii.eqb_refl.
    cbn [RegExp.quoted_tail]. rewrite Ha, Hb. destruct rest; reflexivity.
  - eexists. split; [vm_compute; reflexivity | reflexivity].
  - eexists. split; [vm_compute; reflexivity | reflexivity].
  - eexists. split; [vm_compute; reflexivity | reflexivity].
  - intros n Hn.
    destruct (integer_literal_round_trip fuel n this console Hn) as (node & Hparse & _ & Hvalue).
    exists node. split; assumption.
Qed.

(** C7.  The three malformed inputs of the claim end with the syntax error
    that carries the whole input, and with no node: [1 +] stops at the
    missing operand, [1 2] at the input left after the expression, and the
    scan of [a {{ b] at the end of the input inside the open region.  More
    generally, every [MVC.SyntaxError] that [parse] throws carries the input
    of [parse]. *)
Theorem C7_malformed_inputs_are_syntax_errors :
  forall (k : nat),
    Expressions.parse (24 + k) "1 +" = Error (MVC.SyntaxError "1 +")
    /\ Expressions.parse (24 + k) "1 2" = Error (MVC.SyntaxError "1 2")
    /\ Interpolation.interpolate k "a {{ b" = Error (MVC.SyntaxError "a {{ b")
    /\ (forall input,
          match Expressions.parse k input with
          | Error (MVC.SyntaxError carried) => carried = input
          | _ => True
          end).
Proof.
  intro k. repeat split.
  intro input. pose proof (parse_spec k input) as H.
  destruct (Expressions.parse k input) as [node | [m | carried | t] |]; auto.
  destruct H as [H | [t H]]; [injection H as ->; reflexivity | discriminate H].
Qed.

(** C4.  Logical and nullish operators.  The lexer makes operator tokens of
    [&&], [||] and [??], but no level of the parser's precedence table lists
    them: after the left operand every level returns, and [parse] finds
    input left over.  So [a && b], [a || b] and [a ?? b] end with the syntax
    error instead of a binary node, and no tree that [parse], [interpolate]
    or [parseIteration] returns has a binary node with one of the three
    operators. *)
Theorem C4_logical_operators_do_not_parse :
  forall (k : nat),
    LexerMethods.tokenize "a && b"
      = ([(T_name, "a"); (T_operator, "&&"); (T_name, "b"); (T_end, "")], None)
    /\ Expressions.parse (24 + k) "a && b" = Error (MVC.SyntaxError "a && b")
    /\ Expressions.parse (24 + k) "a || b" = Error (MVC.SyntaxError "a || b")
    /\ Expressions.parse (24 + k) "a ?? b" = Error (MVC.SyntaxError "a ?? b")
    /\ Parser.includes "&&" Shape.table_operators = false
    /\ Parser.includes "||" Shape.table_operators = false
    /\ Parser.includes "??" Shape.table_operators = false
    /\ (forall input,
          match Expressions.parse k input with
          | Ok node => Shape.binary_from_table node = true
          | _ => True
          end)
    /\ (forall input,
          match Interpolation.interpolate k input with
          | Ok node => Shape.binary_from_table node = true
          | _ => True
          end)
    /\ (forall input,
          match Expressions.parseIteration k input with
          | Ok node => Shape.binary_from_table node = true
          | _ => True
          end).
Proof.
  intro k. repeat split.
  - intro input. pose proof (parse_spec k input) as H.
    destruct (Expressions.parse k input); auto. apply H.
  - intro input. pose proof (interpolate_spec k input) as H.
    destruct (Interpolation.interpolate k input) as [node | |]; auto.
    apply (H node eq_refl).
  - intro input. pose proof (parseIteration_spec k input) as H.
    destruct (Expressions.parseIteration k input); auto. apply H.
Qed.

(** C8.  No pipe node and no bind node.  No tree returned by [parse],
    [interpolate] or [parseIteration] has a [PipeNode] or a [BindNode], and
    an input such as [a | b] or [|] ends with the syntax error; an input
    with a pipe among its tokens is never parsed to a tree, and when it has
    no opening parenthesis among its tokens [parse] and [parseIteration]
    throw.  The claim says of every input with a pipe token that it fails
    with a syntax error; for [(|] that fails:
    [_parseValue] answers the token [left] by calling [_parseRoot] without
    advancing the lexer (the case [left-square] of
    [_parseReferenceComponents] calls [next] first), so the parser calls
    itself for ever on the parenthesis and never throws the syntax error. *)
Theorem C8_no_pipe_no_bind_and_the_parenthesis :
  forall (fuel : nat),
    (forall input,
        match Expressions.parse fuel input with
        | Ok node => Shape.no_pipe_no_bind node = true
        | _ => True
        end)
    /\ (forall input,
        match Interpolation.interpolate fuel input with
        | Ok node => Shape.no_pipe_no_bind node = true
        | _ => True
        end)
    /\ (forall input,
        match Expressions.parseIteration fuel input with
        | Ok node => Shape.no_pipe_no_bind node = true
        | _ => True
        end)
    /\ Expressions.parse (24 + fuel) "a | b" = Error (MVC.SyntaxError "a | b")
    /\ Expressions.parse (24 + fuel) "|" = Error (MVC.SyntaxError "|")
    /\ Expressions.parseIteration (24 + fuel) "x in a | b" = Error (MVC.SyntaxError "x in a | b")
    /\ (forall input label,
          In (T_pipe, label) (fst (LexerMethods.tokenize input)) ->
          (forall node, Expressions.parse fuel input <> Ok node)
          /\ (forall node, Expressions.parseIteration fuel input <> Ok node))
    /\ (forall input label,
          In (T_pipe, label) (fst (LexerMethods.tokenize input)) ->
          (forall l, ~ In (T_left, l) (fst (LexerMethods.tokenize input))) ->
          (exists enough e, forall fuel', enough <= fuel' ->
             Expressions.parse fuel' input = Error e)
          /\ (exists enough e, forall fuel', enough <= fuel' ->
                Expressions.parseIteration fuel' input = Error e))
    /\ LexerMethods.tokenize "(|" = ([(T_left, "("); (T_pipe, "|"); (T_end, "")], None)
    /\ Expressions.parse fuel "(|" = Diverges.
Proof.
  intro fuel.
  split.
  { intro input. pose proof (parse_spec fuel input) as H.
    destruct (Expressions.parse fuel input); auto. apply H. }
  split.
  { intro input. pose proof (interpolate_spec fuel input) as H.
    destruct (Interpolation.interpolate fuel input) as [node | |]; auto.
    apply (H node eq_refl). }
  split.
  { intro input. pose proof (parseIteration_spec fuel input) as H.
    destruct (Expressions.parseIteration fuel input); auto. apply H. }
  split; [reflexivity |].
  split; [reflexivity |].
  split; [reflexivity |].
  split; [intros input label; apply pipe_token_is_never_parsed |].
  split; [intros input label; apply pipe_token_is_an_error |].
  split; [reflexivity |].
  apply (parse_left_diverges fuel "(|" (mkLexer "(|" "|" T_left "(") T_left); reflexivity.
Qed.

(** C9.  Fractional literals.  A number token is a run of decimal digits:
    [1.5] is lexed as the number [1], a dot and the number [5], and [parse]
    throws the syntax error on it, as on every input that starts with
    digits and a dot.  The claim says so of every input that contains such
    a literal; for [7-1.5 === 2] that fails.  Only the first
    branch of the pattern [/^\>\>\>|\=\=\=|\!\=\=/] is anchored, so after the
    number [7] the branch [===] matches further right in [-1.5 === 2]; the
    lexer makes the operator [===] of it and drops the first three
    characters of the remaining input, which are [-1.].  The tokens are
    [7 === 5 === 2], and [parse] returns a tree.  (A parenthesis before the
    literal, as in [(1.5)], keeps the parser from ever reaching it.) *)
Theorem C9_fraction_swallowed_by_an_operator_rule :
  forall (k : nat),
    LexerMethods.tokenize "1.5"
      = ([(T_number, "1"); (T_dot, "."); (T_number, "5"); (T_end, "")], None)
    /\ Expressions.parse (24 + k) "1.5" = Error (MVC.SyntaxError "1.5")
    /\ (forall c ds rest,
          Str.every Str.is_digit (String c ds) = true ->
          Expressions.parse (24 + k) (String c ds ++ String "." rest)
          = Error (MVC.SyntaxError (String c ds ++ String "." rest)))
    /\ RegExp.operators3 "-1.5 === 2" = Some "==="
    /\ LexerMethods.tokenize "7-1.5 === 2"
      = ([(T_number, "7"); (T_operator, "==="); (T_number, "5");
          (T_operator, "==="); (T_number, "2"); (T_end, "")], None)
    /\ Expressions.parse (24 + k) "7-1.5 === 2"
      = Ok (BinaryNode "===" (BinaryNode "===" (literal_number 7) (literal_number 5))
                       (literal_number 2))
    /\ Expressions.parse k "(1.5)" = Diverges.
Proof.
  intro k. repeat split.
  - intros c ds rest H. apply fraction_at_start_is_rejected. exact H.
  - apply (parse_left_diverges k "(1.5)" (mkLexer "(1.5)" "1.5)" T_left "(") T_left); reflexivity.
Qed.

Section InterpolationFacts.

Import Interpolation.

Lemma append_assoc (a b c : string) : ((a ++ b) ++ c)%string = (a ++ (b ++ c))%string.
Proof. induction a as [| x a IH]; simpl; [reflexivity | rewrite IH; reflexivity]. Qed.

(** text without an opening brace is copied to the gathered text *)
Lemma scan_text_plain fuel input plain rest text fragments :
  occurs open_brace plain = false ->
  scan_text fuel input (plain ++ rest) text fragments
  = scan_text fuel input rest (text ++ plain) fragments.
Proof.
  revert text. induction plain as [| c plain IH]; intros text H.
  - simpl. replace (text ++ "")%string with text; [reflexivity |].
    induction text as [| x text IHt]; simpl; [reflexivity | rewrite <- IHt; reflexivity].
  - cbn [occurs] in H. apply Bool.orb_false_iff in H. destruct H as [Hc Hplain].
    cbn [append scan_text]. rewrite Hc. cbn [negb].
    rewrite (IH _ Hplain). unfold add. rewrite append_assoc. reflexivity.
Qed.

End InterpolationFacts.

(** C10.  A lone opening brace at the end of the text.  When the outer loop
    of [interpolate] meets [{] as the last character, with any text and
    fragments gathered before, [++i] leaves the input, [input[i]] is
    [undefined], and the loop appends the brace and the text [undefined]:
    the scan ends normally with that text as the last static fragment.  So
    a text without an earlier opening brace, followed by [{], gives the one
    static fragment made of the text and [{undefined], as [a{] does. *)
Theorem C10_lone_brace_at_the_end :
  forall (fuel : nat) (input text : string) (fragments : list Node),
    Interpolation.scan_text fuel input "{" text fragments
      = Ok (InterpolatedNode (fragments ++ [StaticFragmentNode (text ++ "{undefined")])%list)
    /\ (forall plain,
          occurs Interpolation.open_brace plain = false ->
          Interpolation.interpolate fuel (plain ++ "{")
          = Ok (InterpolatedNode [StaticFragmentNode (plain ++ "{undefined")]))
    /\ Interpolation.interpolate fuel "a{"
       = Ok (InterpolatedNode [StaticFragmentNode "a{undefined"])
    /\ Interpolation.interpolate (24 + fuel) "{{a}}b{"
       = Ok (InterpolatedNode [StaticFragmentNode ""; ReferenceNode [FieldComponent "a"];
                               StaticFragmentNode "b{undefined"]).
Proof.
  intros fuel input text fragments. repeat split.
  intros plain H. unfold Interpolation.interpolate.
  rewrite (scan_text_plain fuel _ plain "{" "" [] H). reflexivity.
Qed.

(* ===================================================================== *)
(** * Properties of [free] *)
(* ===================================================================== *)

Section FreeFacts.

Import Shape.

Lemma mem_In x l : AST.mem x l = true <-> In x l.
Proof.
  unfold AST.mem. rewrite existsb_exists. split.
  - intros (y & Hy & E). apply String.eqb_eq in E. subst. exact Hy.
  - intro H. exists x. split; [exact H | apply String.eqb_refl].
Qed.

Lemma mem_false x l : AST.mem x l = false <-> ~ In x l.
Proof.
  rewrite <- mem_In. destruct (AST.mem x l); split; intro H; try reflexivity;
    try discriminate H; try (intro H'; discriminate H'). exfalso. apply H. reflexivity.
Qed.

(** only the elements of [seen] matter, not their order *)
Lemma first_occurrences_after_ext seen seen' l :
  (forall y, AST.mem y seen = AST.mem y seen') ->
  first_occurrences_after seen l = first_occurrences_after seen' l.
Proof.
  revert seen seen'. induction l as [| x l IH]; intros seen seen' H; simpl; [reflexivity |].
  rewrite <- (H x). destruct (AST.mem x seen); [apply IH; exact H |].
  f_equal. apply IH. intro y. unfold AST.mem. simpl. f_equal. apply H.
Qed.

(** The set filled in insertion order lists what it held before, then the
    first occurrences of what is new: [new Set] agrees with the
    specification's words. *)
Lemma Set_add_all_spec set array :
  AST.Set_add_all set array = (set ++ first_occurrences_after set array)%list.
Proof.
  revert set. induction array as [| x array IH]; intro set; simpl.
  - rewrite app_nil_r. reflexivity.
  - destruct (AST.mem x set) eqn:E; rewrite IH; [reflexivity |].
    rewrite <- app_assoc. simpl. do 2 f_equal.
    apply first_occurrences_after_ext. intro y.
    unfold AST.mem. rewrite existsb_app. simpl.
    rewrite Bool.orb_false_r. apply Bool.orb_comm.
Qed.

Lemma unique_spec elements : AST.unique elements = first_occurrences (concat elements).
Proof. unfold AST.unique, first_occurrences. rewrite Set_add_all_spec. reflexivity. Qed.

Lemma first_occurrences_after_In seen l x :
  In x (first_occurrences_after seen l) <-> In x l /\ ~ In x seen.
Proof.
  revert seen. induction l as [| a l IH]; intro seen; simpl; [tauto |].
  destruct (AST.mem a seen) eqn:E.
  - apply mem_In in E. rewrite IH. split.
    + tauto.
    + intros [[-> | H] Hn]; [contradiction | tauto].
  - apply mem_false in E. simpl. rewrite IH. simpl. split.
    + intros [-> | [H Hn]]; [tauto |]. split; [tauto |]. intro Hs. apply Hn. tauto.
    + intros [[-> | H] Hn]; [tauto |].
      destruct (string_dec a x) as [-> | Hne]; [tauto |]. right. split; [exact H |].
      intros [-> | Hs]; [apply Hne; reflexivity | contradiction].
Qed.

Lemma first_occurrences_after_NoDup seen l : NoDup (first_occurrences_after seen l).
Proof.
  revert seen. induction l as [| a l IH]; intro seen; simpl; [constructor |].
  destruct (AST.mem a seen); [apply IH |].
  constructor; [| apply IH].
  rewrite first_occurrences_after_In. simpl. tauto.
Qed.

(** a list without duplicates is its own list of first occurrences *)
Lemma first_occurrences_after_id seen l :
  NoDup l -> (forall x, In x l -> ~ In x seen) -> first_occurrences_after seen l = l.
Proof.
  revert seen. induction l as [| a l IH]; intros seen Hnd Hseen; simpl; [reflexivity |].
  inversion Hnd as [| ? ? Ha Hl]; subst.
  assert (E : AST.mem a seen = false) by (apply mem_false; apply Hseen; left; reflexivity).
  rewrite E. f_equal. apply IH; [exact Hl |].
  intros x Hx [-> | Hs]; [contradiction |]. apply (Hseen x); [right; exact Hx | exact Hs].
Qed.

Lemma unique_NoDup elements : NoDup (AST.unique elements).
Proof. rewrite unique_spec. apply first_occurrences_after_NoDup. Qed.

Lemma free_NoDup node : NoDup (AST.free node).
Proof.
  induction node; cbn [AST.free];
    unfold AST.ReferenceNode_free, AST.InterpolatedNode_free, AST.IterationNode_free;
    try apply unique_NoDup; try (constructor; fail).
  - constructor; [simpl; tauto | constructor].
  - assumption.
  - destruct components as [| [root | index] rest]; apply unique_NoDup.
Qed.

Lemma first_occurrences_id l : NoDup l -> first_occurrences l = l.
Proof. intro H. apply first_occurrences_after_id; [exact H | intros x _ []]. Qed.

Lemma component_concat components :
  concat (map (AST.component_free AST.free) components)
  = concat (map AST.free
                (flat_map (fun c => match c with
                                    | FieldComponent _ => []
                                    | SubscriptComponent index => [index]
                                    end) components)).
Proof.
  induction components as [| [name | index] cs IH]; simpl; [reflexivity | exact IH |].
  rewrite IH. reflexivity.
Qed.

End FreeFacts.

(** C6.  Free variables.  For every node, [free()] is the list of first
    occurrences (order kept, later duplicates dropped) of the name the node
    reads by itself (a variable's name, the bound name of a bind node, the
    root of a reference) followed by the free lists of its children, in
    their order; it has no duplicates; de-duplicating it again changes
    nothing; and as [free] is a function of the node alone, two calls on
    the same node return the same list. *)
Theorem C6_free_is_the_deduplicated_union :
  forall (node : Node),
    AST.free node
    = Shape.first_occurrences
        (Shape.own_names node ++ concat (map AST.free (Shape.children node)))%list
    /\ NoDup (AST.free node)
    /\ (forall x, In x (AST.free node) <->
                  In x (Shape.own_names node)
                  \/ exists child, In child (Shape.children node) /\ In x (AST.free child))
    /\ AST.unique [AST.free node] = AST.free node
    /\ (forall first second, first = AST.free node -> second = AST.free node -> first = second).
Proof.
  intro node.
  assert (H : AST.free node
              = Shape.first_occurrences
                  (Shape.own_names node ++ concat (map AST.free (Shape.children node)))%list).
  { destruct node as [value | name | operator inner | operator l r | name parameters | l r
                      | components | text | fragments | name source | keyName valueName source];
      cbn [AST.free Shape.own_names Shape.children];
      unfold AST.ReferenceNode_free, AST.InterpolatedNode_free, AST.IterationNode_free.
    - reflexivity.
    - reflexivity.
    - cbn [map concat app]. rewrite app_nil_r.
      symmetry. apply first_occurrences_id. apply free_NoDup.
    - rewrite unique_spec. reflexivity.
    - rewrite unique_spec. reflexivity.
    - rewrite unique_spec. reflexivity.
    - destruct components as [| [root | index] rest]; rewrite unique_spec.
      + reflexivity.
      + cbn [concat flat_map app]. rewrite (component_concat rest). reflexivity.
      + rewrite component_concat. reflexivity.
    - reflexivity.
    - rewrite unique_spec. reflexivity.
    - rewrite unique_spec. reflexivity.
    - rewrite unique_spec. reflexivity. }
  split; [exact H |]. split; [apply free_NoDup |]. split; [| split].
  - intro x. rewrite H. unfold Shape.first_occurrences.
    rewrite first_occurrences_after_In, in_app_iff, in_concat. split.
    + intros [[Hown | (l & Hl & Hx)] _]; [left; exact Hown |].
      apply in_map_iff in Hl. destruct Hl as (child & <- & Hchild).
      right. exists child. split; assumption.
    + intros [Hown | (child & Hchild & Hx)]; (split; [| intros []]).
      * left. exact Hown.
      * right. exists (AST.free child). split; [apply in_map; exact Hchild | exact Hx].
  - rewrite unique_spec. simpl. rewrite app_nil_r.
    apply first_occurrences_id. apply free_NoDup.
  - intros first second -> ->. reflexivity.
Qed.

(* ===================================================================== *)
(** * The order of the lexical rules *)
(* ===================================================================== *)

Section RuleOrder.

Import LexerMethods.

Lemma starts_with_refl_append s rest : Str.starts_with s (s ++ rest) = true.
Proof.
  induction s as [| c s IH]; simpl; [reflexivity |].
  rewrite Ascii.eqb_refl. exact IH.
Qed.

Lemma take_while_prefix p s : Str.starts_with (Str.take_while p s) s = true.
Proof.
  induction s as [| c s IH]; simpl; [reflexivity |].
  destruct (p c); simpl; [| reflexivity].
  rewrite Ascii.eqb_refl. exact IH.
Qed.

(** the text the identifier rule matches is a prefix of the input *)
Lemma identifier_prefix input label :
  RegExp.identifier input = Some label -> Str.starts_with label input = true.
Proof.
  unfold RegExp.identifier. destruct input as [| c rest]; [discriminate |].
  destruct (Str.is_name_start c); [| discriminate].
  intro H. injection H as <-. simpl. rewrite Ascii.eqb_refl. apply take_while_prefix.
Qed.

(** when the identifier rule matches exactly [in], the rule [/^in\b/]
    matches too *)
Lemma identifier_in input :
  RegExp.identifier input = Some "in" -> RegExp.keyword_in input = Some "in".
Proof.
  unfold RegExp.identifier, RegExp.keyword_in.
  destruct input as [| c rest]; [discriminate |].
  destruct (Str.is_name_start c); [| discriminate].
  intro H. injection H as -> H.
  destruct rest as [| d rest]; [discriminate H |].
  cbn [Str.take_while] in H. destruct (Str.is_word d); [| discriminate H].
  injection H as -> H.
  destruct rest as [| e rest]; [reflexivity |].
  cbn [Str.take_while] in H. destruct (Str.is_word e); [discriminate H | reflexivity].
Qed.

Ltac rule_fails E Ht :=
  match type of E with
  | context [match ?p (_input ?lx) with _ => _ end] =>
      let R := fresh "R" in
      destruct (p (_input lx)) eqn:R;
      [ try (injection E as <-; cbn in Ht; discriminate Ht) | ]
  end.

(** When the switch of [next] makes a name, none of the four keyword rules
    matched, and the label is what the identifier rule matched. *)
Lemma name_from_switch lx lx' :
  next_switch lx = Return T_name lx' ->
  RegExp.literal "undefined" (_input lx) = None
  /\ RegExp.literal "true" (_input lx) = None
  /\ RegExp.literal "false" (_input lx) = None
  /\ RegExp.keyword_in (_input lx) = None
  /\ RegExp.identifier (_input lx) = Some (_label lx').
Proof.
  unfold next_switch. destruct (first_match rules lx) as [lx1 |] eqn:E; [| discriminate].
  intro H. injection H as Ht <-.
  unfold rules in E. cbn [first_match] in E. unfold _match, _read in E.
  rule_fails E Ht. rule_fails E Ht. rule_fails E Ht. rule_fails E Ht.
  rule_fails E Ht.
  - injection E as <-. cbn. auto.
  - repeat rule_fails E Ht. discriminate E.
Qed.

Lemma literal_matches lit input :
  Str.starts_with lit input = true -> RegExp.literal lit input = Some lit.
Proof. unfold RegExp.literal. intros ->. reflexivity. Qed.

Lemma name_is_no_keyword_switch lx lx' :
  next_switch lx = Return T_name lx' -> ~ In (_label lx') keywords.
Proof.
  intro H. apply name_from_switch in H.
  destruct H as (Hundefined & Htrue & Hfalse & Hin & Hname).
  pose proof (identifier_prefix _ _ Hname) as Hprefix.
  unfold keywords. simpl. intros [E | [E | [E | [E | []]]]]; rewrite <- E in *.
  - rewrite (literal_matches _ _ Hprefix) in Hundefined. discriminate.
  - rewrite (literal_matches _ _ Hprefix) in Htrue. discriminate.
  - rewrite (literal_matches _ _ Hprefix) in Hfalse. discriminate.
  - rewrite (identifier_in _ Hname) in Hin. discriminate.
Qed.

(** the switch, when one of the keyword rules matches *)
Lemma keyword_from_switch lx :
  RegExp.literal "undefined" (_input lx) <> None
  \/ RegExp.literal "true" (_input lx) <> None
  \/ RegExp.literal "false" (_input lx) <> None
  \/ RegExp.keyword_in (_input lx) <> None ->
  exists token lx', next_switch lx = Return token lx'
                    /\ In token [T_undefined; T_true; T_false; T_in].
Proof.
  intro H. unfold next_switch, rules. cbn [first_match]. unfold _match, _read.
  destruct (RegExp.literal "undefined" (_input lx)); [eexists; eexists; split; [reflexivity | simpl; auto] |].
  destruct (RegExp.literal "true" (_input lx)); [eexists; eexists; split; [reflexivity | simpl; auto] |].
  destruct (RegExp.literal "false" (_input lx)); [eexists; eexists; split; [reflexivity | simpl; auto] |].
  destruct (RegExp.keyword_in (_input lx)); [eexists; eexists; split; [reflexivity | simpl; auto] |].
  exfalso. destruct H as [H | [H | [H | H]]]; apply H; reflexivity.
Qed.

End RuleOrder.

(** C3, as amended.  The rules of the lexer are tried in their fixed order
    and the first that matches wins.  They are not mutually exclusive, and
    the order is what decides: when [next] makes a token of kind [name], its
    label is none of [undefined], [true], [false], [in]; and where one of
    the four keyword rules matches the input that the switch of [next]
    sees, the token is a keyword token. *)
Theorem C3_keyword_rules_win_by_their_place :
  forall (lx lx' : Lexer),
    LexerMethods.next lx = Return T_name lx' ->
    ~ In (_label lx') keywords
    /\ (forall seen : Lexer,
          RegExp.literal "undefined" (_input seen) <> None
          \/ RegExp.literal "true" (_input seen) <> None
          \/ RegExp.literal "false" (_input seen) <> None
          \/ RegExp.keyword_in (_input seen) <> None ->
          exists token after,
            LexerMethods.next_switch seen = Return token after
            /\ In token [T_undefined; T_true; T_false; T_in]).
Proof.
  intros lx lx' H. split; [| apply keyword_from_switch].
  unfold LexerMethods.next in H.
  destruct (Str.is_empty (_input lx)); [discriminate H |].
  destruct (LexerMethods._read RegExp.spaces lx) as [[label lx1] |].
  - destruct (Str.is_empty (_input lx1)); [discriminate H |].
    apply (name_is_no_keyword_switch _ _ H).
  - apply (name_is_no_keyword_switch _ _ H).
Qed.

(** The rule applied to the input [inx], which the identifier rule takes as
    one name although it starts with a keyword text. *)
Lemma C3_witness :
  LexerMethods.next (new_Lexer "inx") = Return T_name (mkLexer "inx" "" T_name "inx")
  /\ ~ In "inx" keywords.
Proof.
  split; [reflexivity |].
  apply (C3_keyword_rules_win_by_their_place (new_Lexer "inx") (mkLexer "inx" "" T_name "inx")).
  reflexivity.
Defined.

(** C3, as stated, fails.  On the input [true] the keyword rule and the
    identifier rule both match, on [>=] the rule of the two-character
    operators and the rule of the one-character operators, on [>>>] all
    three operator rules, on [||] an operator rule and the pipe rule: more
    than one rule matches a prefix.  (And [trueFlag] becomes the keyword
    [true] followed by the name [Flag].) *)
Lemma C3_rules_are_not_mutually_exclusive :
  matching_rules "true" = [T_true; T_name]
  /\ matching_rules "in" = [T_in; T_name]
  /\ matching_rules ">=" = [T_operator; T_operator]
  /\ matching_rules ">>>" = [T_operator; T_operator; T_operator]
  /\ matching_rules "||" = [T_operator; T_pipe]
  /\ LexerMethods.tokenize "trueFlag" = ([(T_true, "true"); (T_name, "Flag"); (T_end, "")], None).
Proof. repeat split. Qed.

(** C5, as amended.  For every expression, context and console, each of the
    six typed safe evaluators never throws.  When the evaluation of the
    expression throws, the evaluator returns its default and the console
    has one more line, the error.  When the evaluation returns [v], the
    console is unchanged and the evaluator returns [!!v] (boolean), [~~v]
    (integer: the number of [v] cut toward zero and wrapped into the signed
    32-bit range), [+v] (number), [String(v)] (string), [[].concat(v)]
    (collection: the array [v] itself, or [v] as the only element), and [v]
    unchanged (dictionary).  The results of the first five are of the
    declared type; below [2 ** 31] in absolute value the integer variant is
    the cut toward zero. *)
Theorem C5_safe_evaluators_catch_log_and_convert :
  forall (variant : Safe.Variant) (expression : Node) (this : Dictionary)
         (console : Compiled.Console),
    (forall e console',
        Safe.evaluator variant expression this console <> Some (Abrupt e, console'))
    /\ match Js.evaluate this expression with
       | Some (Abrupt e) =>
           Safe.evaluator variant expression this console
           = Some (Normal (Safe.default variant), (console ++ [e])%list)
       | Some (Normal v) =>
           Safe.evaluator variant expression this console
           = option_map (fun x => (Normal x, console)) (Safe.conversion variant v)
       | None => Safe.evaluator variant expression this console = None
       end
    /\ Safe.declared variant (Safe.default variant) = true
    /\ (forall v,
          variant <> Safe.Dictionary_ ->
          match Safe.conversion variant v with
          | Some x => Safe.declared variant x = true
          | None => True
          end)
    /\ (forall v, Safe.conversion Safe.Dictionary_ v = Some v)
    /\ (forall q,
          (-2147483648 <= Number.truncate q <= 2147483647)%Z ->
          Js.ToInt32 (Finite q) = Number.truncate q)
    /\ (forall v, Js.is_primitive v = true \/ (exists properties, v = V_object properties) ->
                  Js.concat_into_array v = [v]).
Proof.
  intros variant expression this console. repeat split.
  - intros e console' H. rewrite evaluator_spec in H.
    destruct (Js.evaluate this expression) as [[v | e'] |]; try discriminate H.
    destruct (Safe.conversion variant v); discriminate H.
  - rewrite evaluator_spec.
    destruct (Js.evaluate this expression) as [[v | e] |]; reflexivity.
  - destruct variant; reflexivity.
  - intros v Hvariant. destruct variant; cbn [Safe.conversion].
    + reflexivity.
    + destruct (Js.ToNumber v); cbn [option_map]; [apply declared_int32 | exact I].
    + destruct (Js.ToNumber v); reflexivity.
    + destruct (Js.ToString v); reflexivity.
    + reflexivity.
    + contradiction Hvariant. reflexivity.
  - intros q H. cbn [Js.ToInt32]. apply wrap32_small. exact H.
  - intros v [H | [properties ->]]; [| reflexivity].
    destruct v; try reflexivity. discriminate H.
Qed.

(** C5, as stated, fails: the dictionary variant converts nothing.  The
    expression [1] evaluates to the number 1, and [compileSafeDictionary]
    returns that number, which is no dictionary.  And the integer variant
    does not cut [2147483648] toward zero, which would leave it as it is:
    [~~] wraps it to [-2147483648]. *)
Lemma C5_dictionary_safe_returns_a_number :
  Expressions.parse 24 "1" = Ok (literal_number 1)
  /\ Compiled.compileSafeDictionary (literal_number 1) [] [] = Some (Normal (number 1), [])
  /\ Safe.declared Safe.Dictionary_ (number 1) = false
  /\ Expressions.parse 24 "2147483648" = Ok (literal_number 2147483648)
  /\ Compiled.compileSafeInteger (literal_number 2147483648) [] []
     = Some (Normal (number (-2147483648)), [])
  /\ Number.truncate (inject_Z 2147483648) = 2147483648%Z.
Proof. repeat split. Qed.

(* ===================================================================== *)
(** * Further properties of the lexer *)
(* ===================================================================== *)

Section LexerLabels.

Import LexerMethods.

Lemma starts_with_split l s :
  Str.starts_with l s = true -> s = (l ++ Str.substr (String.length l) s)%string.
Proof.
  revert s. induction l as [| c l IH]; intros s H; [reflexivity |].
  destruct s as [| d s]; [discriminate H |].
  simpl in H. apply Bool.andb_true_iff in H. destruct H as [Hc Hl].
  apply Ascii.eqb_eq in Hc. subst d. simpl. f_equal. apply IH. exact Hl.
Qed.

Lemma starts_with_length l s :
  Str.starts_with l s = true -> String.length l <= String.length s.
Proof.
  revert s. induction l as [| c l IH]; intros s H; simpl; [lia |].
  destruct s as [| d s]; [discriminate H |].
  simpl in H. apply Bool.andb_true_iff in H. destruct H as [_ Hl].
  specialize (IH s Hl). simpl. lia.
Qed.

Lemma every_take_while p s : Str.every p (Str.take_while p s) = true.
Proof.
  induction s as [| c s IH]; simpl; [reflexivity |].
  destruct (p c) eqn:E; simpl; [rewrite E; exact IH | reflexivity].
Qed.

Lemma last_cons c s x : Label.last s = Some x -> Label.last (String c s) = Some x.
Proof. destruct s; [discriminate | intro H; exact H]. Qed.

(** what the group and the closing quote of a string pattern match ends
    with the quote and is a prefix of the input *)
Lemma quoted_tail_spec q n : forall s m,
  String.length s <= n ->
  RegExp.quoted_tail q s = Some m ->
  Label.last m = Some q /\ Str.starts_with m s = true.
Proof.
  induction n as [| n IH]; intros s m Hn H.
  - destruct s; [discriminate H | simpl in Hn; lia].
  - destruct s as [| c s1]; [discriminate H |].
    cbn [RegExp.quoted_tail] in H.
    destruct (Ascii.eqb c q) eqn:Ec.
    + injection H as <-. apply Ascii.eqb_eq in Ec. subst c.
      simpl. rewrite Ascii.eqb_refl. auto.
    + destruct s1 as [| b [| c2 s2]]; try discriminate H.
      destruct (Ascii.eqb b "\"%char && Ascii.eqb c2 q)%bool; [| discriminate H].
      destruct (RegExp.quoted_tail q s2) as [m' |] eqn:E; [| discriminate H].
      injection H as <-.
      assert (Hlen : String.length s2 <= n) by (simpl in Hn; lia).
      destruct (IH s2 m' Hlen E) as [Hlast Hprefix]. split.
      * apply last_cons, last_cons, last_cons. exact Hlast.
      * simpl. rewrite !Ascii.eqb_refl. exact Hprefix.
Qed.

Lemma first_alternative_starts alts s a :
  RegExp.first_alternative alts s = Some a -> Str.starts_with a s = true.
Proof.
  induction alts as [| x alts IH]; simpl; [discriminate |].
  destruct (Str.starts_with x s) eqn:E; [intro H; injection H as <-; exact E | exact IH].
Qed.

(** the leftmost match of an alternation lies inside the input *)
Lemma search_length alts s a :
  RegExp.search alts s = Some a -> String.length a <= String.length s.
Proof.
  induction s as [| c s IH]; simpl.
  - destruct (RegExp.first_alternative alts "") eqn:E; [| discriminate].
    intro H. injection H as <-. apply (starts_with_length _ _ (first_alternative_starts _ _ _ E)).
  - destruct (RegExp.first_alternative alts (String c s)) eqn:E.
    + intro H. injection H as <-.
      apply (starts_with_length _ _ (first_alternative_starts _ _ _ E)).
    + intro H. specialize (IH H). lia.
Qed.

Lemma alternation_spec anchored others input label :
  RegExp.alternation anchored others input = Some label ->
  In label (anchored :: others) /\ String.length label <= String.length input.
Proof.
  unfold RegExp.alternation. destruct (Str.starts_with anchored input) eqn:E.
  - intro H. injection H as <-. split; [left; reflexivity | apply starts_with_length; exact E].
  - intro H. split; [right; apply (search_In _ _ _ H) | apply (search_length _ _ _ H)].
Qed.

(** Every rule of [next]: the label is one of its kind and no longer than
    the input, and for every rule but the three operator rules it is the
    start of the input. *)
Lemma rules_labels :
  Forall (fun r => forall input label, snd r input = Some label ->
            Label.of_kind (fst r) label = true
            /\ String.length label <= String.length input
            /\ (fst r <> T_operator -> Str.starts_with label input = true))
         rules.
Proof.
  assert (Hliteral : forall t lit, Label.of_kind t lit = true ->
            forall input label, RegExp.literal lit input = Some label ->
            Label.of_kind t label = true
            /\ String.length label <= String.length input
            /\ (t <> T_operator -> Str.starts_with label input = true)).
  { intros t lit Hlit input label. unfold RegExp.literal.
    destruct (Str.starts_with lit input) eqn:E; [| discriminate].
    intro H. injection H as <-.
    split; [exact Hlit |]. split; [apply starts_with_length; exact E | intros _; exact E]. }
  assert (Hquoted : forall q, (Ascii.eqb q double_quote || Ascii.eqb q single_quote)%bool = true ->
            forall input label, RegExp.quoted q input = Some label ->
            Label.of_kind T_string label = true
            /\ String.length label <= String.length input
            /\ (T_string <> T_operator -> Str.starts_with label input = true)).
  { intros q Hq input label. unfold RegExp.quoted. destruct input as [| c rest]; [discriminate |].
    destruct (Ascii.eqb c q) eqn:Ec; [| discriminate].
    destruct (RegExp.quoted_tail q rest) as [m |] eqn:E; [| discriminate].
    intro H. injection H as <-. apply Ascii.eqb_eq in Ec. subst c.
    destruct (quoted_tail_spec q (String.length rest) rest m (Nat.le_refl _) E) as [Hlast Hprefix].
    assert (Hstart : Str.starts_with (String q m) (String q rest) = true)
      by (simpl; rewrite Ascii.eqb_refl; exact Hprefix).
    split; [| split; [apply starts_with_length; exact Hstart | intros _; exact Hstart]].
    cbn [Label.of_kind]. unfold Label.is_quoted.
    destruct m as [| c m]; [discriminate Hlast |].
    rewrite Hq, Hlast, Ascii.eqb_refl. reflexivity. }
  assert (Hoperators : forall anchored others,
            (forall l, In l (anchored :: others) ->
                       existsb (String.eqb l) Label.operators = true) ->
            forall input label, RegExp.alternation anchored others input = Some label ->
            Label.of_kind T_operator label = true
            /\ String.length label <= String.length input
            /\ (T_operator <> T_operator -> Str.starts_with label input = true)).
  { intros anchored others Hall input label H.
    destruct (alternation_spec _ _ _ _ H) as [Hin Hlen].
    split; [apply Hall; exact Hin |]. split; [exact Hlen |].
    intro Hne. contradiction Hne. reflexivity. }
  unfold rules. repeat apply Forall_cons; try apply Forall_nil; cbn [fst snd];
    try (apply Hliteral; reflexivity); try (apply Hquoted; reflexivity).
  - intros input label. unfold RegExp.keyword_in.
    destruct input as [| c [| d rest]]; try discriminate;
      destruct c as [[] [] [] [] [] [] [] []]; try discriminate.
    destruct d as [[] [] [] [] [] [] [] []]; try discriminate.
    assert (Hin : Label.of_kind T_in "in" = true
                  /\ String.length "in" <= String.length (String "i" (String "n" rest))
                  /\ (T_in <> T_operator ->
                      Str.starts_with "in" (String "i" (String "n" rest)) = true)).
    { split; [reflexivity |]. split; [simpl; lia | intros _; reflexivity]. }
    destruct rest as [| e rest]; [intro H; injection H as <-; exact Hin |].
    destruct (Str.is_word e); [discriminate | intro H; injection H as <-; exact Hin].
  - intros input label H. pose proof (identifier_prefix _ _ H) as Hprefix.
    split; [| split; [apply starts_with_length; exact Hprefix | intros _; exact Hprefix]].
    unfold RegExp.identifier in H. destruct input as [| c rest]; [discriminate |].
    destruct (Str.is_name_start c) eqn:Ec; [| discriminate]. injection H as <-.
    cbn [Label.of_kind Label.is_identifier]. rewrite Ec, every_take_while. reflexivity.
  - intros input label. unfold RegExp.digits.
    pose proof (every_take_while Str.is_digit input) as Hevery.
    pose proof (take_while_prefix Str.is_digit input) as Hprefix.
    destruct (Str.take_while Str.is_digit input) as [| c m]; [discriminate |].
    intro H. injection H as <-.
    split; [| split; [apply starts_with_length; exact Hprefix | intros _; exact Hprefix]].
    cbn [Label.of_kind]. unfold Label.is_number. rewrite Hevery. reflexivity.
  - apply Hoperators. intros l Hl. simpl in Hl.
    repeat (destruct Hl as [<- | Hl]; [reflexivity |]). contradiction Hl.
  - apply Hoperators. intros l Hl. simpl in Hl.
    repeat (destruct Hl as [<- | Hl]; [reflexivity |]). contradiction Hl.
  - apply Hoperators. intros l Hl. simpl in Hl.
    repeat (destruct Hl as [<- | Hl]; [reflexivity |]). contradiction Hl.
Qed.

(** the first rule that matches, with what its pattern matched *)
Lemma first_match_rule rs lx lx' :
  first_match rs lx = Some lx' ->
  exists token pattern label,
    In (token, pattern) rs /\ pattern (_input lx) = Some label
    /\ lx' = mkLexer (originalInput lx)
                     (Str.substr (String.length label) (_input lx)) token label.
Proof.
  induction rs as [| [token pattern] rs IH]; simpl; [discriminate |].
  unfold _match at 1, _read at 1.
  destruct (pattern (_input lx)) as [label |] eqn:E.
  - intro H. injection H as <-. exists token, pattern, label. auto.
  - intro H. destruct (IH H) as (t & p & l & Hin & Hp & Hlx).
    exists t, p, l. auto.
Qed.

(** the switch of [next]: the token, its label, and what is left of the
    input *)
Lemma next_switch_label lx t lx' :
  next_switch lx = Return t lx' ->
  _token lx' = t
  /\ Label.of_kind t (_label lx') = true
  /\ String.length (_input lx) = String.length (_label lx') + String.length (_input lx')
  /\ (t <> T_operator -> _input lx = (_label lx' ++ _input lx')%string).
Proof.
  unfold next_switch. destruct (first_match rules lx) as [lx1 |] eqn:E; [| discriminate].
  intro H. injection H as <- <-.
  destruct (first_match_rule _ _ _ E) as (token & pattern & label & Hin & Hp & ->).
  pose proof rules_labels as Hrules. rewrite Forall_forall in Hrules.
  destruct (Hrules _ Hin _ _ Hp) as (Hkind & Hlen & Hprefix). cbn [fst snd] in *.
  cbn [_token _label _input]. split; [reflexivity |]. split; [exact Hkind |]. split.
  - rewrite substr_length. lia.
  - intro Hne. apply starts_with_split. apply Hprefix. exact Hne.
Qed.

Lemma string_length_append (a b : string) :
  String.length (a ++ b) = String.length a + String.length b.
Proof. induction a as [| c a IH]; simpl; [reflexivity | rewrite IH; reflexivity]. Qed.

Lemma every_append p a b :
  Str.every p a = true -> Str.every p b = true -> Str.every p (a ++ b) = true.
Proof.
  induction a as [| c a IH]; simpl; intros Ha Hb; [exact Hb |].
  apply Bool.andb_true_iff in Ha. destruct Ha as [Hc Ha]. rewrite Hc. apply IH; assumption.
Qed.

Lemma is_empty_true s : Str.is_empty s = true -> s = "".
Proof. destruct s; [reflexivity | discriminate]. Qed.

(** what [_read(/^\s+/)] takes is white space at the start of the input *)
Lemma read_spaces lx label lx1 :
  _read RegExp.spaces lx = Some (label, lx1) ->
  Str.every Str.is_space label = true
  /\ _input lx = (label ++ _input lx1)%string
  /\ lx1 = mkLexer (originalInput lx) (_input lx1) (_token lx) (_label lx).
Proof.
  unfold _read, RegExp.spaces.
  pose proof (every_take_while Str.is_space (_input lx)) as Hevery.
  pose proof (starts_with_split _ _ (take_while_prefix Str.is_space (_input lx))) as Hsplit.
  destruct (Str.take_while Str.is_space (_input lx)) as [| c m]; [discriminate |].
  intro H. injection H as <- <-. split; [exact Hevery |]. split; [exact Hsplit | reflexivity].
Qed.

(** [next], when it returns: the white space it skipped, the token, its
    label and what is left of the input *)
Lemma next_label lx t lx' :
  next lx = Return t lx' ->
  exists skipped,
    Str.every Str.is_space skipped = true
    /\ _token lx' = t
    /\ Label.of_kind t (_label lx') = true
    /\ String.length (_input lx)
       = String.length skipped + String.length (_label lx') + String.length (_input lx')
    /\ (t <> T_operator -> _input lx = (skipped ++ _label lx' ++ _input lx')%string).
Proof.
  unfold next. destruct (Str.is_empty (_input lx)) eqn:Hempty.
  - intro H. injection H as <- <-. apply is_empty_true in Hempty.
    exists "". cbn. rewrite Hempty. auto.
  - destruct (_read RegExp.spaces lx) as [[label lx1] |] eqn:Eread.
    + destruct (read_spaces _ _ _ Eread) as (Hevery & Hsplit & _).
      assert (Hlen : String.length (_input lx)
                     = String.length label + String.length (_input lx1)).
      { rewrite Hsplit at 1. apply string_length_append. }
      destruct (Str.is_empty (_input lx1)) eqn:Hempty1.
      * intro H. injection H as <- <-. apply is_empty_true in Hempty1.
        exists label. cbn [_token _label _input Label.of_kind].
        rewrite Hempty1 in *. split; [exact Hevery |]. split; [reflexivity |].
        split; [reflexivity |]. split; [simpl in *; lia |].
        intros _. exact Hsplit.
      * intro H. apply next_switch_label in H.
        destruct H as (Ht & Hkind & Hl & Hprefix).
        exists label. split; [exact Hevery |]. split; [exact Ht |].
        split; [exact Hkind |]. split; [lia |].
        intro Hne. rewrite Hsplit at 1. rewrite <- (Hprefix Hne). reflexivity.
    + intro H. apply next_switch_label in H. destruct H as (Ht & Hkind & Hl & Hprefix).
      exists "". split; [reflexivity |]. split; [exact Ht |]. split; [exact Hkind |].
      split; [simpl; lia | exact Hprefix].
Qed.

End LexerLabels.

Section LexerContract.

Import LexerMethods.

Lemma substr_append_both a b s :
  Str.substr (String.length (a ++ b)) (a ++ s) = Str.substr (String.length b) s.
Proof. induction a as [| c a IH]; simpl; [reflexivity | exact IH]. Qed.

(** the tokens after a token other than [end] *)
Lemma tokens_from_step n lx t lx' :
  next lx = Return t lx' -> t <> T_end ->
  tokens_from (S n) lx = (let (ts, e) := tokens_from n lx' in ((t, _label lx') :: ts, e)).
Proof.
  intros H Hne. simpl. rewrite H. destruct t; try reflexivity. contradiction Hne. reflexivity.
Qed.

(** [next] called again and again reaches [end] or throws before the fuel
    [n] is used up, when [n] is the size of the lexer or more. *)
Lemma tokens_from_complete n : forall lx,
  _token lx <> T_end -> size lx <= n ->
  length (fst (tokens_from n lx)) <= n
  /\ Forall (fun tl => Label.of_kind (fst tl) (snd tl) = true) (fst (tokens_from n lx))
  /\ match snd (tokens_from n lx) with
     | None =>
         exists before,
           fst (tokens_from n lx) = (before ++ [(T_end, "")])%list
           /\ Forall (fun tl => fst tl <> T_end) before
     | Some e =>
         e = MVC.SyntaxError (originalInput lx)
         /\ Forall (fun tl => fst tl <> T_end) (fst (tokens_from n lx))
     end.
Proof.
  induction n as [| n IH]; intros lx Hne Hsize.
  - rewrite (size_not_end lx Hne) in Hsize. lia.
  - pose proof (next_spec lx) as Hspec. pose proof (next_size lx) as Hnext.
    destruct (next lx) as [t lx1 | e |] eqn:E.
    + destruct Hspec as [Horiginal Ht].
      destruct (Hnext _ _ eq_refl) as [_ Hless]. specialize (Hless Hne).
      destruct (next_label _ _ _ E) as (_ & _ & _ & Hkind & _).
      destruct (Token_eqb T_end t) eqn:Eend.
      * apply Token_eqb_eq in Eend. rewrite <- Eend in E. simpl. rewrite E.
        split; [simpl; lia |]. split; [repeat constructor |].
        exists []. split; [reflexivity | constructor].
      * assert (Hne1 : t <> T_end).
        { intro Habs. rewrite Habs in Eend. discriminate Eend. }
        rewrite (tokens_from_step n lx t lx1 E Hne1).
        assert (Hne1' : _token lx1 <> T_end) by (rewrite <- Ht; exact Hne1).
        assert (Hsize1 : size lx1 <= n) by lia.
        destruct (IH lx1 Hne1' Hsize1) as (Hlen & Hkinds & Hend).
        destruct (tokens_from n lx1) as [ts e]. cbn [fst snd] in *.
        split; [simpl; lia |].
        split; [apply Forall_cons; [exact Hkind | exact Hkinds] |].
        destruct e as [e |].
        -- destruct Hend as [-> Hall]. rewrite Horiginal.
           split; [reflexivity | apply Forall_cons; [exact Hne1 | exact Hall]].
        -- destruct Hend as (before & -> & Hall).
           exists ((t, _label lx1) :: before). split; [reflexivity |].
           apply Forall_cons; [exact Hne1 | exact Hall].
    + simpl. rewrite E. cbn [fst snd length]. split; [lia |].
      split; [constructor |]. split; [exact Hspec | constructor].
    + contradiction Hspec.
Qed.

End LexerContract.

(** X1.  The label of a token.  When [next] returns, the token it returns
    is the current token, and the label is one of that kind: the keyword's
    own text for [undefined], [true], [false] and [in], an identifier for a
    name, one decimal digit or more for a number, a text between two equal
    quote characters for a string, one of the twenty-one operator texts for
    an operator, the character itself for the punctuation tokens, and the
    empty text for [end].  [next] never returns [begin]. *)
Theorem X1_label_of_each_token_kind :
  forall (lx lx' : Lexer) (t : Token),
    LexerMethods.next lx = Return t lx' ->
    _token lx' = t /\ t <> T_begin /\ Label.of_kind t (_label lx') = true.
Proof.
  intros lx lx' t H. destruct (next_label _ _ _ H) as (skipped & _ & Ht & Hkind & _).
  split; [exact Ht |]. split; [| exact Hkind].
  intro Hbegin. rewrite Hbegin in Hkind. discriminate Hkind.
Qed.

(** The property on the input [  >= 1], where [next] skips two spaces and
    makes the operator [>=]. *)
Lemma X1_witness :
  LexerMethods.next (new_Lexer "  >= 1") = Return T_operator (mkLexer "  >= 1" " 1" T_operator ">=")
  /\ Label.of_kind T_operator ">=" = true.
Proof.
  split; [reflexivity |].
  apply (X1_label_of_each_token_kind (new_Lexer "  >= 1")
           (mkLexer "  >= 1" " 1" T_operator ">=") T_operator).
  reflexivity.
Defined.

(** X2.  Nothing of the input is lost between two tokens, except by the
    operator rules.  When [next] returns a token that is not an operator,
    the remaining input before the call is white space, then the label,
    then the remaining input after the call.  For every token, operators
    included, the lengths add up that way: [_read] drops as many characters
    as the label is long. *)
Theorem X2_next_takes_the_label_off_the_input :
  forall (lx lx' : Lexer) (t : Token),
    LexerMethods.next lx = Return t lx' ->
    exists skipped,
      Str.every Str.is_space skipped = true
      /\ String.length (_input lx)
         = String.length skipped + String.length (_label lx') + String.length (_input lx')
      /\ (t <> T_operator -> _input lx = skipped ++ _label lx' ++ _input lx').
Proof.
  intros lx lx' t H.
  destruct (next_label _ _ _ H) as (skipped & Hspace & _ & _ & Hlen & Hprefix).
  exists skipped. split; [exact Hspace |]. split; [exact Hlen | exact Hprefix].
Qed.

(** The property on the input [ ab+c]. *)
Lemma X2_witness :
  exists skipped,
    Str.every Str.is_space skipped = true
    /\ String.length " ab+c" = String.length skipped + String.length "ab" + String.length "+c"
    /\ (T_name <> T_operator -> " ab+c" = skipped ++ "ab" ++ "+c").
Proof.
  apply (X2_next_takes_the_label_off_the_input (new_Lexer " ab+c")
           (mkLexer " ab+c" "+c" T_name "ab") T_name).
  reflexivity.
Defined.

(** white space before the input changes nothing *)
Lemma next_after_white_space original space input token label :
  Str.every Str.is_space space = true ->
  LexerMethods.next (mkLexer original (space ++ input) token label)
  = LexerMethods.next (mkLexer original input token label).
Proof.
  intro Hspace.
  destruct space as [| c space]; [reflexivity |].
  assert (Hread : LexerMethods._read RegExp.spaces
                    (mkLexer original (String c space ++ input) token label)
                  = Some (String c space ++ Str.take_while Str.is_space input,
                          mkLexer original
                            (Str.substr (String.length (Str.take_while Str.is_space input)) input)
                            token label)).
  { unfold LexerMethods._read, RegExp.spaces. cbn [_input originalInput _token _label].
    rewrite (take_while_every_append Str.is_space (String c space) input Hspace).
    cbn [append]. cbn [String.length Str.substr]. rewrite substr_append_both. reflexivity. }
  unfold LexerMethods.next at 1. rewrite Hread. cbn [_input append Str.is_empty].
  unfold LexerMethods.next, LexerMethods._read, RegExp.spaces.
  cbn [_input originalInput _token _label].
  destruct input as [| d rest]; [reflexivity |].
  destruct (Str.take_while Str.is_space (String d rest)) as [| e m] eqn:E; reflexivity.
Qed.


(** X3.  White space before a token changes nothing.  [next] on an input
    with white space put before it returns what it returns on the input
    itself: the same token, label and remaining input; on white space alone
    it returns [end]. *)
Theorem X3_leading_white_space_is_skipped :
  forall (original space input : string) (token : Token) (label : string),
    Str.every Str.is_space space = true ->
    LexerMethods.next (mkLexer original (space ++ input) token label)
    = LexerMethods.next (mkLexer original input token label)
    /\ LexerMethods.next (mkLexer original space token label)
       = Return T_end (mkLexer original "" T_end "").
Proof.
  intros original space input token label Hspace.
  split; [apply next_after_white_space; exact Hspace |].
  rewrite <- (append_empty space) at 1.
  rewrite (next_after_white_space original space "" token label Hspace). reflexivity.
Qed.

(** The property with a tab and a space before [in x]. *)
Lemma X3_witness :
  LexerMethods.next (mkLexer "o" (String "009" " " ++ "in x") T_begin "")
  = LexerMethods.next (mkLexer "o" "in x" T_begin "")
  /\ LexerMethods.next (mkLexer "o" (String "009" " ") T_begin "")
     = Return T_end (mkLexer "o" "" T_end "").
Proof.
  apply (X3_leading_white_space_is_skipped "o" (String "009" " ") "in x" T_begin "").
  reflexivity.
Defined.

(** X4.  The token [end] is final.  Once [next] has returned [end], the
    remaining input is empty and the label is empty, and every further call
    of [next] returns [end] again and leaves the lexer as it is. *)
Theorem X4_end_is_final :
  forall (lx lx' : Lexer),
    LexerMethods.next lx = Return T_end lx' ->
    _input lx' = "" /\ _label lx' = ""
    /\ LexerMethods.next lx' = Return T_end lx'
    /\ forall n, advance n lx' = Some lx'.
Proof.
  intros lx lx' H.
  destruct (next_label _ _ _ H) as (_ & _ & Ht & Hkind & _).
  pose proof (next_at_end_when_empty _ _ _ H Ht) as Hinput.
  cbn [Label.of_kind] in Hkind. apply String.eqb_eq in Hkind.
  assert (Hnext : LexerMethods.next lx' = Return T_end lx').
  { unfold LexerMethods.next. rewrite Hinput. cbn [Str.is_empty].
    unfold LexerMethods.next_end. destruct lx' as [o i t l]. cbn in *. subst. reflexivity. }
  split; [exact Hinput |]. split; [exact Hkind |]. split; [exact Hnext |].
  induction n as [| n IH]; [reflexivity |]. simpl. rewrite Hnext. exact IH.
Qed.

(** The property on the input of one space. *)
Lemma X4_witness :
  LexerMethods.next (mkLexer " " "" T_end "") = Return T_end (mkLexer " " "" T_end "").
Proof.
  apply (X4_end_is_final (new_Lexer " ") (mkLexer " " "" T_end "")).
  reflexivity.
Defined.

(** X5.  The lexer comes to an end.  Calling [next] again and again on a
    new lexer reaches the token [end] or throws after at most as many
    tokens as the input has characters: the list of tokens has at most one
    entry more than the input has characters, every token in it has a
    label of its kind, [end] is only the last entry, and an error is the
    syntax error that carries the input. *)
Theorem X5_tokens_end_or_error :
  forall (input : string),
    length (fst (LexerMethods.tokenize input)) <= S (String.length input)
    /\ Forall (fun tl => Label.of_kind (fst tl) (snd tl) = true)
              (fst (LexerMethods.tokenize input))
    /\ match snd (LexerMethods.tokenize input) with
       | None =>
           exists before,
             fst (LexerMethods.tokenize input) = (before ++ [(T_end, "")])%list
             /\ Forall (fun tl => fst tl <> T_end) before
       | Some e =>
           e = MVC.SyntaxError input
           /\ Forall (fun tl => fst tl <> T_end) (fst (LexerMethods.tokenize input))
       end.
Proof.
  intro input. unfold LexerMethods.tokenize.
  apply (tokens_from_complete (S (String.length input)) (new_Lexer input)).
  - discriminate.
  - unfold size. simpl. lia.
Qed.

(** X6.  The keyword [in] ends at a word boundary.  Where [in] is followed
    by a letter, a digit or an underscore, [next] makes one name of [in]
    and all the word characters after it; where it is followed by another
    character, or by nothing, [next] makes the keyword [in] and leaves the
    rest of the input. *)
Theorem X6_in_is_a_keyword_only_at_a_word_boundary :
  forall (original : string) (token : Token) (label : string) (c : ascii) (tail : string),
    (Str.is_word c = true ->
     LexerMethods.next (mkLexer original ("in" ++ String c tail) token label)
     = Return T_name
         (mkLexer original
                  (Str.substr (String.length (Str.take_while Str.is_word tail)) tail)
                  T_name ("in" ++ String c (Str.take_while Str.is_word tail))))
    /\ (Str.is_word c = false ->
        LexerMethods.next (mkLexer original ("in" ++ String c tail) token label)
        = Return T_in (mkLexer original (String c tail) T_in "in"))
    /\ LexerMethods.next (mkLexer original "in" token label)
       = Return T_in (mkLexer original "" T_in "in").
Proof.
  intros original token label c tail.
  assert (Hspaces : RegExp.spaces ("in" ++ String c tail) = None) by reflexivity.
  assert (Hundefined : RegExp.literal "undefined" ("in" ++ String c tail) = None) by reflexivity.
  assert (Htrue : RegExp.literal "true" ("in" ++ String c tail) = None) by reflexivity.
  assert (Hfalse : RegExp.literal "false" ("in" ++ String c tail) = None) by reflexivity.
  split; [| split; [| reflexivity]]; intro Hc.
  - assert (Hin : RegExp.keyword_in ("in" ++ String c tail) = None)
      by (cbn [append RegExp.keyword_in]; rewrite Hc; reflexivity).
    assert (Hname : RegExp.identifier ("in" ++ String c tail)
                    = Some ("in" ++ String c (Str.take_while Str.is_word tail))).
    { unfold RegExp.identifier. cbn [append].
      change (Str.is_name_start "i") with true. cbn iota.
      change (Str.take_while Str.is_word (String "n" (String c tail)))
        with (String "n" (if Str.is_word c then String c (Str.take_while Str.is_word tail)
                          else "")).
      rewrite Hc. reflexivity. }
    unfold LexerMethods.next, LexerMethods._read. cbn [_input]. rewrite Hspaces.
    unfold LexerMethods.next_switch, LexerMethods.rules. cbn [LexerMethods.first_match].
    unfold LexerMethods._match, LexerMethods._read. cbn [_input].
    rewrite Hundefined, Htrue, Hfalse, Hin, Hname. reflexivity.
  - assert (Hin : RegExp.keyword_in ("in" ++ String c tail) = Some "in")
      by (cbn [append RegExp.keyword_in]; rewrite Hc; reflexivity).
    unfold LexerMethods.next, LexerMethods._read. cbn [_input]. rewrite Hspaces.
    unfold LexerMethods.next_switch, LexerMethods.rules. cbn [LexerMethods.first_match].
    unfold LexerMethods._match, LexerMethods._read. cbn [_input].
    rewrite Hundefined, Htrue, Hfalse, Hin. reflexivity.
Qed.

(* ===================================================================== *)
(** * Further properties of the parser: the trees it builds *)
(* ===================================================================== *)

Section GrammarFacts.

Import LexerMethods Parser.

Lemma consistent_next lx : triple next lx (fun _ lx' => consistent lx').
Proof.
  unfold triple. pose proof (next_spec lx) as Hspec.
  destruct (next lx) as [t lx' | e |] eqn:E; [| auto | exact I].
  destruct Hspec as [Horiginal _]. split; [exact Horiginal |].
  destruct (next_label _ _ _ E) as (_ & _ & Ht & Hkind & _).
  unfold consistent. rewrite Ht. exact Hkind.
Qed.

Lemma consistent_step lx :
  triple step lx (fun l lx' => l = _label lx /\ consistent lx').
Proof.
  unfold step. apply triple_get_label.
  eapply triple_bind; [apply consistent_next |].
  intros t lx' _ H. apply triple_ret. split; [reflexivity | exact H].
Qed.

Lemma consistent_expect tokens lx :
  triple (expect tokens) lx
         (fun l lx' => l = _label lx /\ In (_token lx) tokens /\ consistent lx').
Proof.
  unfold triple, expect.
  destruct (existsb (Token_eqb (_token lx)) tokens) eqn:E; [| auto].
  pose proof (consistent_step lx) as H. unfold triple in H.
  destruct (step lx); auto. destruct H as (Horiginal & Hl & Hc).
  split; [exact Horiginal |]. split; [exact Hl |]. split; [| exact Hc].
  apply existsb_exists in E. destruct E as (t & Hin & Ht).
  apply Token_eqb_eq in Ht. rewrite Ht. exact Hin.
Qed.

(** a path with one more subscript *)
Lemma path_subscript components index :
  Grammar.path components = true -> Grammar.expression index = true ->
  Grammar.path (components ++ [SubscriptComponent index])%list = true.
Proof.
  unfold Grammar.path. destruct components as [| [root | i] rest]; try discriminate.
  cbn [app Grammar.expression]. intros H Hindex.
  apply Bool.andb_true_iff in H. destruct H as [-> Hrest].
  rewrite forallb_app, Hrest. cbn [forallb]. rewrite Hindex. reflexivity.
Qed.

(** Every method of the parser, on a lexer whose label is one of the kind
    of its token: the node it returns is an expression of the grammar. *)
Lemma parser_grammar fuel :
  (forall components lx, consistent lx -> Grammar.path components = true ->
     triple (_parseReferenceComponents fuel components) lx grammatical)
  /\ (forall lx, consistent lx -> triple (_parseReference fuel) lx grammatical)
  /\ (forall lx, consistent lx -> triple (_parseValue fuel) lx grammatical)
  /\ (forall lx, consistent lx -> triple (_parseUnaryNode fuel) lx grammatical)
  /\ (forall idx lx, consistent lx -> triple (_parseBinaryNode fuel idx) lx grammatical)
  /\ (forall idx operators node lx,
        (forall x, includes x operators = true -> includes x Shape.table_operators = true) ->
        Grammar.expression node = true -> consistent lx ->
        triple (_parseBinaryNode_while fuel idx operators node) lx grammatical)
  /\ (forall lx, consistent lx -> triple (_parseRoot fuel) lx grammatical).
Proof.
  induction fuel as [| fuel IH].
  { repeat split; intros; exact I. }
  destruct IH as (IHcomponents & IHreference & IHvalue & IHunary & IHbinary & IHwhile & IHroot).
  assert (Hbinary : forall operator l r,
            includes operator Shape.table_operators = true ->
            Grammar.expression l = true -> Grammar.expression r = true ->
            Grammar.expression (BinaryNode operator l r) = true).
  { intros operator l r Ho Hl Hr. cbn [Grammar.expression]. rewrite Ho, Hl, Hr. reflexivity. }
  repeat split.
  - (* _parseReferenceComponents *)
    intros components lx Hlx Hcs. cbn [_parseReferenceComponents].
    apply triple_get_token.
    destruct (_token lx) eqn:Htoken;
      try (apply triple_ret; split; [exact Hcs | exact Hlx]).
    + eapply triple_bind; [apply consistent_expect |].
      intros label lx' _ (_ & Hin & _). rewrite Htoken in Hin.
      destruct Hin as [Hin | []]. discriminate Hin.
    + eapply triple_bind; [apply consistent_next |].
      intros t lx1 _ Hlx1.
      eapply triple_bind; [apply IHroot; exact Hlx1 |].
      intros index lx2 _ [Hindex Hlx2].
      eapply triple_bind; [apply consistent_expect |].
      intros l lx3 _ (_ & _ & Hlx3). apply IHcomponents; [exact Hlx3 |].
      apply path_subscript; assumption.
  - (* _parseReference *)
    intros lx Hlx. cbn [_parseReference].
    eapply triple_bind; [apply consistent_expect |].
    intros label lx' _ (-> & Hin & Hlx'). apply IHcomponents; [exact Hlx' |].
    destruct Hin as [Hin | []]. unfold consistent in Hlx. rewrite <- Hin in Hlx.
    unfold Grammar.path. cbn [Grammar.expression forallb].
    cbn [Label.of_kind] in Hlx. rewrite Hlx. reflexivity.
  - (* _parseValue *)
    intros lx Hlx. cbn [_parseValue].
    apply triple_get_token.
    destruct (_token lx); try (apply IHreference; exact Hlx).
    + eapply triple_bind; [apply consistent_next |].
      intros t lx1 _ H1. apply triple_ret. split; [reflexivity | exact H1].
    + eapply triple_bind; [apply consistent_next |].
      intros t lx1 _ H1. apply triple_ret. split; [reflexivity | exact H1].
    + eapply triple_bind; [apply consistent_next |].
      intros t lx1 _ H1. apply triple_ret. split; [reflexivity | exact H1].
    + eapply triple_bind; [apply consistent_step |].
      intros l lx1 _ [_ H1]. apply triple_ret. split; [reflexivity | exact H1].
    + eapply triple_bind; [apply consistent_step |].
      intros label lx1 _ [_ H1]. unfold _parseStringLiteral.
      destruct (JSON.parse label) as [s |].
      * unfold triple, bind, ret. split; [reflexivity |]. split; [reflexivity | exact H1].
      * unfold triple, bind, throw. right. exists label. reflexivity.
    + eapply triple_bind; [apply IHroot; exact Hlx |].
      intros node lx1 _ [Hnode H1].
      eapply triple_bind; [apply consistent_expect |].
      intros l lx2 _ (_ & _ & H2). apply triple_ret. split; [exact Hnode | exact H2].
  - (* _parseUnaryNode *)
    intros lx Hlx. cbn [_parseUnaryNode].
    apply triple_get_token.
    destruct (negb (Token_eqb T_operator (_token lx))); [apply IHvalue; exact Hlx |].
    apply triple_get_label.
    destruct (includes (_label lx) ["+"; "-"; "!"]) eqn:Hop; [| apply triple_throw_input].
    eapply triple_bind; [apply consistent_next |].
    intros t lx1 _ H1.
    eapply triple_bind; [apply IHunary; exact H1 |].
    intros inner lx2 _ [Hinner H2]. apply triple_ret. split; [| exact H2].
    cbn [Grammar.expression]. unfold Grammar.unary_operators. rewrite Hop, Hinner. reflexivity.
  - (* _parseBinaryNode *)
    intros idx lx Hlx. cbn [_parseBinaryNode].
    destruct (nth_error _BINARY_OPERATOR_PRECEDENCE_TABLE idx)
      as [[leftAssociative operators] |] eqn:Hlevel; [| apply IHunary; exact Hlx].
    destruct leftAssociative.
    + eapply triple_bind; [apply IHbinary; exact Hlx |].
      intros node lx1 _ [Hnode H1]. apply IHwhile; [| exact Hnode | exact H1].
      intros x. apply (level_in_table _ _ _ _ Hlevel).
    + eapply triple_bind; [apply IHbinary; exact Hlx |].
      intros l lx1 _ [Hl H1].
      apply triple_get_token. apply triple_get_label.
      destruct (negb (includes_token (_token lx1) [T_operator; T_in])); simpl orb;
        [apply triple_ret; split; [exact Hl | exact H1] |].
      destruct (includes (_label lx1) operators) eqn:Hop; simpl negb;
        [| apply triple_ret; split; [exact Hl | exact H1]].
      eapply triple_bind; [apply consistent_step |].
      intros operator lx2 _ [-> H2].
      eapply triple_bind; [apply IHbinary; exact H2 |].
      intros r lx3 _ [Hr H3]. apply triple_ret. split; [| exact H3].
      apply Hbinary; [apply (level_in_table _ _ _ _ Hlevel Hop) | exact Hl | exact Hr].
  - (* _parseBinaryNode_while *)
    intros idx operators node lx Hops Hnode Hlx. cbn [_parseBinaryNode_while].
    apply triple_get_token. apply triple_get_label.
    destruct (includes_token (_token lx) [T_operator; T_in]); simpl andb;
      [| apply triple_ret; split; [exact Hnode | exact Hlx]].
    destruct (includes (_label lx) operators) eqn:Hop;
      [| apply triple_ret; split; [exact Hnode | exact Hlx]].
    eapply triple_bind; [apply consistent_step |].
    intros operator lx1 _ [-> H1].
    eapply triple_bind; [apply IHbinary; exact H1 |].
    intros r lx2 _ [Hr H2]. apply IHwhile; [exact Hops | | exact H2].
    apply Hbinary; [apply Hops; exact Hop | exact Hnode | exact Hr].
  - (* _parseRoot *)
    intros lx Hlx. cbn [_parseRoot]. apply IHbinary. exact Hlx.
Qed.

Lemma grammar_parse fuel lx : consistent lx -> triple (Parser.parse fuel) lx grammatical.
Proof.
  intro Hlx. unfold Parser.parse.
  eapply triple_bind; [apply (parser_grammar fuel); exact Hlx |].
  intros node lx' _ Hnode. unfold triple. destruct (end_ lx'); auto.
Qed.

Lemma grammar_parseIteration fuel lx :
  consistent lx ->
  triple (Parser.parseIteration fuel) lx (fun node _ => Grammar.iteration node = true).
Proof.
  intro Hlx. unfold Parser.parseIteration.
  assert (Hname : forall l, consistent l -> In (_token l) [T_name] ->
            Label.is_identifier (_label l) = true).
  { intros l Hl [Hin | []]. unfold consistent in Hl. rewrite <- Hin in Hl. exact Hl. }
  eapply triple_bind; [apply consistent_expect |].
  intros name lx1 _ (-> & Hin & H1). pose proof (Hname lx Hlx Hin) as Hid.
  apply triple_get_token.
  destruct (_token lx1); try apply triple_throw_input.
  - eapply triple_bind; [apply consistent_next |].
    intros t lx2 _ H2. unfold Parser._parseCollectionIteration.
    eapply triple_bind; [apply grammar_parse; exact H2 |].
    intros source lx3 _ [Hsource _]. apply triple_ret.
    cbn [Grammar.iteration]. rewrite Hid, Hsource. reflexivity.
  - eapply triple_bind; [apply consistent_next |].
    intros t lx2 _ H2. unfold Parser._parseDictionaryIteration.
    eapply triple_bind; [apply consistent_expect |].
    intros valueName lx3 _ (-> & Hin3 & H3). pose proof (Hname lx2 H2 Hin3) as Hid3.
    eapply triple_bind; [apply consistent_expect |].
    intros l lx4 _ (_ & _ & H4).
    eapply triple_bind; [apply grammar_parse; exact H4 |].
    intros source lx5 _ [Hsource _]. apply triple_ret.
    cbn [Grammar.iteration]. rewrite Hid, Hid3, Hsource. reflexivity.
Qed.

(** the lexer of a new parser is consistent *)
Lemma new_Parser_consistent input t lx : new_Parser input = Return t lx -> consistent lx.
Proof.
  unfold new_Parser. intro E. destruct (next_label _ _ _ E) as (_ & _ & Ht & Hkind & _).
  unfold consistent. rewrite Ht. exact Hkind.
Qed.

Lemma with_Parser_grammar (m : M Node) (good : Node -> bool) input :
  (forall lx, consistent lx -> triple m lx (fun node _ => good node = true)) ->
  match Expressions.with_Parser input m with
  | Ok node => good node = true
  | _ => True
  end.
Proof.
  intro Hm. unfold Expressions.with_Parser.
  destruct (new_Parser input) as [t lx | e |] eqn:E; try exact I.
  specialize (Hm lx (new_Parser_consistent _ _ _ E)). unfold triple in Hm.
  destruct (m lx); simpl; [apply Hm | exact I | exact I].
Qed.

Lemma parse_grammar fuel input :
  match Expressions.parse fuel input with
  | Ok node => Grammar.expression node = true
  | _ => True
  end.
Proof.
  apply (with_Parser_grammar (Parser.parse fuel) Grammar.expression).
  intros lx Hlx. pose proof (grammar_parse fuel lx Hlx) as H. unfold triple in *.
  destruct (Parser.parse fuel lx); [| exact H | exact I].
  destruct H as [Ho [Hnode _]]. auto.
Qed.

(** the text of the last static fragment does not matter *)
Lemma alternating_retext n : forall fragments text text',
  length fragments <= n ->
  Grammar.alternating (fragments ++ [StaticFragmentNode text])%list = true ->
  Grammar.alternating (fragments ++ [StaticFragmentNode text'])%list = true.
Proof.
  induction n as [| n IH]; intros fragments text text' Hlen H.
  - destruct fragments; [reflexivity | simpl in Hlen; lia].
  - destruct fragments as [| f fragments]; [reflexivity |].
    destruct f; try discriminate H.
    destruct fragments as [| region fragments]; [discriminate H |].
    cbn [app Grammar.alternating] in H |- *.
    apply Bool.andb_true_iff in H. destruct H as [-> H]. cbn [andb].
    apply (IH fragments text text'); [simpl in Hlen; lia | exact H].
Qed.

(** an expression and a static fragment after alternating fragments *)
Lemma alternating_region n : forall fragments region text,
  length fragments <= n ->
  Grammar.alternating fragments = true -> Grammar.expression region = true ->
  Grammar.alternating (fragments ++ [region; StaticFragmentNode text])%list = true.
Proof.
  induction n as [| n IH]; intros fragments region text Hlen H Hregion.
  - destruct fragments; [discriminate H | simpl in Hlen; lia].
  - destruct fragments as [| f fragments]; [discriminate H |].
    destruct f; try discriminate H.
    destruct fragments as [| region0 fragments].
    + cbn [app Grammar.alternating]. rewrite Hregion. reflexivity.
    + cbn [app Grammar.alternating] in H |- *.
      apply Bool.andb_true_iff in H. destruct H as [-> H]. cbn [andb].
      apply (IH fragments region text); [simpl in Hlen; lia | exact H | exact Hregion].
Qed.

(** the fragments that the two loops of [interpolate] gather alternate *)
Lemma scan_grammar fuel input n : forall rest,
  String.length rest <= n ->
  (forall text fragments node,
     Grammar.alternating (fragments ++ [StaticFragmentNode text])%list = true ->
     Interpolation.scan_text fuel input rest text fragments = Ok node ->
     Grammar.template node = true)
  /\ (forall text fragments node,
     Grammar.alternating fragments = true ->
     Interpolation.scan_expression fuel input rest text fragments = Ok node ->
     Grammar.template node = true).
Proof.
  assert (Hretext : forall fragments text text',
            Grammar.alternating (fragments ++ [StaticFragmentNode text])%list = true ->
            Grammar.alternating (fragments ++ [StaticFragmentNode text'])%list = true).
  { intros fragments text text'.
    apply (alternating_retext (length fragments)). apply Nat.le_refl. }
  induction n as [| n IH]; intros rest Hlen.
  - destruct rest as [| c rest1]; [| simpl in Hlen; lia].
    split; intros text fragments node Hfs H;
      cbn [Interpolation.scan_text Interpolation.scan_expression] in H; [| discriminate H].
    injection H as <-. exact Hfs.
  - destruct rest as [| c rest1].
    { split; intros text fragments node Hfs H;
        cbn [Interpolation.scan_text Interpolation.scan_expression] in H; [| discriminate H].
      injection H as <-. exact Hfs. }
    simpl in Hlen. assert (Hlen1 : String.length rest1 <= n) by lia.
    destruct (IH rest1 Hlen1) as [IHtext IHexpression].
    split; intros text fragments node Hfs H;
      cbn [Interpolation.scan_text Interpolation.scan_expression] in H.
    + destruct (negb (Ascii.eqb Interpolation.open_brace c)).
      { eapply IHtext; [| exact H]. apply (Hretext _ _ _ Hfs). }
      destruct rest1 as [| d rest2].
      { injection H as <-. apply (Hretext _ _ _ Hfs). }
      simpl in Hlen1. assert (Hlen2 : String.length rest2 <= n) by lia.
      destruct (IH rest2 Hlen2) as [IHtext2 IHexpression2].
      destruct (Ascii.eqb Interpolation.open_brace d).
      * eapply IHexpression2; [| exact H]. exact Hfs.
      * eapply IHtext2; [| exact H]. apply (Hretext _ _ _ Hfs).
    + destruct (negb (Ascii.eqb Interpolation.close_brace c)).
      { eapply IHexpression; eassumption. }
      destruct rest1 as [| d rest2]; [discriminate H |].
      simpl in Hlen1. assert (Hlen2 : String.length rest2 <= n) by lia.
      destruct (IH rest2 Hlen2) as [IHtext2 IHexpression2].
      destruct (Ascii.eqb Interpolation.close_brace d).
      * pose proof (parse_grammar fuel text) as Hp.
        destruct (Expressions.parse fuel text) as [region | e |]; try discriminate H.
        eapply IHtext2; [| exact H].
        rewrite <- app_assoc. cbn [app].
        apply (alternating_region (length fragments)); [apply Nat.le_refl | exact Hfs | exact Hp].
      * eapply IHexpression2; eassumption.
Qed.

End GrammarFacts.

(** X7.  The trees of the three entry points.  A tree that [parse] returns
    is made of literals, of unary nodes with [+], [-] or [!], of binary
    nodes with an operator of the precedence table, and of references
    whose path is a root field with an identifier as its name followed by
    subscripts only: no variable node, and no field access behind the root
    (the case [dot] of [_parseReferenceComponents] calls [expect('name')]
    on the dot itself, which throws).  A tree that [parseIteration] returns
    is an iteration node whose names are identifiers and whose source is
    such an expression.  A tree that [interpolate] returns is an
    interpolated node whose fragments are a static fragment, then any
    number of times an expression and a static fragment. *)
Theorem X7_trees_of_the_entry_points :
  forall (fuel : nat) (input : string),
    match Expressions.parse fuel input with
    | Ok node => Grammar.expression node = true
    | _ => True
    end
    /\ match Expressions.parseIteration fuel input with
       | Ok node => Grammar.iteration node = true
       | _ => True
       end
    /\ match Interpolation.interpolate fuel input with
       | Ok node => Grammar.template node = true
       | _ => True
       end.
Proof.
  intros fuel input. split; [apply parse_grammar |]. split.
  - apply (with_Parser_grammar (Parser.parseIteration fuel) Grammar.iteration).
    intro lx. apply grammar_parseIteration.
  - destruct (Interpolation.interpolate fuel input) as [node | e |] eqn:E; try exact I.
    unfold Interpolation.interpolate in E.
    destruct (scan_grammar fuel input (String.length input) input (Nat.le_refl _)) as [Htext _].
    apply (Htext "" [] node); [reflexivity | exact E].
Qed.

(* ===================================================================== *)
(** * Further properties of the parser: tokens it never reads past *)
(* ===================================================================== *)

Section Unread.

Import LexerMethods Parser.

Variable u : Token.

(** at the end of the input no token but [end] is ahead *)
Lemma nothing_ahead_at_end lx :
  u <> T_end -> at_end_when_empty lx -> _token lx = T_end -> ~ token_ahead u lx.
Proof.
  intros Hu Hwf Hend (n & lx' & Hadvance & Htoken).
  apply Hu. rewrite <- Htoken. apply (end_stays n lx lx' Hend (Hwf Hend) Hadvance).
Qed.

Lemma keeps_ahead_next lx : ahead_of u lx -> _token lx <> u -> keeps_ahead u next lx.
Proof.
  intros [_ (n & lx' & Hadvance & Hu)] Htoken. unfold keeps_ahead.
  destruct n as [| n].
  { injection Hadvance as <-. contradiction. }
  simpl in Hadvance. destruct (next lx) as [t lx1 | |] eqn:E; try exact I.
  split; [apply (next_at_end_when_empty _ _ _ E) |]. exists n, lx'. auto.
Qed.

Lemma keeps_ahead_bind {A B} (m : M A) (k : A -> M B) lx :
  keeps_ahead u m lx -> (forall a lx', ahead_of u lx' -> keeps_ahead u (k a) lx') ->
  keeps_ahead u (bind m k) lx.
Proof.
  unfold keeps_ahead, bind.
  destruct (m lx) as [a lx1 | e |]; [| intros; exact I | intros; exact I].
  intros H Hk. apply (Hk a lx1 H).
Qed.

Lemma keeps_ahead_ret {A} (a : A) lx : ahead_of u lx -> keeps_ahead u (ret a) lx.
Proof. intro H. exact H. Qed.

Lemma keeps_ahead_get_token {B} (k : Token -> M B) lx :
  keeps_ahead u (k (_token lx)) lx -> keeps_ahead u (bind get_token k) lx.
Proof. intro H. exact H. Qed.

Lemma keeps_ahead_get_label {B} (k : string -> M B) lx :
  keeps_ahead u (k (_label lx)) lx -> keeps_ahead u (bind get_label k) lx.
Proof. intro H. exact H. Qed.

Lemma keeps_ahead_step lx : ahead_of u lx -> _token lx <> u -> keeps_ahead u step lx.
Proof.
  intros H Htoken. unfold step.
  change (keeps_ahead u (bind next (fun _ => ret (_label lx))) lx).
  apply keeps_ahead_bind; [apply keeps_ahead_next; assumption |].
  intros _ lx' H'. exact H'.
Qed.

Lemma keeps_ahead_expect tokens lx :
  ahead_of u lx -> existsb (Token_eqb u) tokens = false -> keeps_ahead u (expect tokens) lx.
Proof.
  intros H Htokens. unfold keeps_ahead, expect.
  destruct (existsb (Token_eqb (_token lx)) tokens) eqn:E; [| exact I].
  apply keeps_ahead_step; [exact H |]. intro Hu. rewrite Hu, Htokens in E. discriminate E.
Qed.

Hypothesis unread_u : In u unread.

Lemma unread_not_expected tokens :
  (forall t, In t tokens -> ~ In t unread) -> existsb (Token_eqb u) tokens = false.
Proof.
  intro H. destruct (existsb (Token_eqb u) tokens) eqn:E; [| reflexivity].
  apply existsb_exists in E. destruct E as (t & Hin & Ht). apply Token_eqb_eq in Ht.
  subst t. contradiction (H u Hin unread_u).
Qed.

Lemma unread_other lx t : _token lx = t -> ~ In t unread -> _token lx <> u.
Proof. intros Ht Hno Hu. apply Hno. rewrite <- Ht, Hu. exact unread_u. Qed.

Lemma unread_operator lx :
  includes_token (_token lx) [T_operator; T_in] = true -> _token lx <> u.
Proof.
  intros H Hu. rewrite Hu in H. pose proof unread_u as Hin. unfold unread in Hin. simpl in Hin.
  destruct Hin as [E | [E | [E | [E | []]]]]; rewrite <- E in H; discriminate H.
Qed.

Ltac other_token :=
  match goal with
  | H : _token ?lx = _ |- _token ?lx <> u =>
      apply (unread_other lx _ H); unfold unread; simpl; intuition discriminate
  end.

Ltac not_expected :=
  apply unread_not_expected; unfold unread; simpl; intuition (subst; discriminate).

(** No method of the parser advances the lexer past a dot, a comma, an
    opening parenthesis or a pipe. *)
Lemma unread_stays_ahead fuel :
  (forall components lx,
      ahead_of u lx -> keeps_ahead u (_parseReferenceComponents fuel components) lx)
  /\ (forall lx, ahead_of u lx -> keeps_ahead u (_parseReference fuel) lx)
  /\ (forall lx, ahead_of u lx -> keeps_ahead u (_parseValue fuel) lx)
  /\ (forall lx, ahead_of u lx -> keeps_ahead u (_parseUnaryNode fuel) lx)
  /\ (forall idx lx, ahead_of u lx -> keeps_ahead u (_parseBinaryNode fuel idx) lx)
  /\ (forall idx operators node lx,
        ahead_of u lx -> keeps_ahead u (_parseBinaryNode_while fuel idx operators node) lx)
  /\ (forall lx, ahead_of u lx -> keeps_ahead u (_parseRoot fuel) lx).
Proof.
  induction fuel as [| fuel IH].
  { repeat split; intros; exact I. }
  destruct IH as (IHcomponents & IHreference & IHvalue & IHunary & IHbinary & IHwhile & IHroot).
  repeat split.
  - intros components lx H. cbn [_parseReferenceComponents].
    apply keeps_ahead_get_token.
    destruct (_token lx) eqn:Htoken; try (apply keeps_ahead_ret; exact H).
    + apply keeps_ahead_bind; [apply keeps_ahead_expect; [exact H | not_expected] |].
      intros label lx1 H1. apply IHcomponents. exact H1.
    + apply keeps_ahead_bind; [apply keeps_ahead_next; [exact H | other_token] |].
      intros t lx1 H1.
      apply keeps_ahead_bind; [apply IHroot; exact H1 |].
      intros index lx2 H2.
      apply keeps_ahead_bind; [apply keeps_ahead_expect; [exact H2 | not_expected] |].
      intros l lx3 H3. apply IHcomponents. exact H3.
  - intros lx H. cbn [_parseReference].
    apply keeps_ahead_bind; [apply keeps_ahead_expect; [exact H | not_expected] |].
    intros label lx1 H1. apply IHcomponents. exact H1.
  - intros lx H. cbn [_parseValue].
    apply keeps_ahead_get_token.
    destruct (_token lx) eqn:Htoken; try (apply IHreference; exact H).
    + apply keeps_ahead_bind; [apply keeps_ahead_next; [exact H | other_token] |].
      intros t lx1 H1. exact H1.
    + apply keeps_ahead_bind; [apply keeps_ahead_next; [exact H | other_token] |].
      intros t lx1 H1. exact H1.
    + apply keeps_ahead_bind; [apply keeps_ahead_next; [exact H | other_token] |].
      intros t lx1 H1. exact H1.
    + apply keeps_ahead_bind; [apply keeps_ahead_step; [exact H | other_token] |].
      intros label lx1 H1. exact H1.
    + apply keeps_ahead_bind; [apply keeps_ahead_step; [exact H | other_token] |].
      intros label lx1 H1. unfold _parseStringLiteral.
      destruct (JSON.parse label); [exact H1 | exact I].
    + apply keeps_ahead_bind; [apply IHroot; exact H |].
      intros node lx1 H1.
      apply keeps_ahead_bind; [apply keeps_ahead_expect; [exact H1 | not_expected] |].
      intros l lx2 H2. exact H2.
  - intros lx H. cbn [_parseUnaryNode].
    apply keeps_ahead_get_token.
    destruct (Token_eqb T_operator (_token lx)) eqn:Htoken; cbn [negb];
      [| apply IHvalue; exact H].
    apply Token_eqb_eq in Htoken. symmetry in Htoken.
    apply keeps_ahead_get_label.
    destruct (includes (_label lx) ["+"; "-"; "!"]); [| exact I].
    apply keeps_ahead_bind; [apply keeps_ahead_next; [exact H | other_token] |].
    intros t lx1 H1.
    apply keeps_ahead_bind; [apply IHunary; exact H1 |].
    intros inner lx2 H2. exact H2.
  - intros idx lx H. cbn [_parseBinaryNode].
    destruct (nth_error _BINARY_OPERATOR_PRECEDENCE_TABLE idx) as [[[] operators] |];
      [| | apply IHunary; exact H].
    + apply keeps_ahead_bind; [apply IHbinary; exact H |].
      intros node lx1 H1. apply IHwhile. exact H1.
    + apply keeps_ahead_bind; [apply IHbinary; exact H |].
      intros l lx1 H1.
      apply keeps_ahead_get_token. apply keeps_ahead_get_label.
      destruct (includes_token (_token lx1) [T_operator; T_in]) eqn:Htoken; cbn [negb orb];
        [| exact H1].
      destruct (includes (_label lx1) operators); cbn [negb]; [| exact H1].
      apply keeps_ahead_bind;
        [apply keeps_ahead_step; [exact H1 | apply unread_operator; exact Htoken] |].
      intros operator lx2 H2.
      apply keeps_ahead_bind; [apply IHbinary; exact H2 |].
      intros r lx3 H3. exact H3.
  - intros idx operators node lx H. cbn [_parseBinaryNode_while].
    apply keeps_ahead_get_token. apply keeps_ahead_get_label.
    destruct (includes_token (_token lx) [T_operator; T_in]) eqn:Htoken; cbn [andb];
      [| exact H].
    destruct (includes (_label lx) operators); [| exact H].
    apply keeps_ahead_bind;
      [apply keeps_ahead_step; [exact H | apply unread_operator; exact Htoken] |].
    intros operator lx1 H1.
    apply keeps_ahead_bind; [apply IHbinary; exact H1 |].
    intros r lx2 H2. apply IHwhile. exact H2.
  - intros lx H. cbn [_parseRoot]. apply IHbinary. exact H.
Qed.

(** With such a token ahead, [parse()] does not return. *)
Lemma parse_with_unread_ahead fuel lx : ahead_of u lx -> never (Parser.parse fuel) lx.
Proof.
  intro H. unfold Parser.parse, never, bind.
  pose proof (proj2 (proj2 (proj2 (proj2 (proj2 (proj2 (unread_stays_ahead fuel)))))) lx H)
    as Hroot.
  unfold keeps_ahead in Hroot.
  destruct (_parseRoot fuel lx) as [node lx1 | e |]; [| exact I | exact I].
  destruct Hroot as [Hwf Hahead].
  destruct (end_ lx1) eqn:Hend; [| exact I].
  unfold end_ in Hend. apply Token_eqb_eq in Hend. symmetry in Hend.
  apply (nothing_ahead_at_end lx1); try assumption.
  intro Hu. pose proof unread_u as Hin. rewrite Hu in Hin. unfold unread in Hin. simpl in Hin.
  intuition discriminate.
Qed.

(** such a token among the tokens of [tokenize] is ahead of the new lexer *)
Lemma tokens_ahead n lx label :
  In (u, label) (fst (tokens_from n lx)) -> token_ahead u lx.
Proof.
  revert lx. induction n as [| n IH]; intros lx H; [contradiction H |].
  pose proof (next_spec lx) as Hnext.
  destruct (next lx) as [t lx1 | e |] eqn:E.
  - destruct Hnext as [_ Ht].
    destruct (Token_eqb T_end t) eqn:Eend.
    + apply Token_eqb_eq in Eend. simpl in H. rewrite E, <- Eend in H.
      destruct H as [H | []]. injection H as Hu _.
      exists 1, lx1. simpl. rewrite E. split; [reflexivity |]. rewrite <- Ht, <- Eend. auto.
    + assert (Hne : t <> T_end) by (intro Habs; rewrite Habs in Eend; discriminate Eend).
      rewrite (tokens_from_step n lx t lx1 E Hne) in H.
      destruct (tokens_from n lx1) as [ts e] eqn:Ets. cbn [fst] in H.
      destruct H as [Hhead | Htail].
      * injection Hhead as Hu _. exists 1, lx1. simpl. rewrite E.
        split; [reflexivity |]. rewrite <- Ht. exact Hu.
      * assert (Hin : In (u, label) (fst (tokens_from n lx1))) by (rewrite Ets; exact Htail).
        destruct (IH lx1 Hin) as (m & lx' & Hadvance & Hu).
        exists (S m), lx'. simpl. rewrite E. auto.
  - simpl in H. rewrite E in H. contradiction H.
  - contradiction Hnext.
Qed.

(** the lexer of a new parser, when such a token is among the tokens of
    the input *)
Lemma new_Parser_ahead input label t lx :
  In (u, label) (fst (tokenize input)) -> new_Parser input = Return t lx -> ahead_of u lx.
Proof.
  intros H E. apply tokens_ahead in H. unfold new_Parser in E.
  split; [apply (next_at_end_when_empty _ _ _ E) |].
  destruct H as (n & lx' & Hadvance & Hu).
  destruct n as [| n].
  - injection Hadvance as <-. simpl in Hu. pose proof unread_u as Hin.
    rewrite <- Hu in Hin. unfold unread in Hin. simpl in Hin. intuition discriminate.
  - simpl in Hadvance. rewrite E in Hadvance. exists n, lx'. auto.
Qed.

Lemma unread_token_is_never_parsed fuel input label :
  In (u, label) (fst (tokenize input)) -> forall node, Expressions.parse fuel input <> Ok node.
Proof.
  intros H node. unfold Expressions.parse, Expressions.with_Parser.
  destruct (new_Parser input) as [t lx | e |] eqn:E; try discriminate.
  pose proof (parse_with_unread_ahead fuel lx (new_Parser_ahead _ _ _ _ H E)) as Hp.
  unfold never in Hp.
  destruct (Parser.parse fuel lx); [contradiction Hp | discriminate | discriminate].
Qed.

End Unread.

Section UnreadIteration.

Import LexerMethods Parser.

Lemma never_after u {A B} (m : M A) (k : A -> M B) lx :
  keeps_ahead u m lx -> (forall a lx', ahead_of u lx' -> never (k a) lx') ->
  never (bind m k) lx.
Proof.
  unfold keeps_ahead, never, bind.
  destruct (m lx) as [a lx1 | e |]; [| intros; exact I | intros; exact I].
  intros H Hk. apply (Hk a lx1 H).
Qed.

(** With a dot, an opening parenthesis or a pipe ahead, [parseIteration()]
    does not return. *)
Lemma parseIteration_with_unread_ahead u fuel lx :
  In u [T_dot; T_left; T_pipe] -> ahead_of u lx -> never (Parser.parseIteration fuel) lx.
Proof.
  intros Hu H.
  assert (Hunread : In u unread).
  { unfold unread. simpl in Hu |- *. intuition. }
  assert (Hexpect : forall t, In t [T_name; T_in] -> existsb (Token_eqb u) [t] = false).
  { intros t Ht. simpl in Hu, Ht.
    destruct Hu as [<- | [<- | [<- | []]]]; destruct Ht as [<- | [<- | []]]; reflexivity. }
  assert (Hnext : forall l t, In t [T_comma; T_in] -> _token l = t -> _token l <> u).
  { intros l t Ht E Habs. rewrite Habs in E. simpl in Hu, Ht.
    destruct Hu as [<- | [<- | [<- | []]]]; destruct Ht as [<- | [<- | []]]; discriminate E. }
  unfold Parser.parseIteration.
  apply (never_after u); [apply keeps_ahead_expect; [exact H | apply Hexpect; simpl; auto] |].
  intros name lx1 H1. apply never_get_token.
  destruct (_token lx1) eqn:Htoken; try exact I.
  - apply (never_after u);
      [apply keeps_ahead_next; [exact H1 | apply (Hnext lx1 T_in); simpl; auto] |].
    intros t lx2 H2. unfold _parseCollectionIteration.
    apply never_first. apply (parse_with_unread_ahead u Hunread). exact H2.
  - apply (never_after u);
      [apply keeps_ahead_next; [exact H1 | apply (Hnext lx1 T_comma); simpl; auto] |].
    intros t lx2 H2. unfold _parseDictionaryIteration.
    apply (never_after u); [apply keeps_ahead_expect; [exact H2 | apply Hexpect; simpl; auto] |].
    intros valueName lx3 H3.
    apply (never_after u); [apply keeps_ahead_expect; [exact H3 | apply Hexpect; simpl; auto] |].
    intros l lx4 H4.
    apply never_first. apply (parse_with_unread_ahead u Hunread). exact H4.
Qed.

End UnreadIteration.

(** X8.  Tokens the parser never reads past.  No method under [parse]
    advances the lexer when the current token is a dot, a comma, an opening
    parenthesis or a pipe: at a dot [_parseReferenceComponents] calls
    [expect('name')], which throws because the current token is the dot; at
    an opening parenthesis [_parseValue] calls [_parseRoot] on the same
    token; no method handles a comma or a pipe.  So an input that has one
    of these among its tokens is never parsed to a tree by [parse], whatever
    the fuel: member access such as [a.b] and a parenthesised operand such
    as [(a)] do not parse.  The same holds of [parseIteration] for a dot,
    an opening parenthesis and a pipe. *)
Theorem X8_dot_comma_parenthesis_and_pipe_never_parse :
  forall (fuel : nat) (input : string) (u : Token) (label : string),
    In (u, label) (fst (LexerMethods.tokenize input)) ->
    (In u [T_dot; T_comma; T_left; T_pipe] ->
     forall node, Expressions.parse fuel input <> Ok node)
    /\ (In u [T_dot; T_left; T_pipe] ->
        forall node, Expressions.parseIteration fuel input <> Ok node).
Proof.
  intros fuel input u label Hin. split; intros Hu node.
  - apply (unread_token_is_never_parsed u Hu fuel input label Hin).
  - assert (Hunread : In u unread) by (unfold unread; simpl in Hu |- *; intuition).
    unfold Expressions.parseIteration, Expressions.with_Parser.
    destruct (Parser.new_Parser input) as [t lx | e |] eqn:E; try discriminate.
    pose proof (parseIteration_with_unread_ahead u fuel lx Hu
                  (new_Parser_ahead u Hunread _ _ _ _ Hin E)) as Hp.
    unfold never in Hp.
    destruct (Parser.parseIteration fuel lx); [contradiction Hp | discriminate | discriminate].
Qed.

(** The property on the input [a.b], whose second token is a dot. *)
Lemma X8_witness :
  In (T_dot, ".") (fst (LexerMethods.tokenize "a.b"))
  /\ (forall node, Expressions.parse 24 "a.b" <> Ok node).
Proof.
  assert (Hin : In (T_dot, ".") (fst (LexerMethods.tokenize "a.b"))) by (simpl; auto).
  split; [exact Hin |].
  apply (X8_dot_comma_parenthesis_and_pipe_never_parse 24 "a.b" T_dot "." Hin).
  simpl. auto.
Defined.

(* ===================================================================== *)
(** * Further properties of the parser: where it ends *)
(* ===================================================================== *)

Section EndsWithoutParenthesis.

Import LexerMethods Parser.

Lemma occurs_append c a b : occurs c (a ++ b) = (occurs c a || occurs c b)%bool.
Proof.
  induction a as [| x a IH]; simpl; [reflexivity |].
  rewrite IH. apply Bool.orb_assoc.
Qed.

Lemma occurs_substr c n : forall s, occurs c s = false -> occurs c (Str.substr n s) = false.
Proof.
  induction n as [| n IH]; intros s H; [exact H |].
  destruct s as [| x s]; [reflexivity |].
  simpl in H |- *. apply Bool.orb_false_iff in H. destruct H as [_ H]. apply IH. exact H.
Qed.

(** what [next] leaves of the input is an end of the input *)
Lemma next_suffix lx t lx' :
  next lx = Return t lx' -> exists k, _input lx' = Str.substr k (_input lx).
Proof.
  assert (Hswitch : forall l, next_switch l = Return t lx' ->
            exists k, _input lx' = Str.substr k (_input l)).
  { intros l H. unfold next_switch in H.
    destruct (first_match rules l) as [l1 |] eqn:E; [| discriminate H].
    injection H as _ <-.
    destruct (first_match_rule _ _ _ E) as (token & pattern & label & _ & _ & ->).
    exists (String.length label). reflexivity. }
  unfold next. destruct (Str.is_empty (_input lx)).
  - intro H. injection H as _ <-. exists 0. reflexivity.
  - destruct (_read RegExp.spaces lx) as [[label lx1] |] eqn:Eread; [| apply Hswitch].
    assert (H1 : _input lx1 = Str.substr (String.length label) (_input lx)).
    { unfold _read in Eread. destruct (RegExp.spaces (_input lx)); [| discriminate Eread].
      injection Eread as <- <-. reflexivity. }
    assert (Hboth : forall k, Str.substr k (_input lx1)
                              = Str.substr (String.length label + k) (_input lx)).
    { intro k. rewrite H1. generalize (String.length label) as n. generalize (_input lx) as s.
      intros s n. revert s. induction n as [| n IHn]; intro s; [reflexivity |].
      destruct s as [| x s]; simpl; [destruct k; reflexivity | apply IHn]. }
    destruct (Str.is_empty (_input lx1)).
    + intro H. injection H as _ <-. exists (String.length label). exact H1.
    + intro H. destruct (Hswitch lx1 H) as [k Hk].
      exists (String.length label + k). rewrite Hk. apply Hboth.
Qed.

(** on an input without the character [(], [next] makes no opening
    parenthesis and leaves an input without that character *)
Lemma next_without_parenthesis lx t lx' :
  occurs "(" (_input lx) = false -> next lx = Return t lx' ->
  t <> T_left /\ occurs "(" (_input lx') = false.
Proof.
  intros Hno H. split.
  - intro Hleft. destruct (next_label _ _ _ H) as (skipped & _ & _ & Hkind & _ & Hprefix).
    rewrite Hleft in Hkind, Hprefix. cbn [Label.of_kind] in Hkind.
    apply String.eqb_eq in Hkind.
    assert (Hne : T_left <> T_operator) by discriminate.
    rewrite (Hprefix Hne), Hkind, occurs_append in Hno.
    apply Bool.orb_false_iff in Hno. destruct Hno as [_ Hno]. discriminate Hno.
  - destruct (next_suffix _ _ _ H) as [k ->]. apply occurs_substr. exact Hno.
Qed.

Lemma advance_without_parenthesis n : forall lx lx',
  occurs "(" (_input lx) = false -> _token lx <> T_left ->
  advance n lx = Some lx' -> _token lx' <> T_left.
Proof.
  induction n as [| n IH]; intros lx lx' Hno Htoken Hadvance.
  - injection Hadvance as <-. exact Htoken.
  - simpl in Hadvance. pose proof (next_spec lx) as Hspec.
    destruct (next lx) as [t lx1 | e |] eqn:E; try discriminate Hadvance.
    destruct (next_without_parenthesis _ _ _ Hno E) as [Ht Hno1].
    destruct Hspec as [_ Hspec]. rewrite Hspec in Ht.
    apply (IH lx1 lx' Hno1 Ht Hadvance).
Qed.

(** the lexer of a new parser, on an input without the character [(] *)
Lemma new_Parser_without_parenthesis input t lx :
  occurs "(" input = false -> new_Parser input = Return t lx -> left_free lx.
Proof.
  intros Hno E. unfold new_Parser in E.
  destruct (next_without_parenthesis (new_Lexer input) t lx Hno E) as [Ht Hno1].
  pose proof (next_spec (new_Lexer input)) as Hspec. rewrite E in Hspec.
  destruct Hspec as [_ Hspec]. rewrite Hspec in Ht.
  intros n lx' Hadvance. apply (advance_without_parenthesis n lx lx' Hno1 Ht Hadvance).
Qed.

Lemma parse_ends input :
  occurs "(" input = false ->
  exists enough,
    Expressions.parse enough input <> Diverges
    /\ forall fuel, enough <= fuel ->
         Expressions.parse fuel input = Expressions.parse enough input.
Proof.
  intro Hno. apply (with_Parser_settles Parser.parse). intros t lx E.
  apply parser_parse_settles. apply (new_Parser_without_parenthesis input t lx Hno E).
Qed.

(** The two loops of [interpolate], on an input without the character
    [(]: from some fuel on they end, with the same result. *)
Lemma scan_ends input n : forall rest,
  String.length rest <= n -> occurs "(" rest = false ->
  (forall text fragments,
     exists enough,
       Interpolation.scan_text enough input rest text fragments <> Diverges
       /\ forall fuel, enough <= fuel ->
            Interpolation.scan_text fuel input rest text fragments
            = Interpolation.scan_text enough input rest text fragments)
  /\ (forall text fragments,
     occurs "(" text = false ->
     exists enough,
       Interpolation.scan_expression enough input rest text fragments <> Diverges
       /\ forall fuel, enough <= fuel ->
            Interpolation.scan_expression fuel input rest text fragments
            = Interpolation.scan_expression enough input rest text fragments).
Proof.
  assert (Hconst : forall r : Result Node, r <> Diverges ->
            exists enough : nat, r <> Diverges /\ forall fuel : nat, enough <= fuel -> r = r).
  { intros r Hr. exists 0. auto. }
  induction n as [| n IH]; intros rest Hlen Hno.
  - destruct rest as [| c rest1]; [| simpl in Hlen; lia].
    split; intros; cbn [Interpolation.scan_text Interpolation.scan_expression];
      apply Hconst; discriminate.
  - destruct rest as [| c rest1].
    { split; intros; cbn [Interpolation.scan_text Interpolation.scan_expression];
        apply Hconst; discriminate. }
    simpl in Hlen. assert (Hlen1 : String.length rest1 <= n) by lia.
    cbn [occurs] in Hno. apply Bool.orb_false_iff in Hno. destruct Hno as [Hc Hno1].
    destruct (IH rest1 Hlen1 Hno1) as [IHtext IHexpression].
    split.
    + intros text fragments. cbn [Interpolation.scan_text].
      destruct (negb (Ascii.eqb Interpolation.open_brace c)); [apply IHtext |].
      destruct rest1 as [| d rest2]; [apply Hconst; discriminate |].
      simpl in Hlen1. assert (Hlen2 : String.length rest2 <= n) by lia.
      cbn [occurs] in Hno1. apply Bool.orb_false_iff in Hno1. destruct Hno1 as [Hd Hno2].
      destruct (IH rest2 Hlen2 Hno2) as [IHtext2 IHexpression2].
      destruct (Ascii.eqb Interpolation.open_brace d);
        [apply IHexpression2; reflexivity | apply IHtext2].
    + intros text fragments Htext. cbn [Interpolation.scan_expression].
      destruct (negb (Ascii.eqb Interpolation.close_brace c)).
      { apply IHexpression. unfold Interpolation.add. rewrite occurs_append, Htext.
        cbn [occurs]. rewrite Hc. reflexivity. }
      destruct rest1 as [| d rest2]; [apply Hconst; discriminate |].
      simpl in Hlen1. assert (Hlen2 : String.length rest2 <= n) by lia.
      cbn [occurs] in Hno1. apply Bool.orb_false_iff in Hno1. destruct Hno1 as [Hd Hno2].
      destruct (IH rest2 Hlen2 Hno2) as [IHtext2 IHexpression2].
      destruct (Ascii.eqb Interpolation.close_brace d).
      * destruct (parse_ends text Htext) as (F1 & Hne1 & Hstable1).
        destruct (Expressions.parse F1 text) as [node | e |] eqn:E.
        -- destruct (IHtext2 "" (fragments ++ [node])%list) as (F2 & Hne2 & Hstable2).
           exists (Nat.max F1 F2).
           rewrite (Hstable1 (Nat.max F1 F2) (Nat.le_max_l _ _)).
           rewrite (Hstable2 (Nat.max F1 F2) (Nat.le_max_r _ _)).
           split; [exact Hne2 |].
           intros fuel Hfuel. rewrite (Hstable1 fuel) by lia. apply Hstable2. lia.
        -- exists F1. rewrite E. split; [discriminate |].
           intros fuel Hfuel. rewrite (Hstable1 fuel Hfuel). reflexivity.
        -- contradiction Hne1. reflexivity.
      * apply IHexpression2. unfold Interpolation.add_pair.
        rewrite occurs_append, Htext. cbn [occurs]. rewrite Hd. reflexivity.
Qed.

End EndsWithoutParenthesis.

(** X9.  Where the parser ends.  On an input without the character [(],
    [parse], [parseIteration] and [interpolate] end: from some depth of
    recursion on, each returns its tree or throws its error, the same
    whatever more depth it is given.  (An opening parenthesis is where the
    recursion has no bound.) *)
Theorem X9_without_a_parenthesis_the_parser_ends :
  forall (input : string),
    occurs "(" input = false ->
    (exists enough,
        Expressions.parse enough input <> Diverges
        /\ forall fuel, enough <= fuel ->
             Expressions.parse fuel input = Expressions.parse enough input)
    /\ (exists enough,
          Expressions.parseIteration enough input <> Diverges
          /\ forall fuel, enough <= fuel ->
               Expressions.parseIteration fuel input
               = Expressions.parseIteration enough input)
    /\ (exists enough,
          Interpolation.interpolate enough input <> Diverges
          /\ forall fuel, enough <= fuel ->
               Interpolation.interpolate fuel input
               = Interpolation.interpolate enough input).
Proof.
  intros input Hno. split; [apply parse_ends; exact Hno |]. split.
  - apply (with_Parser_settles Parser.parseIteration). intros t lx E.
    apply parser_parseIteration_settles.
    apply (new_Parser_without_parenthesis input t lx Hno E).
  - unfold Interpolation.interpolate.
    destruct (scan_ends input (String.length input) input (Nat.le_refl _) Hno) as [Htext _].
    apply Htext.
Qed.

(** The property on the input [a[0] + {{b}}]. *)
Lemma X9_witness :
  occurs "(" "a[0] + {{b}}" = false
  /\ exists enough,
       Interpolation.interpolate enough "a[0] + {{b}}" <> Diverges
       /\ forall fuel, enough <= fuel ->
            Interpolation.interpolate fuel "a[0] + {{b}}"
            = Interpolation.interpolate enough "a[0] + {{b}}".
Proof.
  split; [reflexivity |].
  apply (X9_without_a_parenthesis_the_parser_ends "a[0] + {{b}}"). reflexivity.
Defined.

Section FirstTokens.

Import LexerMethods Parser.

(** [next] on an input that starts with [(] and on which no operator
    pattern matches *)
Lemma next_parenthesis original rest token label :
  RegExp.operators3 (String "(" rest) = None ->
  RegExp.operators2 (String "(" rest) = None ->
  RegExp.operators1 (String "(" rest) = None ->
  next (mkLexer original (String "(" rest) token label)
  = Return T_left (mkLexer original rest T_left "(").
Proof.
  intros H3 H2 H1.
  unfold next, _read. cbn [_input Str.is_empty].
  change (RegExp.spaces (String "(" rest)) with (@None string).
  unfold next_switch, rules. cbn [first_match]. unfold _match, _read. cbn [_input].
  rewrite H3, H2, H1. reflexivity.
Qed.

(** a letter or an underscore is no white space *)
Lemma name_start_is_no_space c : Str.is_name_start c = true -> Str.is_space c = false.
Proof.
  destruct c as [[] [] [] [] [] [] [] []]; intro H; try reflexivity; discriminate H.
Qed.

Lemma substr_length_append_empty s : Str.substr (String.length s) s = "".
Proof. induction s as [| c s IH]; simpl; [reflexivity | exact IH]. Qed.

(** [next] on an input that is one identifier which does not start with
    [undefined], [true] or [false] and is not [in] *)
Lemma next_identifier original x token label :
  Label.is_identifier x = true ->
  Str.starts_with "undefined" x = false ->
  Str.starts_with "true" x = false ->
  Str.starts_with "false" x = false ->
  x <> "in" ->
  next (mkLexer original x token label) = Return T_name (mkLexer original "" T_name x).
Proof.
  intros Hx Hundefined Htrue Hfalse Hin.
  destruct x as [| c rest]; [discriminate Hx |].
  cbn [Label.is_identifier] in Hx. apply Bool.andb_true_iff in Hx. destruct Hx as [Hc Hrest].
  assert (Hspaces : RegExp.spaces (String c rest) = None).
  { unfold RegExp.spaces. cbn [Str.take_while]. rewrite (name_start_is_no_space c Hc).
    reflexivity. }
  assert (Hkeyword : RegExp.keyword_in (String c rest) = None).
  { unfold RegExp.keyword_in.
    destruct c as [[] [] [] [] [] [] [] []]; try reflexivity.
    destruct rest as [| d rest]; [reflexivity |].
    destruct d as [[] [] [] [] [] [] [] []]; try reflexivity.
    destruct rest as [| e rest]; [contradiction Hin; reflexivity |].
    cbn [Str.every] in Hrest. apply Bool.andb_true_iff in Hrest. destruct Hrest as [_ Hrest].
    apply Bool.andb_true_iff in Hrest. destruct Hrest as [-> _]. reflexivity. }
  assert (Hname : RegExp.identifier (String c rest) = Some (String c rest)).
  { unfold RegExp.identifier. rewrite Hc, (take_while_every _ _ Hrest). reflexivity. }
  unfold next, _read. cbn [_input Str.is_empty]. rewrite Hspaces.
  unfold next_switch, rules. cbn [first_match]. unfold _match, _read. cbn [_input].
  unfold RegExp.literal. rewrite Hundefined, Htrue, Hfalse, Hkeyword, Hname.
  cbn [_input originalInput _token]. rewrite substr_length_append_empty. reflexivity.
Qed.

End FirstTokens.

(** X10.  An opening parenthesis as the first token.  When the input
    starts, after white space, with [(] and none of the three operator
    patterns matches it (their branches after the first are not anchored,
    so they match an operator anywhere in the input), the first token is
    the parenthesis; [_parseValue] then calls [_parseRoot] without
    advancing the lexer, and [parse] uses up whatever depth of recursion it
    is given: it returns no tree and throws no syntax error. *)
Theorem X10_a_parenthesis_first_never_returns :
  forall (fuel : nat) (space rest : string),
    Str.every Str.is_space space = true ->
    RegExp.operators3 (String "(" rest) = None ->
    RegExp.operators2 (String "(" rest) = None ->
    RegExp.operators1 (String "(" rest) = None ->
    LexerMethods.next (new_Lexer (space ++ String "(" rest))
    = Return T_left (mkLexer (space ++ String "(" rest) rest T_left "(")
    /\ Expressions.parse fuel (space ++ String "(" rest) = Diverges.
Proof.
  intros fuel space rest Hspace H3 H2 H1.
  assert (Hnext : LexerMethods.next (new_Lexer (space ++ String "(" rest))
                  = Return T_left (mkLexer (space ++ String "(" rest) rest T_left "(")).
  { unfold new_Lexer. rewrite (next_after_white_space _ space _ _ _ Hspace).
    apply next_parenthesis; assumption. }
  split; [exact Hnext |].
  apply (parse_left_diverges fuel _ _ T_left Hnext). reflexivity.
Qed.

(** The property on the input [ (1 + 2)]. *)
Lemma X10_witness :
  LexerMethods.next (new_Lexer " (1 + 2)")
  = Return T_left (mkLexer " (1 + 2)" "1 + 2)" T_left "(")
  /\ Expressions.parse 1000 " (1 + 2)" = Diverges.
Proof.
  apply (X10_a_parenthesis_first_never_returns 1000 " " "1 + 2)");
    reflexivity.
Defined.

(** X11.  The empty input.  On the empty input, and on an input of white
    space only, the first token is [end]; [parse] and [parseIteration] throw
    the syntax error that carries the input. *)
Theorem X11_white_space_alone_is_a_syntax_error :
  forall (k : nat) (space : string),
    Str.every Str.is_space space = true ->
    LexerMethods.tokenize space = ([(T_end, "")], None)
    /\ Expressions.parse (11 + k) space = Error (MVC.SyntaxError space)
    /\ Expressions.parseIteration k space = Error (MVC.SyntaxError space).
Proof.
  intros k space Hspace.
  assert (Hnext : LexerMethods.next (new_Lexer space)
                  = Return T_end (mkLexer space "" T_end "")).
  { unfold new_Lexer. rewrite <- (append_empty space) at 2.
    rewrite (next_after_white_space space space "" T_begin "" Hspace). reflexivity. }
  split; [| split].
  - unfold LexerMethods.tokenize. cbn [LexerMethods.tokens_from]. rewrite Hnext. reflexivity.
  - unfold Expressions.parse, Expressions.with_Parser, Parser.new_Parser.
    rewrite Hnext. reflexivity.
  - unfold Expressions.parseIteration, Expressions.with_Parser, Parser.new_Parser.
    rewrite Hnext. reflexivity.
Qed.

(** The property on the empty input. *)
Lemma X11_witness :
  Expressions.parse 11 "" = Error (MVC.SyntaxError "")
  /\ Expressions.parseIteration 0 "" = Error (MVC.SyntaxError "").
Proof.
  apply (X11_white_space_alone_is_a_syntax_error 0 ""). reflexivity.
Defined.

(** X12.  One identifier.  An input that is one identifier, which does not
    start with [undefined], [true] or [false] and is not [in], parses to
    the reference with that one field. *)
Theorem X12_an_identifier_is_a_reference :
  forall (k : nat) (x : string),
    Label.is_identifier x = true ->
    Str.starts_with "undefined" x = false ->
    Str.starts_with "true" x = false ->
    Str.starts_with "false" x = false ->
    x <> "in" ->
    LexerMethods.tokenize x = ([(T_name, x); (T_end, "")], None)
    /\ Expressions.parse (12 + k) x = Ok (ReferenceNode [FieldComponent x]).
Proof.
  intros k x Hx Hundefined Htrue Hfalse Hin.
  pose proof (next_identifier x x T_begin "" Hx Hundefined Htrue Hfalse Hin) as Hnext.
  split.
  - unfold LexerMethods.tokenize.
    destruct x as [| c rest]; [discriminate Hx |].
    cbn [String.length LexerMethods.tokens_from]. unfold new_Lexer. rewrite Hnext.
    reflexivity.
  - unfold Expressions.parse, Expressions.with_Parser, Parser.new_Parser, new_Lexer.
    rewrite Hnext. reflexivity.
Qed.

(** The property on the identifier [index], which starts with [in]. *)
Lemma X12_witness :
  Expressions.parse 12 "index" = Ok (ReferenceNode [FieldComponent "index"]).
Proof.
  apply (X12_an_identifier_is_a_reference 0 "index"); try reflexivity. discriminate.
Defined.

Section LaterOperators.

Import LexerMethods.

Ltac earlier_rule E Hshort Hno p lx :=
  destruct (p (_input lx)) eqn:?;
  [ injection E as E; symmetry in E;
    refine (Hshort _ _ (proj1 (Hno _ _)) (proj2 (Hno _ _)) E); simpl; tauto | ].

(** The switch of [next] on an input in which an operator of one of the
    unanchored branches occurs somewhere: the token is none of the
    punctuation tokens, and an operator of three or two characters
    somewhere in the input keeps a one-character operator from being the
    token. *)
Lemma next_switch_later_operator lx t lx' :
  next_switch lx = Return t lx' ->
  (RegExp.search ["==="; "!=="] (_input lx) <> None
   \/ RegExp.search ["<<"; ">>"; "<="; ">="; "=="; "!="; "??"; "&&"; "||"] (_input lx) <> None
   \/ RegExp.search ["-"; "*"; "/"; "%"; "<"; ">"; "!"] (_input lx) <> None ->
   ~ In t [T_comma; T_left; T_right; T_left_square; T_right_square; T_pipe])
  /\ (RegExp.search ["==="; "!=="] (_input lx) <> None
      \/ RegExp.search ["<<"; ">>"; "<="; ">="; "=="; "!="; "??"; "&&"; "||"] (_input lx)
         <> None ->
      t = T_operator -> 2 <= String.length (_label lx')).
Proof.
  unfold next_switch. destruct (first_match rules lx) as [lx1 |] eqn:E; [| discriminate].
  intro H. injection H as Ht <-.
  unfold rules in E. cbn [first_match] in E. unfold _match, _read in E.
  assert (Hshort : forall tok lab, tok <> T_operator ->
            ~ In tok [T_comma; T_left; T_right; T_left_square; T_right_square; T_pipe] ->
            lx1 = mkLexer (originalInput lx) (Str.substr (String.length lab) (_input lx)) tok lab ->
            (RegExp.search ["==="; "!=="] (_input lx) <> None
             \/ RegExp.search ["<<"; ">>"; "<="; ">="; "=="; "!="; "??"; "&&"; "||"] (_input lx)
                <> None
             \/ RegExp.search ["-"; "*"; "/"; "%"; "<"; ">"; "!"] (_input lx) <> None ->
             ~ In t [T_comma; T_left; T_right; T_left_square; T_right_square; T_pipe])
            /\ (RegExp.search ["==="; "!=="] (_input lx) <> None
                \/ RegExp.search ["<<"; ">>"; "<="; ">="; "=="; "!="; "??"; "&&"; "||"]
                     (_input lx) <> None ->
                t = T_operator -> 2 <= String.length (_label lx1))).
  { intros tok lab Hop Hpunct ->. cbn [_token _label] in *. subst t.
    split; [intros _; exact Hpunct | intros _ Habs; contradiction]. }
  assert (Hno : forall tok, In tok [T_undefined; T_true; T_false; T_in; T_name; T_dot;
                                     T_number; T_string] ->
            tok <> T_operator
            /\ ~ In tok [T_comma; T_left; T_right; T_left_square; T_right_square; T_pipe]).
  { intros tok Hin. simpl in Hin. split; intuition (subst; simpl in *; intuition discriminate). }
  earlier_rule E Hshort Hno (RegExp.literal "undefined") lx.
  earlier_rule E Hshort Hno (RegExp.literal "true") lx.
  earlier_rule E Hshort Hno (RegExp.literal "false") lx.
  earlier_rule E Hshort Hno RegExp.keyword_in lx.
  earlier_rule E Hshort Hno RegExp.identifier lx.
  earlier_rule E Hshort Hno (RegExp.literal ".") lx.
  earlier_rule E Hshort Hno RegExp.digits lx.
  earlier_rule E Hshort Hno (RegExp.quoted double_quote) lx.
  earlier_rule E Hshort Hno (RegExp.quoted single_quote) lx.
  clear Hno.
  clear Hshort.
  unfold RegExp.operators3, RegExp.operators2, RegExp.operators1, RegExp.alternation in E.
  destruct (Str.starts_with ">>>" (_input lx)).
  { cbv iota beta in E. injection E as <-. cbn [_token _label] in *. subst t.
    split; [intros _; simpl; intuition discriminate | intros _ _; simpl; lia]. }
  destruct (RegExp.search ["==="; "!=="] (_input lx)) as [a3 |] eqn:E3.
  { cbv iota beta in E. injection E as <-. cbn [_token _label] in *. subst t.
    split; [intros _; simpl; intuition discriminate |].
    intros _ _. apply search_In in E3. simpl in E3.
    destruct E3 as [<- | [<- | []]]; simpl; lia. }
  cbv iota beta in E.
  destruct (Str.starts_with "**" (_input lx)).
  { cbv iota beta in E. injection E as <-. cbn [_token _label] in *. subst t.
    split; [intros _; simpl; intuition discriminate | intros _ _; simpl; lia]. }
  destruct (RegExp.search ["<<"; ">>"; "<="; ">="; "=="; "!="; "??"; "&&"; "||"] (_input lx))
    as [a2 |] eqn:E2.
  { cbv iota beta in E. injection E as <-. cbn [_token _label] in *. subst t.
    split; [intros _; simpl; intuition discriminate |].
    intros _ _. apply search_In in E2. simpl in E2.
    repeat (destruct E2 as [<- | E2]; [simpl; lia |]). contradiction E2. }
  cbv iota beta in E.
  destruct (Str.starts_with "+" (_input lx)).
  { cbv iota beta in E. injection E as <-. cbn [_token _label] in *. subst t.
    split; [intros _; simpl; intuition discriminate |].
    intros [H | H] _; contradiction H; reflexivity. }
  destruct (RegExp.search ["-"; "*"; "/"; "%"; "<"; ">"; "!"] (_input lx)) as [a1 |] eqn:E1.
  { cbv iota beta in E. injection E as <-. cbn [_token _label] in *. subst t.
    split; [intros _; simpl; intuition discriminate |].
    intros [H | H] _; contradiction H; reflexivity. }
  split.
  - intros [H | [H | H]]; contradiction H; reflexivity.
  - intros [H | H] _; contradiction H; reflexivity.
Qed.

End LaterOperators.

(** X13.  An operator later in the input comes first.  The three operator
    patterns anchor only their first branch, so each of them matches an
    operator of its other branches wherever it is in the input, and the
    lexer tries them before the rules of the punctuation.  So when the
    remaining input does not start with white space and one of those
    operators occurs somewhere in it, [next] never makes a comma, a
    parenthesis, a bracket or a pipe; and when an operator of three or two
    characters occurs somewhere in it, [next] makes no operator of one
    character. *)
Theorem X13_a_later_operator_comes_first :
  forall (lx lx' : Lexer) (t : Token),
    RegExp.spaces (_input lx) = None ->
    LexerMethods.next lx = Return t lx' ->
    (RegExp.search ["==="; "!=="] (_input lx) <> None
     \/ RegExp.search ["<<"; ">>"; "<="; ">="; "=="; "!="; "??"; "&&"; "||"] (_input lx)
        <> None
     \/ RegExp.search ["-"; "*"; "/"; "%"; "<"; ">"; "!"] (_input lx) <> None ->
     ~ In t [T_comma; T_left; T_right; T_left_square; T_right_square; T_pipe])
    /\ (RegExp.search ["==="; "!=="] (_input lx) <> None
        \/ RegExp.search ["<<"; ">>"; "<="; ">="; "=="; "!="; "??"; "&&"; "||"] (_input lx)
           <> None ->
        t = T_operator -> 2 <= String.length (_label lx')).
Proof.
  intros lx lx' t Hspaces H. unfold LexerMethods.next, LexerMethods._read in H.
  rewrite Hspaces in H.
  destruct (Str.is_empty (_input lx)) eqn:Hempty; [| apply next_switch_later_operator; exact H].
  apply is_empty_true in Hempty. rewrite Hempty.
  split.
  - intros [Hs | [Hs | Hs]]; contradiction Hs; reflexivity.
  - intros [Hs | Hs]; contradiction Hs; reflexivity.
Qed.

(** The property on the remaining input [[0] - 1], where the token is the
    operator [-] and the character dropped is the bracket, and on
    [< b == c], where the token is [==]. *)
Lemma X13_witness :
  LexerMethods.next (mkLexer "a[0] - 1" "[0] - 1" T_name "a")
  = Return T_operator (mkLexer "a[0] - 1" "0] - 1" T_operator "-")
  /\ LexerMethods.next (mkLexer "a < b == c" "< b == c" T_name "a")
     = Return T_operator (mkLexer "a < b == c" "b == c" T_operator "==")
  /\ ~ In T_operator [T_comma; T_left; T_right; T_left_square; T_right_square; T_pipe].
Proof.
  split; [reflexivity |]. split; [reflexivity |].
  apply (X13_a_later_operator_comes_first (mkLexer "a[0] - 1" "[0] - 1" T_name "a")
           (mkLexer "a[0] - 1" "0] - 1" T_operator "-") T_operator);
    [reflexivity | reflexivity |].
  right. right. discriminate.
Defined.

(* ===================================================================== *)
(** * Further properties of the parser: the original input *)
(* ===================================================================== *)

Section OriginalInput.

Import LexerMethods Parser.

Lemma first_match_alike rs o1 o2 i t1 l1 t2 l2 :
  match first_match rs (mkLexer o1 i t1 l1), first_match rs (mkLexer o2 i t2 l2) with
  | Some lx', Some ly' =>
      same_state lx' ly' /\ originalInput lx' = o1 /\ originalInput ly' = o2
  | None, None => True
  | _, _ => False
  end.
Proof.
  induction rs as [| [token pattern] rs IH]; [exact I |].
  cbn [first_match]. unfold _match, _read. cbn [_input originalInput].
  destruct (pattern i) as [label |]; [| exact IH].
  unfold same_state. cbn. auto.
Qed.

(** [next] looks at the remaining input only *)
Lemma next_alike lx ly :
  _input lx = _input ly -> alike lx ly (next lx) (next ly).
Proof.
  destruct lx as [o1 i t1 l1], ly as [o2 i2 t2 l2]. cbn [_input]. intros <-.
  assert (Hswitch : forall i',
            alike (mkLexer o1 i t1 l1) (mkLexer o2 i t2 l2)
                  (next_switch (mkLexer o1 i' t1 l1)) (next_switch (mkLexer o2 i' t2 l2))).
  { intro i'. unfold next_switch.
    pose proof (first_match_alike rules o1 o2 i' t1 l1 t2 l2) as H.
    destruct (first_match rules (mkLexer o1 i' t1 l1)) as [lx' |],
             (first_match rules (mkLexer o2 i' t2 l2)) as [ly' |]; try contradiction H.
    - destruct H as (Hsame & H1 & H2). unfold alike. cbn [originalInput].
      split; [apply Hsame |]. auto.
    - unfold alike. cbn [originalInput]. left. auto. }
  unfold next. cbn [_input].
  destruct (Str.is_empty i).
  { unfold next_end, alike, same_state. cbn. auto. }
  unfold _read. cbn [_input originalInput _token _label].
  destruct (RegExp.spaces i) as [label |]; [| apply Hswitch].
  cbn [_input].
  destruct (Str.is_empty (Str.substr (String.length label) i)); [| apply Hswitch].
  unfold next_end, alike, same_state. cbn. auto.
Qed.

Lemma uniform_next : uniform next.
Proof. intros lx ly (Hi & _ & _). apply next_alike. exact Hi. Qed.

Lemma uniform_ret {A} (a : A) : uniform (ret a).
Proof. intros lx ly H. unfold alike, ret. auto. Qed.

Lemma uniform_bind {A B} (m : M A) (k : A -> M B) :
  uniform m -> (forall a, uniform (k a)) -> uniform (bind m k).
Proof.
  intros Hm Hk lx ly H. specialize (Hm lx ly H). unfold bind, alike in *.
  destruct (m lx) as [a lx1 | e1 |], (m ly) as [b ly1 | e2 |]; try contradiction Hm;
    try exact Hm.
  destruct Hm as (<- & Hsame & H1 & H2).
  specialize (Hk a lx1 ly1 Hsame). unfold alike in Hk.
  destruct (k a lx1) as [c lx2 | e1 |], (k a ly1) as [d ly2 | e2 |]; try contradiction Hk;
    try exact Hk.
  - destruct Hk as (Hc & Hs & H3 & H4). rewrite H3, H4. auto.
  - rewrite <- H1, <- H2. exact Hk.
Qed.

Lemma uniform_get_token {B} (k : Token -> M B) :
  (forall t, uniform (k t)) -> uniform (bind get_token k).
Proof.
  intros Hk lx ly H. unfold bind, get_token.
  destruct H as (Hi & Ht & Hl). rewrite Ht. apply Hk. unfold same_state. auto.
Qed.

Lemma uniform_get_label {B} (k : string -> M B) :
  (forall l, uniform (k l)) -> uniform (bind get_label k).
Proof.
  intros Hk lx ly H. unfold bind, get_label.
  destruct H as (Hi & Ht & Hl). rewrite Hl. apply Hk. unfold same_state. auto.
Qed.

Lemma uniform_throw_input {B} :
  uniform (bind get_input (fun input => @throw B (MVC.SyntaxError input))).
Proof. intros lx ly H. unfold alike, bind, get_input, throw. left. auto. Qed.

Lemma uniform_diverge {B} : uniform (@diverge B).
Proof. intros lx ly H. exact I. Qed.

Lemma uniform_step : uniform step.
Proof.
  unfold step. apply uniform_get_label. intro l.
  apply uniform_bind; [apply uniform_next | intro; apply uniform_ret].
Qed.

Lemma uniform_expect tokens : uniform (expect tokens).
Proof.
  intros lx ly H. unfold expect. destruct H as (Hi & Ht & Hl). rewrite Ht.
  destruct (existsb (Token_eqb (_token ly)) tokens).
  - apply uniform_step. unfold same_state. auto.
  - unfold alike. left. auto.
Qed.

Lemma uniform_parseStringLiteral label : uniform (_parseStringLiteral label).
Proof.
  intros lx ly H. unfold _parseStringLiteral.
  destruct (JSON.parse label); [apply uniform_ret; exact H |].
  unfold alike, throw. right. exists label. auto.
Qed.

(** No method of the parser looks at the original input, except to throw
    it. *)
Lemma parser_uniform fuel :
  (forall components, uniform (_parseReferenceComponents fuel components))
  /\ uniform (_parseReference fuel)
  /\ uniform (_parseValue fuel)
  /\ uniform (_parseUnaryNode fuel)
  /\ (forall idx, uniform (_parseBinaryNode fuel idx))
  /\ (forall idx operators node, uniform (_parseBinaryNode_while fuel idx operators node))
  /\ uniform (_parseRoot fuel).
Proof.
  induction fuel as [| fuel IH].
  { repeat split; intros; apply uniform_diverge. }
  destruct IH as (IHcomponents & IHreference & IHvalue & IHunary & IHbinary & IHwhile & IHroot).
  repeat split.
  - intro components. cbn [_parseReferenceComponents].
    apply uniform_get_token. intro token.
    destruct token; try apply uniform_ret.
    + apply uniform_bind; [apply uniform_expect | intro; apply IHcomponents].
    + apply uniform_bind; [apply uniform_next | intros _].
      apply uniform_bind; [apply IHroot | intro index].
      apply uniform_bind; [apply uniform_expect | intro; apply IHcomponents].
  - cbn [_parseReference].
    apply uniform_bind; [apply uniform_expect | intro; apply IHcomponents].
  - cbn [_parseValue]. apply uniform_get_token. intro token.
    destruct token; try apply IHreference;
      try (apply uniform_bind; [apply uniform_next | intro; apply uniform_ret]);
      try (apply uniform_bind; [apply uniform_step | intro; apply uniform_ret]).
    + apply uniform_bind; [apply uniform_step | intro label].
      apply uniform_bind; [apply uniform_parseStringLiteral | intro; apply uniform_ret].
    + apply uniform_bind; [apply IHroot | intro node].
      apply uniform_bind; [apply uniform_expect | intro; apply uniform_ret].
  - cbn [_parseUnaryNode]. apply uniform_get_token. intro token.
    destruct (negb (Token_eqb T_operator token)); [apply IHvalue |].
    apply uniform_get_label. intro operator.
    destruct (includes operator ["+"; "-"; "!"]); [| apply uniform_throw_input].
    apply uniform_bind; [apply uniform_next | intros _].
    apply uniform_bind; [apply IHunary | intro; apply uniform_ret].
  - intro idx. cbn [_parseBinaryNode].
    destruct (nth_error _BINARY_OPERATOR_PRECEDENCE_TABLE idx) as [[[] operators] |];
      [| | apply IHunary].
    + apply uniform_bind; [apply IHbinary | intro; apply IHwhile].
    + apply uniform_bind; [apply IHbinary | intro l].
      apply uniform_get_token. intro token. apply uniform_get_label. intro label.
      destruct (negb (includes_token token [T_operator; T_in]) || negb (includes label operators))%bool;
        [apply uniform_ret |].
      apply uniform_bind; [apply uniform_step | intro operator].
      apply uniform_bind; [apply IHbinary | intro; apply uniform_ret].
  - intros idx operators node. cbn [_parseBinaryNode_while].
    apply uniform_get_token. intro token. apply uniform_get_label. intro label.
    destruct (includes_token token [T_operator; T_in] && includes label operators)%bool;
      [| apply uniform_ret].
    apply uniform_bind; [apply uniform_step | intro operator].
    apply uniform_bind; [apply IHbinary | intro; apply IHwhile].
  - cbn [_parseRoot]. apply IHbinary.
Qed.

Lemma uniform_parse fuel : uniform (Parser.parse fuel).
Proof.
  unfold Parser.parse. apply uniform_bind; [apply (parser_uniform fuel) |].
  intros node lx ly (Hi & Ht & Hl). unfold end_. rewrite Ht.
  destruct (Token_eqb T_end (_token ly)); unfold alike, same_state; auto.
Qed.

End OriginalInput.

Section Iteration.

Import LexerMethods Parser.

(** a text of word characters that the identifier [x] does not start with
    is not the start of [x] followed by a character that is no word
    character either *)
Lemma starts_with_before_boundary k : forall x c tail,
  Str.every Str.is_word k = true -> Str.is_word c = false ->
  Str.starts_with k x = false -> Str.starts_with k (x ++ String c tail) = false.
Proof.
  induction k as [| a k IH]; intros x c tail Hk Hc H; [discriminate H |].
  cbn [Str.every] in Hk. apply Bool.andb_true_iff in Hk. destruct Hk as [Ha Hk].
  destruct x as [| b x].
  - cbn [append Str.starts_with].
    destruct (Ascii.eqb a c) eqn:E; [| reflexivity].
    apply Ascii.eqb_eq in E. subst c. rewrite Ha in Hc. discriminate Hc.
  - cbn [append Str.starts_with] in H |- *.
    destruct (Ascii.eqb a b); [| reflexivity].
    cbn [andb] in H |- *. apply IH; assumption.
Qed.

(** [next] on an identifier followed by a character that is no word
    character *)
Lemma next_identifier_then original x c tail token label :
  Label.is_identifier x = true ->
  Str.starts_with "undefined" x = false ->
  Str.starts_with "true" x = false ->
  Str.starts_with "false" x = false ->
  x <> "in" ->
  Str.is_word c = false ->
  next (mkLexer original (x ++ String c tail) token label)
  = Return T_name (mkLexer original (String c tail) T_name x).
Proof.
  intros Hx Hundefined Htrue Hfalse Hin Hc.
  pose proof (starts_with_before_boundary "undefined" x c tail eq_refl Hc Hundefined) as H1.
  pose proof (starts_with_before_boundary "true" x c tail eq_refl Hc Htrue) as H2.
  pose proof (starts_with_before_boundary "false" x c tail eq_refl Hc Hfalse) as H3.
  destruct x as [| c0 rest]; [discriminate Hx |].
  cbn [Label.is_identifier] in Hx. apply Bool.andb_true_iff in Hx. destruct Hx as [Hc0 Hrest].
  cbn [append] in *.
  assert (Hspaces : RegExp.spaces (String c0 (rest ++ String c tail)) = None).
  { unfold RegExp.spaces. cbn [Str.take_while]. rewrite (name_start_is_no_space c0 Hc0).
    reflexivity. }
  assert (Hkeyword : RegExp.keyword_in (String c0 (rest ++ String c tail)) = None).
  { unfold RegExp.keyword_in.
    destruct c0 as [[] [] [] [] [] [] [] []]; try reflexivity.
    destruct rest as [| d rest].
    - cbn [append]. destruct c as [[] [] [] [] [] [] [] []]; try reflexivity. discriminate Hc.
    - cbn [append]. destruct d as [[] [] [] [] [] [] [] []]; try reflexivity.
      destruct rest as [| e rest]; [contradiction Hin; reflexivity |].
      cbn [Str.every] in Hrest. apply Bool.andb_true_iff in Hrest. destruct Hrest as [_ Hrest].
      apply Bool.andb_true_iff in Hrest. destruct Hrest as [He _].
      cbn [append]. rewrite He. reflexivity. }
  assert (Hname : RegExp.identifier (String c0 (rest ++ String c tail))
                  = Some (String c0 rest)).
  { unfold RegExp.identifier. rewrite Hc0.
    rewrite (take_while_every_append Str.is_word rest (String c tail) Hrest).
    cbn [Str.take_while]. rewrite Hc, append_empty. reflexivity. }
  unfold next, _read. cbn [_input Str.is_empty]. rewrite Hspaces.
  unfold next_switch, rules. cbn [first_match]. unfold _match, _read. cbn [_input].
  unfold RegExp.literal. rewrite H1, H2, H3, Hkeyword, Hname.
  cbn [_input originalInput _token].
  change (String c0 (rest ++ String c tail)) with (String c0 rest ++ String c tail).
  rewrite substr_length_append. reflexivity.
Qed.

(** [next] on [in] followed by a character that is no word character *)
Lemma next_in_before_a_boundary original c tail token label :
  Str.is_word c = false ->
  next (mkLexer original ("in" ++ String c tail) token label)
  = Return T_in (mkLexer original (String c tail) T_in "in").
Proof.
  intro Hc.
  assert (Hin : RegExp.keyword_in ("in" ++ String c tail) = Some "in")
    by (cbn [append RegExp.keyword_in]; rewrite Hc; reflexivity).
  unfold next, _read. cbn [_input].
  change (RegExp.spaces ("in" ++ String c tail)) with (@None string).
  unfold next_switch, rules. cbn [first_match]. unfold _match, _read. cbn [_input].
  change (RegExp.literal "undefined" ("in" ++ String c tail)) with (@None string).
  change (RegExp.literal "true" ("in" ++ String c tail)) with (@None string).
  change (RegExp.literal "false" ("in" ++ String c tail)) with (@None string).
  rewrite Hin. reflexivity.
Qed.

(** [parseIteration] on [x in e], where the source [e] is parsed as
    [parse] parses it *)
Lemma parseIteration_collection fuel x e :
  Label.is_identifier x = true ->
  Str.starts_with "undefined" x = false ->
  Str.starts_with "true" x = false ->
  Str.starts_with "false" x = false ->
  x <> "in" ->
  Expressions.parseIteration fuel (x ++ " in " ++ e)
  = match Expressions.parse fuel e with
    | Ok source => Ok (CollectionIterationNode x source)
    | Error (MVC.JSON_SyntaxError t) => Error (MVC.JSON_SyntaxError t)
    | Error _ => Error (MVC.SyntaxError (x ++ " in " ++ e))
    | Diverges => Diverges
    end.
Proof.
  intros Hx Hundefined Htrue Hfalse Hin.
  set (input := x ++ " in " ++ e).
  assert (Hspace : Str.is_word " " = false) by reflexivity.
  assert (Hnext1 : next (new_Lexer input)
                   = Return T_name (mkLexer input (" in " ++ e) T_name x)).
  { apply (next_identifier_then input x " " ("in " ++ e) T_begin "");
      assumption. }
  assert (Hnext2 : next (mkLexer input (" in " ++ e) T_name x)
                   = Return T_in (mkLexer input (" " ++ e) T_in "in")).
  { change (" in " ++ e) with (" " ++ ("in " ++ e)).
    rewrite (next_after_white_space input " " ("in " ++ e) T_name x eq_refl).
    apply (next_in_before_a_boundary input " " e T_name x Hspace). }
  assert (Hnext3 : next (mkLexer input (" " ++ e) T_in "in")
                   = next (mkLexer input e T_in "in")).
  { apply (next_after_white_space input " " e T_in "in" eq_refl). }
  unfold Expressions.parseIteration, Expressions.parse, Expressions.with_Parser, new_Parser.
  rewrite Hnext1.
  unfold Parser.parseIteration, expect, step. unfold bind, get_label, get_token, ret.
  cbn [_token _label existsb Token_eqb orb]. rewrite Hnext2. cbn [_token].
  rewrite Hnext3.
  pose proof (next_alike (mkLexer input e T_in "in") (new_Lexer e) eq_refl) as Hfirst.
  unfold alike, new_Lexer in Hfirst. cbn [originalInput] in Hfirst.
  unfold new_Lexer.
  destruct (next (mkLexer input e T_in "in")) as [t lx3 | e1 |],
           (next (mkLexer e e T_begin "")) as [t' ly3 | e2 |]; try contradiction Hfirst.
  - cbv beta iota in Hfirst. destruct Hfirst as (_ & Hsame & H1 & H2).
    pose proof (uniform_parse fuel lx3 ly3 Hsame) as Hparse.
    unfold _parseCollectionIteration, bind, ret. unfold alike in Hparse.
    rewrite H1, H2 in Hparse.
    destruct (Parser.parse fuel lx3) as [node lx4 | e1 |],
             (Parser.parse fuel ly3) as [node' ly4 | e2 |]; try contradiction Hparse.
    + cbv beta iota in Hparse. destruct Hparse as (-> & _). reflexivity.
    + cbv beta iota in Hparse. destruct Hparse as [[-> ->] | (t0 & -> & ->)]; reflexivity.
    + reflexivity.
  - cbv beta iota in Hfirst. destruct Hfirst as [[-> ->] | (t0 & -> & ->)]; reflexivity.
  - reflexivity.
Qed.

End Iteration.

(** X14.  The iteration over a collection.  For a name [x] that is an
    identifier, does not start with [undefined], [true] or [false] and is
    not [in], [parseIteration] on [x in e] does with the source [e] what
    [parse] does with it: it returns the collection iteration node of [x]
    and the tree of [e] where [parse] returns that tree, throws the error
    of [JSON.parse] where [parse] throws it, throws the syntax error where
    [parse] throws one, carrying the whole input instead of [e], and does not
    end where [parse] does not. *)
Theorem X14_iteration_over_a_collection :
  forall (fuel : nat) (x e : string),
    Label.is_identifier x = true ->
    Str.starts_with "undefined" x = false ->
    Str.starts_with "true" x = false ->
    Str.starts_with "false" x = false ->
    x <> "in" ->
    Expressions.parseIteration fuel (x ++ " in " ++ e)
    = match Expressions.parse fuel e with
      | Ok source => Ok (CollectionIterationNode x source)
      | Error (MVC.JSON_SyntaxError t) => Error (MVC.JSON_SyntaxError t)
      | Error _ => Error (MVC.SyntaxError (x ++ " in " ++ e))
      | Diverges => Diverges
      end
    /\ LexerMethods.next (new_Lexer (x ++ " in " ++ e))
       = Return T_name (mkLexer (x ++ " in " ++ e) (" in " ++ e) T_name x).
Proof.
  intros fuel x e Hx Hundefined Htrue Hfalse Hin.
  split; [apply parseIteration_collection; assumption |].
  apply (next_identifier_then (x ++ " in " ++ e) x " " ("in " ++ e) T_begin "");
    try assumption. reflexivity.
Qed.

(** The property on the input [item in items[0]]. *)
Lemma X14_witness :
  Expressions.parseIteration 24 ("item" ++ " in " ++ "items[0]")
  = Ok (CollectionIterationNode "item"
          (ReferenceNode [FieldComponent "items"; SubscriptComponent (literal_number 0)])).
Proof.
  apply (X14_iteration_over_a_collection 24 "item" "items[0]");
    try reflexivity. discriminate.
Defined.

(* ===================================================================== *)
(** * Further properties of [interpolate] *)
(* ===================================================================== *)

Section Templates.

Import Interpolation.

(** text in which no region is opened is copied to the gathered text *)
Lemma scan_text_lone_braces fuel input n : forall plain rest text fragments,
  String.length plain <= n -> lone_braces plain = true ->
  scan_text fuel input (plain ++ rest) text fragments
  = scan_text fuel input rest (text ++ plain) fragments.
Proof.
  induction n as [| n IH]; intros plain rest text fragments Hlen H.
  - destruct plain; [| simpl in Hlen; lia]. cbn [append]. rewrite append_empty. reflexivity.
  - destruct plain as [| c plain]; [cbn [append]; rewrite append_empty; reflexivity |].
    cbn [lone_braces] in H. cbn [append scan_text].
    destruct (Ascii.eqb open_brace c) eqn:Ec; cbn [negb].
    + destruct plain as [| d plain]; [discriminate H |].
      apply Bool.andb_true_iff in H. destruct H as [Hd H].
      apply Bool.negb_true_iff in Hd. cbn [append]. rewrite Hd.
      rewrite (IH plain rest _ fragments); [| simpl in Hlen; lia | exact H].
      apply Ascii.eqb_eq in Ec. subst c.
      unfold add_pair. rewrite !append_assoc. reflexivity.
    + rewrite (IH plain rest _ fragments); [| simpl in Hlen; lia | exact H].
      unfold add. rewrite append_assoc. reflexivity.
Qed.

(** the text of a region without a closing brace is gathered up to the two
    closing braces, and parsed *)
Lemma scan_expression_region fuel input body : forall rest text fragments,
  occurs close_brace body = false ->
  scan_expression fuel input (body ++ "}}" ++ rest) text fragments
  = match Expressions.parse fuel (text ++ body) with
    | Ok node => scan_text fuel input rest "" (fragments ++ [node])%list
    | Error e => Error e
    | Diverges => Diverges
    end.
Proof.
  induction body as [| c body IH]; intros rest text fragments H.
  - cbn [append scan_expression]. change (Ascii.eqb close_brace "}") with true.
    cbn [negb]. rewrite append_empty. reflexivity.
  - cbn [occurs] in H. apply Bool.orb_false_iff in H. destruct H as [Hc H].
    cbn [append scan_expression]. rewrite Hc. cbn [negb].
    rewrite (IH rest _ fragments H). unfold add. rewrite append_assoc. reflexivity.
Qed.

(** a region that is not closed *)
Lemma scan_expression_open fuel input body : forall text fragments,
  occurs close_brace body = false ->
  scan_expression fuel input body text fragments = Error (MVC.SyntaxError input).
Proof.
  induction body as [| c body IH]; intros text fragments H; [reflexivity |].
  cbn [occurs] in H. apply Bool.orb_false_iff in H. destruct H as [Hc H].
  cbn [scan_expression]. rewrite Hc. cbn [negb]. apply IH. exact H.
Qed.

(** The fragments that a scan returns are the fragments it was entered
    with, followed by fragments that depend neither on those nor on the
    input that an error would carry. *)
Lemma scan_fragments fuel n : forall rest,
  String.length rest <= n ->
  (forall input text fragments node,
     scan_text fuel input rest text fragments = Ok node ->
     exists more,
       node = InterpolatedNode (fragments ++ more)%list
       /\ forall input' fragments',
            scan_text fuel input' rest text fragments'
            = Ok (InterpolatedNode (fragments' ++ more)%list))
  /\ (forall input text fragments node,
     scan_expression fuel input rest text fragments = Ok node ->
     exists more,
       node = InterpolatedNode (fragments ++ more)%list
       /\ forall input' fragments',
            scan_expression fuel input' rest text fragments'
            = Ok (InterpolatedNode (fragments' ++ more)%list)).
Proof.
  induction n as [| n IH]; intros rest Hlen.
  - destruct rest as [| c rest1]; [| simpl in Hlen; lia].
    split; intros input text fragments node H; cbn [scan_text scan_expression] in H;
      [| discriminate H].
    injection H as <-. eexists. split; reflexivity.
  - destruct rest as [| c rest1].
    { split; intros input text fragments node H; cbn [scan_text scan_expression] in H;
        [| discriminate H].
      injection H as <-. eexists. split; reflexivity. }
    simpl in Hlen. assert (Hlen1 : String.length rest1 <= n) by lia.
    destruct (IH rest1 Hlen1) as [IHtext IHexpression].
    split; intros input text fragments node H; cbn [scan_text scan_expression] in H |- *.
    + destruct (negb (Ascii.eqb open_brace c)); [apply (IHtext _ _ _ _ H) |].
      destruct rest1 as [| d rest2].
      { injection H as <-. eexists. split; reflexivity. }
      simpl in Hlen1. assert (Hlen2 : String.length rest2 <= n) by lia.
      destruct (IH rest2 Hlen2) as [IHtext2 IHexpression2].
      destruct (Ascii.eqb open_brace d); [| apply (IHtext2 _ _ _ _ H)].
      destruct (IHexpression2 _ _ _ _ H) as (more & -> & Hmore).
      exists (StaticFragmentNode text :: more). rewrite <- app_assoc. split; [reflexivity |].
      intros input' fragments'. rewrite Hmore, <- app_assoc. reflexivity.
    + destruct (negb (Ascii.eqb close_brace c)); [apply (IHexpression _ _ _ _ H) |].
      destruct rest1 as [| d rest2]; [discriminate H |].
      simpl in Hlen1. assert (Hlen2 : String.length rest2 <= n) by lia.
      destruct (IH rest2 Hlen2) as [IHtext2 IHexpression2].
      destruct (Ascii.eqb close_brace d); [| apply (IHexpression2 _ _ _ _ H)].
      destruct (Expressions.parse fuel text) as [region | e |]; try discriminate H.
      destruct (IHtext2 _ _ _ _ H) as (more & -> & Hmore).
      exists (region :: more). rewrite <- app_assoc. split; [reflexivity |].
      intros input' fragments'. rewrite Hmore, <- app_assoc. reflexivity.
Qed.

End Templates.

(** X15.  Text without a region.  A text in which every opening brace is
    followed by a character other than an opening brace (in particular a
    text without braces, and the empty text) opens no region:
    [interpolate] returns it as it is, as the only static fragment, and
    never fails on it. *)
Theorem X15_text_without_a_region_is_one_static_fragment :
  forall (fuel : nat) (text : string),
    lone_braces text = true ->
    Interpolation.interpolate fuel text
    = Ok (InterpolatedNode [StaticFragmentNode text]).
Proof.
  intros fuel text H. unfold Interpolation.interpolate.
  rewrite <- (append_empty text) at 2.
  rewrite (scan_text_lone_braces fuel text (String.length text) text "" "" []
             (Nat.le_refl _) H).
  reflexivity.
Qed.

(** The property on the text [if (a) { b }]. *)
Lemma X15_witness :
  Interpolation.interpolate 0 "if (a) { b }"
  = Ok (InterpolatedNode [StaticFragmentNode "if (a) { b }"]).
Proof.
  apply (X15_text_without_a_region_is_one_static_fragment 0 "if (a) { b }"). reflexivity.
Defined.

(** X16.  One region after the other.  Let [plain] be a text that opens no
    region and [body] a text without a closing brace.  On
    [plain {{ body }} rest], [interpolate] parses [body] with a parser of
    its own: where that parse throws, [interpolate] throws the same error,
    which carries the text of the region and not the template; where it
    returns a tree and [interpolate] on [rest] returns fragments, the result
    is the static fragment [plain], the tree, and those fragments.  Where
    the region is not closed ([plain {{ body] and nothing more),
    [interpolate] throws the syntax error that carries the whole
    template. *)
Theorem X16_a_region_and_the_rest :
  forall (fuel : nat) (plain body rest : string),
    lone_braces plain = true ->
    occurs Interpolation.close_brace body = false ->
    (forall e, Expressions.parse fuel body = Error e ->
       Interpolation.interpolate fuel (plain ++ "{{" ++ body ++ "}}" ++ rest) = Error e)
    /\ (forall node fragments,
          Expressions.parse fuel body = Ok node ->
          Interpolation.interpolate fuel rest = Ok (InterpolatedNode fragments) ->
          Interpolation.interpolate fuel (plain ++ "{{" ++ body ++ "}}" ++ rest)
          = Ok (InterpolatedNode (StaticFragmentNode plain :: node :: fragments)))
    /\ Interpolation.interpolate fuel (plain ++ "{{" ++ body)
       = Error (MVC.SyntaxError (plain ++ "{{" ++ body)).
Proof.
  intros fuel plain body rest Hplain Hbody.
  assert (Hscan : forall input tail,
            Interpolation.scan_text fuel input (plain ++ "{{" ++ tail) "" []
            = Interpolation.scan_expression fuel input tail "" [StaticFragmentNode plain]).
  { intros input tail.
    rewrite (scan_text_lone_braces fuel input (String.length plain) plain _ "" []
               (Nat.le_refl _) Hplain).
    reflexivity. }
  unfold Interpolation.interpolate. split; [| split].
  - intros e He. rewrite Hscan, (scan_expression_region fuel _ body rest "" _ Hbody).
    cbn [append]. rewrite He. reflexivity.
  - intros node fragments Hnode Hrest.
    rewrite Hscan, (scan_expression_region fuel _ body rest "" _ Hbody).
    cbn [append]. rewrite Hnode.
    destruct (scan_fragments fuel (String.length rest) rest (Nat.le_refl _)) as [Htext _].
    destruct (Htext rest "" [] _ Hrest) as (more & Hmore & Hany).
    injection Hmore as ->. rewrite Hany. reflexivity.
  - rewrite Hscan. apply scan_expression_open. exact Hbody.
Qed.

(** The property on the template [a{b {{ x }} and {{ y[0] }}.]. *)
Lemma X16_witness :
  Interpolation.interpolate 24 ("a{b " ++ "{{" ++ " x " ++ "}}" ++ " and {{ y[0] }}.")
  = Ok (InterpolatedNode
          [ StaticFragmentNode "a{b "; ReferenceNode [FieldComponent "x"];
            StaticFragmentNode " and ";
            ReferenceNode [FieldComponent "y"; SubscriptComponent (literal_number 0)];
            StaticFragmentNode "." ]).
Proof.
  apply (X16_a_region_and_the_rest 24 "a{b " " x " " and {{ y[0] }}.");
    reflexivity.
Defined.

(* ===================================================================== *)
(** * Further properties of [AST.ts] and [Common.ts] *)
(* ===================================================================== *)

Section UniqueFacts.

Import Shape.

Lemma Set_add_all_app set a b :
  AST.Set_add_all set (a ++ b)%list = AST.Set_add_all (AST.Set_add_all set a) b.
Proof.
  revert set. induction a as [| x a IH]; intro set; [reflexivity |].
  cbn [app AST.Set_add_all]. apply IH.
Qed.

Lemma mem_app x a b : AST.mem x (a ++ b)%list = (AST.mem x a || AST.mem x b)%bool.
Proof. unfold AST.mem. apply existsb_app. Qed.

Lemma mem_cons x a l : AST.mem x (a :: l) = (String.eqb x a || AST.mem x l)%bool.
Proof. reflexivity. Qed.

(** what is new after [s1] and [s2] is what is new after [s2], without the
    elements of [s1] *)
Lemma first_occurrences_after_filter l : forall s1 s2,
  first_occurrences_after (s1 ++ s2)%list l
  = filter (fun x => negb (AST.mem x s1)) (first_occurrences_after s2 l).
Proof.
  induction l as [| x l IH]; intros s1 s2; [reflexivity |].
  cbn [first_occurrences_after]. rewrite mem_app.
  destruct (AST.mem x s2) eqn:E2.
  - rewrite Bool.orb_true_r. apply IH.
  - rewrite Bool.orb_false_r. cbn [filter].
    destruct (AST.mem x s1) eqn:E1; cbn [negb].
    + rewrite <- (IH s1 (x :: s2)). apply first_occurrences_after_ext.
      intro y. rewrite !mem_app, mem_cons.
      destruct (String.eqb y x) eqn:Eyx; [| reflexivity].
      apply String.eqb_eq in Eyx. subst y. rewrite E1. reflexivity.
    + f_equal. rewrite <- (IH s1 (x :: s2)). apply first_occurrences_after_ext.
      intro y. rewrite mem_cons, !mem_app, mem_cons.
      destruct (String.eqb y x), (AST.mem y s1); reflexivity.
Qed.

Lemma unique_In elements x :
  In x (AST.unique elements) <-> exists e, In e elements /\ In x e.
Proof.
  rewrite unique_spec. unfold first_occurrences.
  rewrite first_occurrences_after_In, in_concat. split.
  - intros [(e & He & Hx) _]. exists e. auto.
  - intros (e & He & Hx). split; [exists e; auto | intros []].
Qed.

Lemma unique_cons a elements :
  AST.unique (a :: elements)
  = (AST.unique [a]
     ++ filter (fun x => negb (AST.mem x a)) (AST.unique elements))%list.
Proof.
  unfold AST.unique. cbn [concat]. rewrite app_nil_r, Set_add_all_app.
  rewrite (Set_add_all_spec (AST.Set_add_all [] a)). f_equal.
  rewrite (Set_add_all_spec [] (concat elements)). cbn [app].
  rewrite <- (first_occurrences_after_filter (concat elements) a []).
  apply first_occurrences_after_ext. intro y. rewrite app_nil_r.
  destruct (AST.mem y a) eqn:E.
  - apply mem_In. apply mem_In in E.
    change (In y (AST.Set_add_all [] a)). rewrite <- (app_nil_r a).
    change (In y (AST.unique [a])). apply unique_In. exists a. split; [left; reflexivity | exact E].
  - apply mem_false. apply mem_false in E. intro H. apply E.
    rewrite <- (app_nil_r a) in H. change (In y (AST.unique [a])) in H.
    apply unique_In in H. destruct H as (e & [<- | []] & Hy). exact Hy.
Qed.

End UniqueFacts.

(** X17.  [unique].  For all its arguments, [unique] returns a list
    without duplicates that has exactly the elements of its arguments.  It
    is biased to the left: the result for a first argument and further
    arguments is the result for the first argument alone, followed by the
    result for the further arguments without the elements of the first.
    A single argument without duplicates is returned as it is, and so
    [unique] of its own result is that result. *)
Theorem X17_unique_keeps_each_element_once :
  forall (a : list string) (elements : list (list string)),
    NoDup (AST.unique elements)
    /\ (forall x, In x (AST.unique elements) <-> exists e, In e elements /\ In x e)
    /\ AST.unique (a :: elements)
       = (AST.unique [a]
          ++ filter (fun x => negb (AST.mem x a)) (AST.unique elements))%list
    /\ (NoDup a -> AST.unique [a] = a)
    /\ AST.unique [AST.unique elements] = AST.unique elements.
Proof.
  intros a elements.
  assert (Hid : forall l, NoDup l -> AST.unique [l] = l).
  { intros l Hl. rewrite unique_spec. cbn [concat]. rewrite app_nil_r.
    apply first_occurrences_id. exact Hl. }
  split; [apply unique_NoDup |]. split; [intro x; apply unique_In |].
  split; [apply unique_cons |]. split; [apply Hid |].
  apply Hid. apply unique_NoDup.
Qed.

Section FlattenFacts.

Lemma flatten_app a b : flatten (a ++ b)%list = (flatten a ++ flatten b)%list.
Proof. unfold flatten. apply flat_map_app. Qed.

Lemma flatten_no_array elements : no_array elements = true -> flatten elements = elements.
Proof.
  induction elements as [| v elements IH]; [reflexivity |].
  cbn [no_array forallb]. intro H. apply Bool.andb_true_iff in H. destruct H as [Hv H].
  unfold flatten in *. cbn [flat_map]. rewrite (IH H).
  destruct v; try reflexivity. discriminate Hv.
Qed.

Lemma flatten_arrays arrays : flatten (map V_array arrays) = concat arrays.
Proof.
  induction arrays as [| l arrays IH]; [reflexivity |].
  unfold flatten in *. cbn [map flat_map concat Js.concat_into_array]. rewrite IH. reflexivity.
Qed.

End FlattenFacts.

(** X18.  [flatten].  [flatten] takes away one level of arrays and no more:
    the elements of the arguments that are arrays and the other arguments
    come in the order of the arguments; arguments none of which is an array
    are returned as they are; arguments that are all arrays give the
    concatenation of the arrays, so that an array inside an array stays an
    array; and as many values come out as the arrays have elements, plus one
    for every other argument. *)
Theorem X18_flatten_takes_one_level_away :
  forall (a b : list Value) (arrays : list (list Value)),
    flatten (a ++ b)%list = (flatten a ++ flatten b)%list
    /\ (no_array a = true -> flatten a = a)
    /\ flatten (map V_array arrays) = concat arrays
    /\ flatten [V_array (map V_array arrays)] = map V_array arrays
    /\ length (flatten a)
       = list_sum (map (fun v => match v with
                                 | V_array elements => length elements
                                 | _ => 1
                                 end) a).
Proof.
  intros a b arrays.
  split; [apply flatten_app |]. split; [apply flatten_no_array |].
  split; [apply flatten_arrays |]. split.
  - unfold flatten. cbn [flat_map Js.concat_into_array]. apply app_nil_r.
  - induction a as [| v a IH]; [reflexivity |].
    change (v :: a) with ([v] ++ a)%list.
    rewrite flatten_app, length_app, IH. cbn [app map list_sum].
    f_equal. unfold flatten. cbn [flat_map]. rewrite app_nil_r.
    destruct v; reflexivity.
Qed.

Section Messages.

Lemma append_injective_left (p a b : string) : (p ++ a = p ++ b)%string -> a = b.
Proof.
  induction p as [| c p IH]; [intro H; exact H |].
  cbn [append]. intro H. injection H as H. apply IH. exact H.
Qed.

Lemma append_injective_right (s : string) : forall a b : string,
  (a ++ s = b ++ s)%string -> a = b.
Proof.
  induction a as [| c a IH]; intros b H.
  - destruct b as [| d b]; [reflexivity |].
    apply (f_equal String.length) in H. cbn [append String.length] in H.
    rewrite string_length_append in H. lia.
  - destruct b as [| d b].
    + apply (f_equal String.length) in H. cbn [append String.length] in H.
      rewrite string_length_append in H. lia.
    + cbn [append] in H. injection H as -> H. f_equal. apply IH. exact H.
Qed.

End Messages.

(** X19.  The messages of the two error classes.  The message of
    [MVC.SyntaxError] holds the input between double quotes after a fixed
    text, so two syntax errors with the same message carry the same input;
    likewise for [MVC.InternalError]; and no message of one class is a
    message of the other. *)
Theorem X19_the_message_tells_the_input :
  forall (a b : string),
    (MVC.message (MVC.SyntaxError a) = MVC.message (MVC.SyntaxError b) -> a = b)
    /\ (MVC.message (MVC.InternalError a) = MVC.message (MVC.InternalError b) -> a = b)
    /\ MVC.message (MVC.InternalError a) <> MVC.message (MVC.SyntaxError b)
    /\ String.length (MVC.message (MVC.SyntaxError a)) = 36 + String.length a.
Proof.
  intros a b. split; [| split; [| split]].
  - cbn [MVC.message]. intro H. apply append_injective_left in H.
    unfold in_quotes in H. injection H as H. apply (append_injective_right _ _ _ H).
  - cbn [MVC.message]. apply append_injective_left.
  - cbn [MVC.message]. discriminate.
  - cbn [MVC.message]. unfold in_quotes. rewrite string_length_append.
    cbn [String.length]. rewrite string_length_append. cbn [String.length]. lia.
Qed.

(* ===================================================================== *)
(** * Further properties: string literals, [compile] and [compileSafe] *)
(* ===================================================================== *)

Section StringLiterals.

Import LexerMethods Parser.

Lemma quoted_tail_pairs q cs :
  Str.every (fun c => negb (Ascii.eqb c q)) cs = true ->
  RegExp.quoted_tail q (escaped_pairs q cs ++ String q "")
  = Some (escaped_pairs q cs ++ String q "").
Proof.
  induction cs as [| c cs IH]; intro H.
  - cbn [escaped_pairs append RegExp.quoted_tail]. rewrite Ascii.eqb_refl. reflexivity.
  - cbn [Str.every] in H. apply Bool.andb_true_iff in H. destruct H as [Hc H].
    apply Bool.negb_true_iff in Hc.
    cbn [escaped_pairs append RegExp.quoted_tail]. rewrite Hc, !Ascii.eqb_refl.
    cbn [andb]. rewrite (IH H). reflexivity.
Qed.

Lemma plain_char_is_no_quote c : plain_char c = true -> Ascii.eqb c double_quote = false.
Proof.
  destruct c as [[] [] [] [] [] [] [] []]; intro H; try reflexivity; discriminate H.
Qed.

Lemma parse_chars_pairs cs :
  Str.every plain_char cs = true ->
  JSON.parse_chars (escaped_pairs double_quote cs ++ String double_quote "")
  = Some (quote_pairs double_quote cs).
Proof.
  induction cs as [| c cs IH]; intro H; [reflexivity |].
  cbn [Str.every] in H. apply Bool.andb_true_iff in H. destruct H as [Hc H].
  unfold plain_char in Hc. apply Bool.andb_true_iff in Hc. destruct Hc as [Hc H92].
  apply Bool.andb_true_iff in Hc. destruct Hc as [H32 H34].
  apply Bool.negb_true_iff in H92, H34. apply Nat.leb_le in H32.
  cbn [escaped_pairs append quote_pairs].
  cbn [JSON.parse_chars]. rewrite H34, H92.
  replace (Str.code c <? 32)%nat with false by (symmetry; apply Nat.ltb_ge; exact H32).
  change (JSON.parse_chars
            (String "\" (String double_quote
                           (escaped_pairs double_quote cs ++ String double_quote ""))))
    with (option_map (String double_quote)
            (JSON.parse_chars (escaped_pairs double_quote cs ++ String double_quote ""))).
  rewrite (IH H). reflexivity.
Qed.

(** [next] on a text that starts with a quote and that the string pattern
    of that quote matches as a whole *)
Lemma next_string original q body token label :
  (Ascii.eqb q double_quote || Ascii.eqb q single_quote)%bool = true ->
  RegExp.quoted q (String q body) = Some (String q body) ->
  next (mkLexer original (String q body) token label)
  = Return T_string (mkLexer original "" T_string (String q body)).
Proof.
  intros Hq Hmatch.
  assert (Hfirst : RegExp.spaces (String q body) = None
                   /\ RegExp.literal "undefined" (String q body) = None
                   /\ RegExp.literal "true" (String q body) = None
                   /\ RegExp.literal "false" (String q body) = None
                   /\ RegExp.keyword_in (String q body) = None
                   /\ RegExp.identifier (String q body) = None
                   /\ RegExp.literal "." (String q body) = None
                   /\ RegExp.digits (String q body) = None).
  { apply Bool.orb_true_iff in Hq.
    destruct Hq as [Hq | Hq]; apply Ascii.eqb_eq in Hq; subst q; repeat split. }
  destruct Hfirst as (H0 & H1 & H2 & H3 & H4 & H5 & H6 & H7).
  unfold next, _read. cbn [_input Str.is_empty]. rewrite H0.
  unfold next_switch, rules. cbn [first_match]. unfold _match, _read. cbn [_input].
  rewrite H1, H2, H3, H4, H5, H6, H7.
  apply Bool.orb_true_iff in Hq. destruct Hq as [Hq | Hq]; apply Ascii.eqb_eq in Hq; subst q.
  - rewrite Hmatch. cbn [_input originalInput _token].
    rewrite substr_length_append_empty. reflexivity.
  - replace (RegExp.quoted double_quote (String single_quote body)) with (@None string)
      by reflexivity.
    rewrite Hmatch. cbn [_input originalInput _token].
    rewrite substr_length_append_empty. reflexivity.
Qed.

(** a level of [_parseBinaryNode] whose operand ends the input *)
Lemma level_up f idx leftAssociative operators node lx lx' :
  nth_error _BINARY_OPERATOR_PRECEDENCE_TABLE idx = Some (leftAssociative, operators) ->
  _token lx' = T_end ->
  _parseBinaryNode (S f) (idx + 1) lx = Return node lx' ->
  _parseBinaryNode (S (S f)) idx lx = Return node lx'.
Proof.
  intros Hlevel Hend H. remember (S f) as f1 eqn:Ef. cbn [_parseBinaryNode].
  rewrite Hlevel. destruct leftAssociative; unfold bind; rewrite H.
  - rewrite Ef. cbn [_parseBinaryNode_while]. unfold bind, get_token, get_label.
    rewrite Hend. reflexivity.
  - unfold get_token, get_label. rewrite Hend. reflexivity.
Qed.

(** [parse()] when the input is one value and nothing more *)
Lemma parse_of_a_value k lx node lx' :
  _token lx <> T_operator ->
  _parseValue (3 + k) lx = Return node lx' ->
  _token lx' = T_end ->
  Parser.parse (12 + k) lx = Return node lx'.
Proof.
  intros Hop Hvalue Hend.
  assert (Hunary : _parseBinaryNode (5 + k) (5 + 1) lx = Return node lx').
  { change (5 + k) with (S (S (3 + k))). remember (3 + k) as f eqn:Ef.
    cbn [_parseBinaryNode _parseUnaryNode Nat.add nth_error _BINARY_OPERATOR_PRECEDENCE_TABLE].
    unfold bind, get_token.
    destruct (Token_eqb T_operator (_token lx)) eqn:E;
      [apply Token_eqb_eq in E; symmetry in E; contradiction | exact Hvalue]. }
  apply (level_up (4 + k) 5 _ _ _ _ _ eq_refl Hend) in Hunary.
  apply (level_up (5 + k) 4 _ _ _ _ _ eq_refl Hend) in Hunary.
  apply (level_up (6 + k) 3 _ _ _ _ _ eq_refl Hend) in Hunary.
  apply (level_up (7 + k) 2 _ _ _ _ _ eq_refl Hend) in Hunary.
  apply (level_up (8 + k) 1 _ _ _ _ _ eq_refl Hend) in Hunary.
  apply (level_up (9 + k) 0 _ _ _ _ _ eq_refl Hend) in Hunary.
  unfold Parser.parse, bind. change (12 + k) with (S (11 + k)).
  remember (11 + k) as f eqn:Ef. cbn [_parseRoot]. rewrite Ef.
  change (11 + k) with (S (S (9 + k))). rewrite Hunary.
  unfold end_. rewrite Hend. reflexivity.
Qed.

(** a level of [_parseBinaryNode] whose operand throws *)
Lemma level_up_throw f idx leftAssociative operators e lx :
  nth_error _BINARY_OPERATOR_PRECEDENCE_TABLE idx = Some (leftAssociative, operators) ->
  _parseBinaryNode (S f) (idx + 1) lx = Throw e ->
  _parseBinaryNode (S (S f)) idx lx = Throw e.
Proof.
  intros Hlevel H. remember (S f) as f1 eqn:Ef. cbn [_parseBinaryNode].
  rewrite Hlevel. destruct leftAssociative; unfold bind; rewrite H; reflexivity.
Qed.

(** [parse()] when the value at the start of the input throws *)
Lemma parse_of_a_throw k lx e :
  _token lx <> T_operator ->
  _parseValue (3 + k) lx = Throw e ->
  Parser.parse (12 + k) lx = Throw e.
Proof.
  intros Hop Hvalue.
  assert (Hunary : _parseBinaryNode (5 + k) (5 + 1) lx = Throw e).
  { change (5 + k) with (S (S (3 + k))). remember (3 + k) as f eqn:Ef.
    cbn [_parseBinaryNode _parseUnaryNode Nat.add nth_error _BINARY_OPERATOR_PRECEDENCE_TABLE].
    unfold bind, get_token.
    destruct (Token_eqb T_operator (_token lx)) eqn:E;
      [apply Token_eqb_eq in E; symmetry in E; contradiction | exact Hvalue]. }
  apply (level_up_throw (4 + k) 5 _ _ _ _ eq_refl) in Hunary.
  apply (level_up_throw (5 + k) 4 _ _ _ _ eq_refl) in Hunary.
  apply (level_up_throw (6 + k) 3 _ _ _ _ eq_refl) in Hunary.
  apply (level_up_throw (7 + k) 2 _ _ _ _ eq_refl) in Hunary.
  apply (level_up_throw (8 + k) 1 _ _ _ _ eq_refl) in Hunary.
  apply (level_up_throw (9 + k) 0 _ _ _ _ eq_refl) in Hunary.
  unfold Parser.parse, bind. change (12 + k) with (S (11 + k)).
  remember (11 + k) as f eqn:Ef. cbn [_parseRoot]. rewrite Ef.
  change (11 + k) with (S (S (9 + k))). rewrite Hunary. reflexivity.
Qed.

(** [parse()] on a lexer whose only token is a string *)
Lemma parse_string_token k original label :
  Parser.parse (12 + k) (mkLexer original "" T_string label)
  = match JSON.parse label with
    | Some s => Return (LiteralNode (L_string s)) (mkLexer original "" T_end "")
    | None => Throw (MVC.JSON_SyntaxError label)
    end.
Proof.
  assert (Hvalue : _parseValue (3 + k) (mkLexer original "" T_string label)
                   = bind (_parseStringLiteral label)
                          (fun s => ret (LiteralNode (L_string s)))
                          (mkLexer original "" T_end "")).
  { reflexivity. }
  unfold _parseStringLiteral, bind in Hvalue.
  destruct (JSON.parse label) as [s |] eqn:E.
  - apply parse_of_a_value; [discriminate | exact Hvalue | reflexivity].
  - apply parse_of_a_throw; [discriminate | exact Hvalue].
Qed.

End StringLiterals.

(** X20.  The string literals that parse.  The group of the string
    patterns is a character other than the quote, then a backslash, then
    the quote.  A double-quoted literal whose body is a sequence of such
    groups, with characters that stand for themselves in JSON, parses to
    the string literal of those characters, each followed by a double
    quote; the empty literal parses to the empty string.  A single-quoted
    literal of that form is lexed as a string too, and then [JSON.parse]
    rejects it. *)
Theorem X20_the_string_literals_that_parse :
  forall (k : nat) (cs : string),
    (Str.every plain_char cs = true ->
     Expressions.parse (12 + k) (in_quotes double_quote (escaped_pairs double_quote cs))
     = Ok (LiteralNode (L_string (quote_pairs double_quote cs))))
    /\ (Str.every (fun c => negb (Ascii.eqb c single_quote)) cs = true ->
        Expressions.parse (12 + k) (in_quotes single_quote (escaped_pairs single_quote cs))
        = Error (MVC.JSON_SyntaxError
                   (in_quotes single_quote (escaped_pairs single_quote cs)))).
Proof.
  intros k cs. split; intro H.
  - assert (Hq : Str.every (fun c => negb (Ascii.eqb c double_quote)) cs = true).
    { clear k. induction cs as [| c cs IH]; [reflexivity |].
      cbn [Str.every] in H |- *. apply Bool.andb_true_iff in H. destruct H as [Hc H].
      rewrite (plain_char_is_no_quote c Hc), (IH H). reflexivity. }
    unfold Expressions.parse, Expressions.with_Parser, Parser.new_Parser, new_Lexer, in_quotes.
    rewrite (next_string _ double_quote _ T_begin "" eq_refl).
    + cbn [result_of]. rewrite parse_string_token.
      unfold JSON.parse. change (Str.code double_quote =? 34)%nat with true. cbv iota.
      rewrite (parse_chars_pairs cs H). reflexivity.
    + unfold RegExp.quoted. rewrite Ascii.eqb_refl, (quoted_tail_pairs double_quote cs Hq).
      reflexivity.
  - unfold Expressions.parse, Expressions.with_Parser, Parser.new_Parser, new_Lexer, in_quotes.
    rewrite (next_string _ single_quote _ T_begin "" eq_refl).
    + cbn [result_of]. rewrite parse_string_token. reflexivity.
    + unfold RegExp.quoted. rewrite Ascii.eqb_refl, (quoted_tail_pairs single_quote cs H).
      reflexivity.
Qed.

(** X21.  [compile] and [compileSafe].  [compile] returns or throws what
    the evaluation of the expression returns or throws and writes nothing
    to the console.  [compileSafe] never throws: where [compile] returns a
    value it returns the same value and leaves the console alone; where
    [compile] throws it returns [undefined] and the console has one more
    line, the error; called again on the console it left, it adds one more
    line. *)
Theorem X21_compileSafe_is_compile_without_the_throw :
  forall (expression : Node) (this : Dictionary) (console : Compiled.Console),
    Compiled.compileSafe expression this console
    = match Compiled.compile expression this console with
      | Some (Normal v, console') => Some (Normal v, console')
      | Some (Abrupt e, console') =>
          Some (Normal V_undefined, Compiled.console_error e console')
      | None => None
      end
    /\ (forall e console',
          Compiled.compileSafe expression this console <> Some (Abrupt e, console'))
    /\ (forall c console', Compiled.compile expression this console = Some (c, console') ->
          console' = console)
    /\ (forall e, Compiled.compile expression this console = Some (Abrupt e, console) ->
          match Compiled.compileSafe expression this console with
          | Some (_, console') =>
              Compiled.compileSafe expression this console'
              = Some (Normal V_undefined, (console ++ [e; e])%list)
          | None => False
          end).
Proof.
  intros expression this console.
  unfold Compiled.compileSafe, Compiled.compile, Compiled.try_catch, Compiled.return_,
    Compiled.console_error.
  destruct (Js.evaluate this expression) as [[v | e] |]; cbn [option_map];
    (split; [reflexivity |]); (split; [discriminate |]); split;
    try (intros c console' H; injection H as _ <-; reflexivity);
    try discriminate.
  intros e' H. injection H as <-. rewrite <- app_assoc. reflexivity.
Qed.

(* ===================================================================== *)
(** * Further properties of the parser: the trees of token sequences *)
(* ===================================================================== *)

Section Gives.

Import LexerMethods Parser.

Lemma gives_const {A} (m : M A) lx o : m lx = o -> gives (fun _ => m) lx o.
Proof. intro H. exists 0. intros fuel _. exact H. Qed.

Lemma gives_succ {A} (g : nat -> M A) lx o : gives (fun fuel => g (S fuel)) lx o -> gives g lx o.
Proof.
  intros [enough H]. exists (S enough). intros fuel Hfuel.
  destruct fuel as [| fuel]; [lia |]. apply H. lia.
Qed.

(** [step] on a lexer whose [next] is known *)
Lemma step_returns lx t lx1 : next lx = Return t lx1 -> step lx = Return (_label lx) lx1.
Proof. intro H. unfold step, bind, get_label, ret. rewrite H. reflexivity. Qed.

Lemma expect_returns tokens lx t lx1 :
  existsb (Token_eqb (_token lx)) tokens = true -> next lx = Return t lx1 ->
  expect tokens lx = Return (_label lx) lx1.
Proof. intros Hin H. unfold expect. rewrite Hin. apply (step_returns _ _ _ H). Qed.

(** ** The test of the loops *)




(** ** The values of one token *)


(** ** Unary nodes *)



Lemma gives_unary_throw lx :
  _token lx = T_operator -> includes (_label lx) ["+"; "-"; "!"] = false ->
  gives _parseUnaryNode lx (Throw (MVC.SyntaxError (originalInput lx))).
Proof.
  intros Htoken Hop. exists 1. intros [| fuel] Hfuel; [lia |]. cbn [_parseUnaryNode].
  unfold bind, get_token, get_label, get_input, throw.
  rewrite Htoken. cbn [Token_eqb negb]. rewrite Hop. reflexivity.
Qed.

(** ** The levels of [_parseBinaryNode] *)

Lemma gives_level_unary idx lx o :
  nth_error _BINARY_OPERATOR_PRECEDENCE_TABLE idx = None ->
  gives _parseUnaryNode lx o -> gives (fun fuel => _parseBinaryNode fuel idx) lx o.
Proof.
  intros Hlevel [enough H]. apply gives_succ.
  exists enough. intros fuel Hfuel. cbn [_parseBinaryNode]. rewrite Hlevel. apply H. exact Hfuel.
Qed.

Lemma gives_unary_level idx lx o :
  nth_error _BINARY_OPERATOR_PRECEDENCE_TABLE idx = None ->
  gives (fun fuel => _parseBinaryNode fuel idx) lx o -> gives _parseUnaryNode lx o.
Proof.
  intros Hlevel [enough H]. exists enough. intros fuel Hfuel.
  specialize (H (S fuel)). cbn [_parseBinaryNode] in H. rewrite Hlevel in H. apply H. lia.
Qed.










(** ** The entry points *)

Lemma gives_root lx o :
  gives (fun fuel => _parseBinaryNode fuel 0) lx o -> gives _parseRoot lx o.
Proof. intro H. apply gives_succ. exact H. Qed.



Lemma gives_parse_throw lx e :
  gives _parseRoot lx (Throw e) -> gives Parser.parse lx (Throw e).
Proof.
  intros [enough H]. exists enough. intros fuel Hfuel.
  unfold Parser.parse, bind. rewrite (H fuel Hfuel). reflexivity.
Qed.

Lemma gives_Expressions_parse input t lx o :
  new_Parser input = Return t lx -> gives Parser.parse lx o ->
  exists enough, forall fuel, enough <= fuel -> Expressions.parse fuel input = result_of o.
Proof.
  intros Hnew [enough H]. exists enough. intros fuel Hfuel.
  unfold Expressions.parse, Expressions.with_Parser. rewrite Hnew, (H fuel Hfuel). reflexivity.
Qed.

End Gives.
Section TokenSequences.

Import LexerMethods Parser.

Lemma reads_head lx t l ts : reads lx ((t, l) :: ts) -> _token lx = t /\ _label lx = l.
Proof. intros (Ht & Hl & _). auto. Qed.

Lemma reads_next lx t l t' l' ts :
  reads lx ((t, l) :: (t', l') :: ts) ->
  exists lx', next lx = Return t' lx' /\ originalInput lx' = originalInput lx
              /\ reads lx' ((t', l') :: ts).
Proof.
  intros (_ & _ & lx' & Hnext & Hreads). exists lx'.
  pose proof (next_spec lx) as Hspec. rewrite Hnext in Hspec.
  split; [exact Hnext |]. split; [apply Hspec | exact Hreads].
Qed.

(** the tokens of [tokens_from] are read one [next] each *)
Lemma tokens_from_reads n : forall lx t l ts e,
  tokens_from n lx = ((t, l) :: ts, e) ->
  exists lx1, next lx = Return t lx1 /\ reads lx1 ((t, l) :: ts).
Proof.
  induction n as [| n IH]; intros lx t l ts e H; [discriminate H |].
  destruct (next lx) as [t0 lx1 | err |] eqn:E.
  - destruct (next_label _ _ _ E) as (skipped & _ & Htoken & Hkind & _).
    destruct (Token_eqb T_end t0) eqn:Eend.
    + apply Token_eqb_eq in Eend. rewrite <- Eend in E, Htoken, Hkind |- *.
      cbn [tokens_from] in H. rewrite E in H. cbv beta iota in H.
      injection H as <- <- <- <-. exists lx1. split; [reflexivity |].
      cbn in Hkind. apply String.eqb_eq in Hkind. cbn. auto.
    + assert (Hne : t0 <> T_end).
      { intro Habs. rewrite Habs in Eend. discriminate Eend. }
      rewrite (tokens_from_step n lx t0 lx1 E Hne) in H.
      destruct (tokens_from n lx1) as [ts1 e1] eqn:E1.
      injection H as <- <- <- <-. exists lx1. split; [reflexivity |].
      cbn [reads]. split; [exact Htoken |]. split; [reflexivity |].
      destruct ts1 as [| [t' l'] ts1]; [exact I |].
      destruct (IH lx1 t' l' ts1 e1 E1) as (lx2 & Hnext & Hreads).
      exists lx2. auto.
  - cbn [tokens_from] in H. rewrite E in H. discriminate H.
  - cbn [tokens_from] in H. rewrite E in H. discriminate H.
Qed.

(** the parser of an input starts on the first token of [tokenize] *)
Lemma tokenize_reads input t l ts e :
  tokenize input = ((t, l) :: ts, e) ->
  exists lx, new_Parser input = Return t lx /\ originalInput lx = input
             /\ reads lx ((t, l) :: ts).
Proof.
  intro H. destruct (tokens_from_reads _ _ _ _ _ _ H) as (lx & Hnext & Hreads).
  exists lx. split; [exact Hnext |]. split; [| exact Hreads].
  pose proof (next_spec (new_Lexer input)) as Hspec. rewrite Hnext in Hspec. apply Hspec.
Qed.

Lemma operand_not_empty ts a : operand ts = Some a -> ts <> [].
Proof. intros H ->. discriminate H. Qed.



(** ** The rows of the table *)








End TokenSequences.
Section Trees.

Import LexerMethods Parser.

Lemma gives_throw_lift lx e k : forall idx,
  gives (fun fuel => _parseBinaryNode fuel (idx + k)) lx (Throw e) ->
  gives (fun fuel => _parseBinaryNode fuel idx) lx (Throw e).
Proof.
  induction k as [| k IH]; intros idx H.
  - rewrite Nat.add_0_r in H. exact H.
  - replace (idx + S k) with (idx + 1 + k) in H by lia. apply IH in H.
    destruct (nth_error _BINARY_OPERATOR_PRECEDENCE_TABLE idx) as [[assoc operators] |] eqn:Hlevel.
    + destruct H as [enough H]. exists (S enough). intros [| fuel] Hfuel; [lia |].
      cbn [_parseBinaryNode]. rewrite Hlevel.
      destruct assoc; unfold bind; rewrite (H fuel) by lia; reflexivity.
    + apply (gives_level_unary idx lx _ Hlevel).
      apply (gives_unary_level (idx + 1)); [| exact H].
      apply nth_error_None. apply nth_error_None in Hlevel. lia.
Qed.

Lemma gives_level_throw lx e :
  gives _parseUnaryNode lx (Throw e) ->
  gives (fun fuel => _parseBinaryNode fuel 0) lx (Throw e).
Proof.
  intro H. apply (gives_throw_lift lx e 6 0).
  apply gives_level_unary; [reflexivity | exact H].
Qed.






End Trees.








(** X26.  An operator at the start.  When the first token of the input is an
    operator other than [+], [-] and [!], [parse] throws the syntax error of
    the input, whatever follows the operator. *)
Theorem X26_an_operator_first_is_a_syntax_error :
  forall (input op : string) (ts : list (Token * string)) (e : option MVC.Error),
    LexerMethods.tokenize input = ((T_operator, op) :: ts, e) ->
    Parser.includes op ["+"; "-"; "!"] = false ->
    exists enough, forall fuel, enough <= fuel ->
      Expressions.parse fuel input = Error (MVC.SyntaxError input).
Proof.
  intros input op ts e Htokens Hop.
  destruct (tokenize_reads input T_operator op ts e Htokens) as (lx & Hnew & Horiginal & Hreads).
  destruct (reads_head _ _ _ _ Hreads) as [Htoken Hlabel].
  replace (MVC.SyntaxError input) with (MVC.SyntaxError (originalInput lx))
    by (rewrite Horiginal; reflexivity).
  apply (gives_Expressions_parse input T_operator lx
           (Throw (MVC.SyntaxError (originalInput lx))) Hnew).
  apply gives_parse_throw. apply gives_root. apply gives_level_throw.
  apply gives_unary_throw; [exact Htoken | rewrite Hlabel; exact Hop].
Qed.

Lemma X26_witness :
  LexerMethods.tokenize "* rate" = ([(T_operator, "*"); (T_name, "rate"); (T_end, "")], None)
  /\ exists enough, forall fuel, enough <= fuel ->
       Expressions.parse fuel "* rate" = Error (MVC.SyntaxError "* rate").
Proof.
  split; [reflexivity |].
  apply (X26_an_operator_first_is_a_syntax_error "* rate" "*"
           [(T_name, "rate"); (T_end, "")] None);
    reflexivity.
Defined.


(** X28.  What is no iteration.  When the first token of the input is not a
    name, or the token after the name is neither a comma nor [in],
    [parseIteration] throws the syntax error of the input, whatever
    follows. *)
Theorem X28_an_iteration_starts_with_a_name_and_a_comma_or_in :
  forall (fuel : nat) (input l l' : string) (t t' : Token) (ts : list (Token * string))
         (e : option MVC.Error),
    LexerMethods.tokenize input = ((t, l) :: (t', l') :: ts, e) ->
    (t = T_name -> t' <> T_comma /\ t' <> T_in) ->
    Expressions.parseIteration fuel input = Error (MVC.SyntaxError input).
Proof.
  intros fuel input l l' t t' ts e Htokens Hshape.
  destruct (tokenize_reads input t l _ _ Htokens) as (lx & Hnew & Horiginal & Hreads).
  destruct (reads_head _ _ _ _ Hreads) as [Htoken Hlabel].
  destruct (reads_next _ _ _ _ _ _ Hreads) as (lx2 & Hnext & Horiginal2 & Hreads2).
  destruct (reads_head _ _ _ _ Hreads2) as [Htoken2 _].
  unfold Expressions.parseIteration, Expressions.with_Parser. rewrite Hnew.
  unfold Parser.parseIteration. unfold bind at 1.
  destruct (Token_eqb t T_name) eqn:Ename.
  - apply Token_eqb_eq in Ename. destruct (Hshape Ename) as [Hcomma Hin].
    rewrite (expect_returns [T_name] lx t' lx2);
      [| rewrite Htoken, Ename; reflexivity | exact Hnext].
    unfold bind at 1. unfold get_token. rewrite Htoken2.
    destruct t'; try (contradiction Hcomma; reflexivity); try (contradiction Hin; reflexivity);
      unfold bind, Parser.get_input, throw; cbn [result_of];
      rewrite Horiginal2, Horiginal; reflexivity.
  - unfold LexerMethods.expect. rewrite Htoken. cbn [existsb]. rewrite Ename. cbn [orb result_of].
    rewrite Horiginal. reflexivity.
Qed.

Lemma X28_witness :
  LexerMethods.tokenize "item of items"
  = ([(T_name, "item"); (T_name, "of"); (T_name, "items"); (T_end, "")], None)
  /\ Expressions.parseIteration 0 "item of items" = Error (MVC.SyntaxError "item of items").
Proof.
  split; [reflexivity |].
  apply (X28_an_iteration_starts_with_a_name_and_a_comma_or_in 0 "item of items"
           "item" "of" T_name T_name [(T_name, "items"); (T_end, "")] None);
    [reflexivity | intros _; split; discriminate].
Defined.
